(** * tsp.cc: union-find, Kruskal's spanning tree, the metric tour and the
    subset dynamic programme

    A shallow embedding of [src/tsp.cc].  Vertices and indices are [nat];
    subsets are bit masks in [Z]; vectors indexed and updated in place are
    lists with stdpp's lookup and insert, an access out of range being
    undefined behaviour in C++ and [None] here.  The cost matrix
    [vector<vector<float>>&] is only read, at indices below [n], and is a
    function [nat -> nat -> F]; so is the table [opt], with a pointwise
    update.

    The element type [float] is kept behind the four operations the
    program uses on it ([<], [+], the value-initialised zero and [FLT_MAX]);
    [binary32] instantiates them with IEEE 754 single precision from the
    standard library's [SpecFloat]. *)

From Stdlib Require Import ZArith Lia.
From Stdlib Require Import Floats.SpecFloat.
From stdpp Require Import base tactics option list sorting relations gmap.

#[local] Set Warnings "-clear-no-such-hyp".
Local Open Scope nat_scope.

(** ** The operations on [float] *)

Class FloatOps (F : Type) := {
  flt : F → F → bool;      (* operator< *)
  fadd : F → F → F;        (* operator+ *)
  fzero : F;               (* float() *)
  FLT_MAX : F;             (* <cfloat> *)
}.

(** IEEE 754 binary32: 24 bits of precision, exponents below 128. *)
Module binary32.
Definition prec : Z := 24.
Definition emax : Z := 128.
Definition of_Z (z : Z) : spec_float := binary_normalize prec emax z 0 false.
Definition infinity : spec_float := S754_infinity false.
#[global] Instance ops : FloatOps spec_float := {|
  flt := SFltb;
  fadd := SFadd prec emax;
  fzero := S754_zero false;
  FLT_MAX := SFmax_float prec emax;
|}.
(** The exact value of a finite float, in units of [2^-149] (the least
    positive subnormal); zero on infinities and NaN. *)
Definition scaled (x : spec_float) : Z :=
  match x with
  | S754_finite s m e => cond_Zopp s (Z.pos m * 2 ^ (e + 149))
  | _ => 0
  end%Z.
End binary32.

(** ** struct Edge *)

Record Edge (F : Type) := mkEdge { head : nat; tail : nat; cost : F }.
Arguments mkEdge {F} _ _ _.
Arguments head {F} _.
Arguments tail {F} _.
Arguments cost {F} _.

(** The two end points of an edge, for the graph-theoretic statements. *)
Definition ends {F} (e : Edge F) : nat * nat := (head e, tail e).

(** ** struct UnionFind *)

Record UnionFind := mkUF { parent : list nat; rank : list nat }.

Module UF.

(** [parent[i] = i; rank[i] = 0;] *)
Definition make_set (uf : UnionFind) (i : nat) : option UnionFind :=
  if decide (i < length (parent uf) ∧ i < length (rank uf)) then
    Some (mkUF (<[i := i]> (parent uf)) (<[i := 0]> (rank uf)))
  else None.

(** [UnionFind(int n) : parent(n), rank(n)] followed by the loop of
    [make_set]. *)
Definition init (n : nat) : option UnionFind :=
  foldl (λ acc i, uf ← acc; make_set uf i)
        (Some (mkUF (replicate n 0) (replicate n 0))) (seq 0 n).

(** [find_set], with path compression.  The recursion of the source is
    on the parent chain; [fuel] bounds its depth. *)
Fixpoint find_set_fuel (fuel : nat) (uf : UnionFind) (i : nat)
    : option (UnionFind * nat) :=
  match fuel with
  | 0 => None
  | S fuel' =>
      p ← parent uf !! i;
      if decide (p ≠ i) then
        '(uf', r) ← find_set_fuel fuel' uf p;
        let uf'' := mkUF (<[i := r]> (parent uf')) (rank uf') in
        r' ← parent uf'' !! i;
        Some (uf'', r')
      else Some (uf, p)
  end.

(** A chain of parents in a forest over [n] elements has at most [n]
    nodes, so [n] calls suffice. *)
Definition find_set (uf : UnionFind) (i : nat) : option (UnionFind * nat) :=
  find_set_fuel (length (parent uf)) uf i.

Definition join (uf : UnionFind) (i j : nat) : option UnionFind :=
  '(uf1, i) ← find_set uf i;
  '(uf2, j) ← find_set uf1 j;
  ri ← rank uf2 !! i;
  rj ← rank uf2 !! j;
  if decide (rj < ri) then
    Some (mkUF (<[j := i]> (parent uf2)) (rank uf2))
  else
    let uf3 := mkUF (<[i := j]> (parent uf2)) (rank uf2) in
    if decide (ri = rj) then
      Some (mkUF (parent uf3) (<[j := rj + 1]> (rank uf3)))
    else Some uf3.

End UF.

(** [vector<vector<float>> opt(nsub, vector<float>(n))], indexed by the
    subset and by the last vertex. *)
Definition table (F : Type) : Type := Z → nat → F.

(** ** The three algorithms *)

Section Algorithms.
Context {F : Type} `{FloatOps F}.

(** [std::sort(edges.begin(), edges.end())] orders by [Edge::operator<];
    the order of edges of equal cost is left to the implementation, so
    the sorting function is a parameter.  [sorts] is what the standard
    promises of it on a given input. *)
Variable sort : list (Edge F) → list (Edge F).

Definition sorted_by_cost (l : list (Edge F)) : Prop :=
  ∀ i j a b, i < j → l !! i = Some a → l !! j = Some b →
             flt (cost b) (cost a) = false.

Definition sorts (l : list (Edge F)) : Prop :=
  sort l ≡ₚ l ∧ sorted_by_cost (sort l).

Definition all_edges (n : nat) (cost : nat → nat → F) : list (Edge F) :=
  i ← seq 0 n; j ← seq (i + 1) (n - (i + 1)); [mkEdge i j (cost i j)].

(** The scan loop of [mst]: [rest] is [edges] from index [i] on, and
    reading [edges[i]] past the end is undefined. *)
Fixpoint mst_scan (n : nat) (rest : list (Edge F)) (forest : UnionFind)
    (tree : list (Edge F)) (size : nat) : option (list (Edge F)) :=
  if decide (size < n - 1) then
    match rest with
    | [] => None
    | e :: rest' =>
        let u := head e in
        let v := tail e in
        '(forest, ru) ← UF.find_set forest u;
        '(forest, rv) ← UF.find_set forest v;
        if decide (ru ≠ rv) then
          forest ← UF.join forest u v;
          mst_scan n rest' forest (tree ++ [e]) (size + 1)
        else mst_scan n rest' forest tree size
    end
  else Some tree.

Definition mst (n : nat) (cost : nat → nat → F) : option (list (Edge F)) :=
  let edges := sort (all_edges n cost) in
  forest ← UF.init n;
  mst_scan n edges forest [] 0.

(** [adjacency_lists[u].push_back(v)] *)
Definition push_adj (adj : list (list nat)) (u v : nat)
    : option (list (list nat)) :=
  l ← adj !! u; Some (<[u := l ++ [v]]> adj).

Definition adjacency (n : nat) (tree : list (Edge F))
    : option (list (list nat)) :=
  foldl (λ acc i,
           adj ← acc;
           e ← tree !! i;
           adj ← push_adj adj (head e) (tail e);
           push_adj adj (tail e) (head e))
        (Some (replicate n [])) (seq 0 (n - 1)).

(** The [while (tour.size() < n)] loop; [open] is the stack, top first.
    [open.top()] on an empty stack is undefined. *)
Fixpoint traverse (fuel : nat) (n : nat) (adj : list (list nat))
    (visited : list bool) (open : list nat) (tour : list nat)
    : option (list nat) :=
  if decide (length tour < n) then
    match fuel with
    | 0 => None
    | S fuel' =>
        match open with
        | [] => None
        | u :: open =>
            b ← visited !! u;
            if negb b then
              vs ← adj !! u;
              traverse fuel' n adj (<[u := true]> visited)
                       (reverse vs ++ open) (tour ++ [u])
            else traverse fuel' n adj visited open tour
        end
    end
  else Some tour.

(** Every iteration pops one entry and at most [1 + 2 (n - 1)] are ever
    pushed, which bounds the number of iterations. *)
Definition metric_tsp (n : nat) (cost : nat → nat → F) : option (list nat) :=
  tree ← mst n cost;
  adj ← adjacency n tree;
  tour ← traverse (2 * n) n adj (replicate n false) [0] [];
  Some (tour ++ [0]).

(** *** The exact solver *)

Definition set_opt (opt : table F) (s : Z) (i : nat) (x : F) : table F :=
  λ s' i', if decide (s' = s ∧ i' = i) then x else opt s' i'.

(** [1 << u].  Masks are integers without a bound: an [int] holds them
    for [n] below 31, and the table has [2^n] rows. *)
Definition bit (u : nat) : Z := Z.shiftl 1 (Z.of_nat u).

(** The vertices [u] with [s & (1 << u)] non-zero, in increasing order. *)
Definition subset_of (n : nat) (s : Z) : list nat :=
  filter (λ u, Z.land s (bit u) ≠ 0%Z) (seq 0 n).

(** The loop over [j] that computes [min_subpath] for [opt[s][i]]. *)
Definition min_over (opt : table F) (cost : nat → nat → F) (t : Z) (i : nat)
    (subset : list nat) : F :=
  foldl (λ min_subpath j,
           if bool_decide (j ≠ i) && flt (fadd (opt t j) (cost j i)) min_subpath
           then fadd (opt t j) (cost j i) else min_subpath)
        FLT_MAX subset.

(** The body of the loop over [i], for one [s]. *)
Definition fill_entry (n : nat) (cost : nat → nat → F) (s : Z)
    (opt : table F) (i : nat) : table F :=
  let subset := subset_of n s in
  if decide (length subset = 2) then set_opt opt s i (cost 0 i)
  else if decide (2 < length subset) then
    let t := Z.land s (Z.lnot (bit i)) in
    set_opt opt s i (min_over opt cost t i subset)
  else opt.

(** [s = 1, 3, 5, ...] below [nsub]. *)
Definition odd_masks (n : nat) : list Z :=
  (λ k, 2 * Z.of_nat k + 1)%Z <$> seq 0 (Z.to_nat ((2 ^ Z.of_nat n) / 2)).

Definition fill_table (n : nat) (cost : nat → nat → F) : table F :=
  foldl (λ opt s, foldl (fill_entry n cost s) opt (seq 1 (n - 1)))
        (λ _ _, fzero) (odd_masks n).

(** The loop over [k] of the reconstruction: the running minimum and
    [best_k], which is not initialised. *)
Definition best_candidate (n : nat) (opt : table F) (cost : nat → nat → F)
    (s : Z) (selected : list bool) (j : nat) : F * option nat :=
  foldl (λ '(min_subpath, best_k) k,
           if negb (default false (selected !! k))
              && flt (fadd (opt s k) (cost k j)) min_subpath
           then (fadd (opt s k) (cost k j), Some k)
           else (min_subpath, best_k))
        (FLT_MAX, None) (seq 0 n).

(** The reconstruction loop, [iters] iterations to go.  Reading
    [best_k] when no candidate assigned it is undefined. *)
Fixpoint reconstruct (iters : nat) (n : nat) (opt : table F)
    (cost : nat → nat → F) (s : Z) (selected : list bool) (tour : list nat)
    : option (list nat) :=
  match iters with
  | 0 => Some tour
  | S iters' =>
      j ← last tour;
      best_k ← snd (best_candidate n opt cost s selected j);
      reconstruct iters' n opt cost (s - bit best_k)%Z
                  (<[best_k := true]> selected) (tour ++ [best_k])
  end.

Definition tsp (n : nat) (cost : nat → nat → F) : option (list nat) :=
  let nsub := (2 ^ Z.of_nat n)%Z in
  let opt := fill_table n cost in
  tour ← reconstruct (n - 1) n opt cost (nsub - 1)%Z
                     (<[0 := true]> (replicate n false)) [0];
  Some (tour ++ [0]).

(** [main]'s loop [total_cost += c[tour[i - 1]][tour[i % n]]] for
    [i = 1 .. n], in float arithmetic. *)
Definition total_cost (n : nat) (c : nat → nat → F) (tour : list nat) : F :=
  foldl (λ acc i, fadd acc (c (tour !!! (i - 1)) (tour !!! (i mod n))))
        fzero (seq 1 n).

End Algorithms.

(** A stable insertion sort: one function that meets [sorts] whenever [<]
    orders the costs at hand. *)
Section InsertionSort.
Context {F : Type} `{FloatOps F}.

Fixpoint insert_edge (e : Edge F) (l : list (Edge F)) : list (Edge F) :=
  match l with
  | [] => [e]
  | x :: l' => if flt (cost x) (cost e) then x :: insert_edge e l' else e :: l
  end.

Definition insertion_sort (l : list (Edge F)) : list (Edge F) :=
  foldr insert_edge [] l.
End InsertionSort.

Definition of_rows {F} `{FloatOps F} (rows : list (list F)) : nat → nat → F :=
  λ i j, default fzero (row ← rows !! i; row !! j).

(** The four-vertex graph of [main]. *)
Definition demo : nat → nat → spec_float :=
  of_rows (map (map binary32.of_Z)
    [[0; 1; 3; 2]; [1; 0; 2; 4]; [3; 2; 0; 3]; [2; 4; 3; 0]]%Z).


(** A metric on four vertices on which the nearest vertex is a bad last
    stop. *)
Definition trap : nat → nat → spec_float :=
  of_rows (map (map binary32.of_Z)
    [[0; 4; 5; 1]; [4; 0; 2; 5]; [5; 2; 0; 4]; [1; 5; 4; 0]]%Z).

(** Three vertices, the edge between [1] and [2] long. *)
Definition detour : nat → nat → spec_float :=
  of_rows (map (map binary32.of_Z) [[0; 1; 1]; [1; 0; 5]; [1; 5; 0]]%Z).

(** Two vertices at distance [FLT_MAX]. *)
Definition far_apart : nat → nat → spec_float :=
  of_rows [[fzero; FLT_MAX]; [FLT_MAX; fzero]].

(** Two vertices with no edge of finite cost between them. *)
Definition no_edge : nat → nat → spec_float :=
  of_rows [[fzero; binary32.infinity]; [binary32.infinity; fzero]].


(** * The forest invariant of [UnionFind] *)

(** [root_of p i r]: following the parent links of [p] from [i] ends in
    the self-loop [r]. *)
Inductive root_of (p : list nat) : nat → nat → Prop :=
  | root_self i : p !! i = Some i → root_of p i i
  | root_step i j r :
      p !! i = Some j → j ≠ i → root_of p j r → root_of p i r.

(** The same, counting the links followed. *)
Inductive root_at (p : list nat) : nat → nat → nat → Prop :=
  | root_at_O i : p !! i = Some i → root_at p i i 0
  | root_at_S i j r d :
      p !! i = Some j → j ≠ i → root_at p j r d → root_at p i r (S d).

Definition is_forest (uf : UnionFind) : Prop :=
  length (rank uf) = length (parent uf) ∧
  ∀ i, i < length (parent uf) → ∃ r, root_of (parent uf) i r.

(** Two structures over the same universe induce the same partition. *)
Definition same_partition (p p' : list nat) : Prop :=
  ∀ x r, root_of p x r ↔ root_of p' x r.

Section RootOf.
Implicit Types p : list nat.

Lemma root_of_at p i r : root_of p i r ↔ ∃ d, root_at p i r d.
Proof.
  split.
  - induction 1 as [i Hi|i j r Hi Hne _ [d IH]].
    + exists 0. by constructor.
    + exists (S d). by econstructor.
  - intros [d Hd]. induction Hd; [by constructor|by econstructor].
Qed.

Lemma root_at_det p i r r' d d' :
  root_at p i r d → root_at p i r' d' → r = r' ∧ d = d'.
Proof.
  intros H1. revert r' d'.
  induction H1 as [i Hi|i j r d Hi Hne _ IH]; intros r' d' H2.
  - inversion H2; simplify_eq; done.
  - inversion H2; simplify_eq.
    destruct (IH _ _ ltac:(eassumption)) as [-> ->]. done.
Qed.

Lemma root_of_det p i r r' : root_of p i r → root_of p i r' → r = r'.
Proof.
  rewrite !root_of_at. intros [d H1] [d' H2].
  by destruct (root_at_det _ _ _ _ _ _ H1 H2).
Qed.

Lemma root_of_lt p i r : root_of p i r → i < length p ∧ r < length p.
Proof.
  induction 1 as [i Hi|i j r Hi Hne _ [_ IH]].
  - apply lookup_lt_Some in Hi. lia.
  - apply lookup_lt_Some in Hi. lia.
Qed.

Lemma root_of_root p i r : root_of p i r → p !! r = Some r.
Proof. induction 1; done. Qed.

Lemma root_of_fix p r i : p !! r = Some r → root_of p r i → i = r.
Proof.
  intros Hr Hi. symmetry. eapply root_of_det; [|done]. by constructor.
Qed.

(** A list without repetition of numbers below [n] has at most [n]
    elements. *)
Lemma NoDup_below_length (l : list nat) n :
  NoDup l → (∀ x, x ∈ l → x < n) → length l ≤ n.
Proof.
  intros Hnd Hlt.
  assert (l ⊆+ seq 0 n) as Hsub.
  { apply NoDup_submseteq; [done|]. intros x Hx. apply elem_of_seq.
    specialize (Hlt x Hx). lia. }
  apply submseteq_length in Hsub. by rewrite length_seq in Hsub.
Qed.

(** The nodes on the way from [i] to its root are pairwise distinct, so
    the way has fewer links than the universe has elements. *)
Lemma root_at_chain p i r d :
  root_at p i r d →
  ∃ l : list nat, NoDup l ∧ length l = S d ∧
    ∀ x, x ∈ l → ∃ d', d' ≤ d ∧ root_at p x r d'.
Proof.
  induction 1 as [i Hi|i j r d Hi Hne Hj (l & Hnd & Hlen & Hl)].
  - exists [i]. split_and!; [apply NoDup_singleton|done|].
    intros x ->%list_elem_of_singleton. exists 0. split; [lia|by constructor].
  - exists (i :: l). split_and!.
    + constructor; [|done]. intros (d' & Hd' & Hx)%Hl.
      assert (root_at p i r (S d)) as Hi' by by econstructor.
      destruct (root_at_det _ _ _ _ _ _ Hx Hi'). lia.
    + simpl. by rewrite Hlen.
    + intros x [->|Hx]%elem_of_cons.
      * exists (S d). split; [lia|by econstructor].
      * destruct (Hl x Hx) as (d' & ? & ?). exists d'. split; [lia|done].
Qed.

Lemma root_at_bound p i r d : root_at p i r d → d < length p.
Proof.
  intros (l & Hnd & Hlen & Hl)%root_at_chain.
  assert (length l ≤ length p); [|lia].
  apply NoDup_below_length; [done|].
  intros x (d' & _ & Hx)%Hl.
  assert (root_of p x r) as Hr by (apply root_of_at; eauto).
  by apply root_of_lt in Hr as [? _].
Qed.

(** Path compression: re-pointing [i] at its own root moves no element
    to another root. *)
Lemma root_of_compress p i r x rx :
  root_of p i r → root_of p x rx → root_of (<[i := r]> p) x rx.
Proof.
  intros Hi. induction 1 as [x Hx|x j rx Hx Hne Hj IH].
  - destruct (decide (x = i)) as [->|Hxi].
    + rewrite (root_of_fix _ _ _ Hx Hi). rewrite list_insert_id; [|done].
      by constructor.
    + constructor. by rewrite list_lookup_insert_ne.
  - destruct (decide (x = i)) as [->|Hxi].
    + assert (rx = r) as ->.
      { eapply root_of_det; [|done]. by econstructor. }
      assert (r ≠ i) as Hri.
      { intros ->. apply root_of_root in Hi. congruence. }
      pose proof (root_of_lt _ _ _ Hi) as [? ?].
      eapply root_step; [by apply list_lookup_insert_eq|done|].
      constructor. rewrite list_lookup_insert_ne; [|done].
      by eapply root_of_root.
    + eapply root_step; [|done|done]. by rewrite list_lookup_insert_ne.
Qed.

(** Linking the root [a] below the root [b] moves exactly the elements
    of [a]'s tree, and moves them to [b]. *)
Lemma root_of_link p a b x rx :
  p !! a = Some a → p !! b = Some b → root_of p x rx →
  root_of (<[a := b]> p) x (if decide (rx = a) then b else rx).
Proof.
  intros Ha Hb. induction 1 as [x Hx|x j rx Hx Hne Hj IH].
  - destruct (decide (x = a)) as [->|Hxa].
    + destruct (decide (a = b)) as [->|Hab].
      * rewrite list_insert_id; [|done]. by constructor.
      * apply lookup_lt_Some in Ha as ?.
        eapply root_step; [by apply list_lookup_insert_eq|done|].
        constructor. by rewrite list_lookup_insert_ne.
    + constructor. by rewrite list_lookup_insert_ne.
  - eapply root_step; [|done|done].
    rewrite list_lookup_insert_ne; [done|]. intros ->. congruence.
Qed.

(** A map of roots that is total on the universe determines the new
    partition. *)
Lemma same_partition_of_forward p p' :
  length p' = length p →
  (∀ i, i < length p → ∃ r, root_of p i r) →
  (∀ x r, root_of p x r → root_of p' x r) → same_partition p p'.
Proof.
  intros Hlen Hall Hfw x r. split; [apply Hfw|]. intros Hx.
  pose proof (root_of_lt _ _ _ Hx) as [Hlt _]. rewrite Hlen in Hlt.
  destruct (Hall x Hlt) as [r' Hr']. specialize (Hfw _ _ Hr').
  by rewrite (root_of_det _ _ _ _ Hx Hfw).
Qed.

End RootOf.

(** ** [find_set] *)

Lemma find_set_fuel_spec fuel uf i r d :
  root_at (parent uf) i r d → d < fuel →
  ∃ uf', UF.find_set_fuel fuel uf i = Some (uf', r) ∧
    rank uf' = rank uf ∧
    length (parent uf') = length (parent uf) ∧
    ∀ x rx, root_of (parent uf) x rx → root_of (parent uf') x rx.
Proof.
  intros Hr. revert fuel.
  induction Hr as [i Hi|i j r d Hi Hne Hj IH]; intros [|fuel] Hfuel; try lia.
  - exists uf. simpl. rewrite Hi. simpl. rewrite decide_False; [|naive_solver].
    done.
  - destruct (IH fuel ltac:(lia)) as (uf' & Hfs & Hrank & Hlen & Hfw).
    exists (mkUF (<[i := r]> (parent uf')) (rank uf')).
    assert (root_of (parent uf') i r) as Hir.
    { apply Hfw. eapply root_step; [done..|]. apply root_of_at; eauto. }
    pose proof (root_of_lt _ _ _ Hir) as [? ?].
    simpl. rewrite Hi. simpl. rewrite decide_True; [|done].
    rewrite Hfs. simpl. rewrite list_lookup_insert_eq; [|done]. simpl.
    split_and!; [done|done|by rewrite length_insert|].
    intros x rx Hx. apply root_of_compress; [done|]. by apply Hfw.
Qed.

Lemma find_set_spec uf i :
  is_forest uf → i < length (parent uf) →
  ∃ uf' r, UF.find_set uf i = Some (uf', r) ∧
    root_of (parent uf) i r ∧
    rank uf' = rank uf ∧
    length (parent uf') = length (parent uf) ∧
    is_forest uf' ∧
    same_partition (parent uf) (parent uf').
Proof.
  intros [Hrk Hall] Hi. destruct (Hall i Hi) as [r Hr].
  pose proof Hr as [d Hd]%root_of_at.
  pose proof (root_at_bound _ _ _ _ Hd) as Hb.
  destruct (find_set_fuel_spec _ uf i r d Hd Hb) as (uf' & Hfs & Hrank & Hlen & Hfw).
  exists uf', r. split_and!; try done.
  - split; [congruence|]. intros x Hx. rewrite Hlen in Hx.
    destruct (Hall x Hx) as [rx Hrx]. exists rx. by apply Hfw.
  - by apply same_partition_of_forward.
Qed.

(** ** [join] *)

Lemma join_spec uf i j :
  is_forest uf → i < length (parent uf) → j < length (parent uf) →
  ∃ uf' ri rj rn, UF.join uf i j = Some uf' ∧
    root_of (parent uf) i ri ∧ root_of (parent uf) j rj ∧
    (rn = ri ∨ rn = rj) ∧
    length (parent uf') = length (parent uf) ∧
    is_forest uf' ∧
    ∀ x rx, root_of (parent uf) x rx →
      root_of (parent uf') x (if decide (rx = ri ∨ rx = rj) then rn else rx).
Proof.
  intros Hf Hi Hj.
  destruct (find_set_spec uf i Hf Hi) as (uf1 & ri & Hfs1 & Hri & Hrk1 & Hlen1 & Hf1 & Hp1).
  rewrite <-Hlen1 in Hj.
  destruct (find_set_spec uf1 j Hf1 Hj) as (uf2 & rj & Hfs2 & Hrj & Hrk2 & Hlen2 & Hf2 & Hp2).
  assert (same_partition (parent uf) (parent uf2)) as Hp.
  { intros x r. by rewrite (Hp1 x r), (Hp2 x r). }
  assert (root_of (parent uf2) i ri) as Hri2 by by apply Hp.
  assert (root_of (parent uf2) j rj) as Hrj2 by by apply Hp2.
  pose proof (root_of_lt _ _ _ Hri2) as [_ Hlti].
  pose proof (root_of_lt _ _ _ Hrj2) as [_ Hltj].
  pose proof (root_of_root _ _ _ Hri2) as Hrooti.
  pose proof (root_of_root _ _ _ Hrj2) as Hrootj.
  destruct Hf2 as [Hrk Hall].
  destruct (lookup_lt_is_Some_2 (rank uf2) ri ltac:(lia)) as [ki Hki].
  destruct (lookup_lt_is_Some_2 (rank uf2) rj ltac:(lia)) as [kj Hkj].
  assert (∀ a b rn p', rn = b → p' = <[a := b]> (parent uf2) →
            parent uf2 !! a = Some a → parent uf2 !! b = Some b →
            (a = ri ∧ b = rj ∨ a = rj ∧ b = ri) →
            (∀ i, i < length p' → ∃ r, root_of p' i r) ∧
            ∀ x rx, root_of (parent uf) x rx →
              root_of p' x (if decide (rx = ri ∨ rx = rj) then rn else rx))
    as Hlink.
  { intros a b rn p' -> -> Ha Hb Hab.
    assert (∀ x rx, root_of (parent uf) x rx →
              root_of (<[a:=b]> (parent uf2)) x
                      (if decide (rx = ri ∨ rx = rj) then b else rx)) as Hfw.
    { intros x rx Hx%Hp.
      pose proof (root_of_link _ a b _ _ Ha Hb Hx) as Hl.
      destruct (decide (rx = a)) as [->|Hna].
      - rewrite decide_True; [done|]. destruct Hab as [[-> _]|[-> _]]; auto.
      - destruct (decide (rx = b)) as [->|Hnb].
        + rewrite decide_True; [done|]. destruct Hab as [[_ ->]|[_ ->]]; auto.
        + rewrite decide_False; [done|].
          destruct Hab as [[-> ->]|[-> ->]]; intros [?|?]; done. }
    split; [|done]. intros x Hx. rewrite length_insert in Hx.
    destruct (Hall x Hx) as [rx Hrx%Hp]. eauto. }
  unfold UF.join. rewrite Hfs1. simpl. rewrite Hfs2. simpl.
  rewrite Hki, Hkj. simpl.
  destruct (decide (kj < ki)).
  - destruct (Hlink rj ri ri _ eq_refl eq_refl Hrootj Hrooti ltac:(auto)) as [Hall' Hfw'].
    eexists _, ri, rj, ri. split; [done|]. simpl.
    split_and!; try done; [by apply Hp1|by auto|..].
    + rewrite length_insert. congruence.
    + split; simpl; [rewrite length_insert; congruence|done].
  - destruct (Hlink ri rj rj _ eq_refl eq_refl Hrooti Hrootj ltac:(auto)) as [Hall' Hfw'].
    destruct (decide (ki = kj)).
    + eexists _, ri, rj, rj. split; [done|]. simpl.
      split_and!; try done; [by apply Hp1|by auto|..].
      * rewrite length_insert. congruence.
      * split; simpl; [rewrite !length_insert; congruence|done].
    + eexists _, ri, rj, rj. split; [done|]. simpl.
      split_and!; try done; [by apply Hp1|by auto|..].
      * rewrite length_insert. congruence.
      * split; simpl; [rewrite !length_insert; congruence|done].
Qed.

(** [join] on two elements of one set changes no root. *)
Lemma join_same_set uf i j r :
  is_forest uf →
  root_of (parent uf) i r → root_of (parent uf) j r →
  ∃ uf', UF.join uf i j = Some uf' ∧ is_forest uf' ∧
         length (parent uf') = length (parent uf) ∧
         same_partition (parent uf) (parent uf').
Proof.
  intros Hf Hi Hj.
  pose proof (root_of_lt _ _ _ Hi) as [Hlti _].
  pose proof (root_of_lt _ _ _ Hj) as [Hltj _].
  destruct (join_spec uf i j Hf Hlti Hltj)
    as (uf' & ri & rj & rn & Hjoin & Hri & Hrj & Hrn & Hlen & Hf' & Hfw).
  rewrite (root_of_det _ _ _ _ Hri Hi) in *.
  rewrite (root_of_det _ _ _ _ Hrj Hj) in *.
  assert (rn = r) as -> by (by destruct Hrn).
  exists uf'. split_and!; try done.
  apply same_partition_of_forward; [done|apply Hf|].
  intros x rx Hx. specialize (Hfw x rx Hx).
  case_decide as Hd; [by destruct Hd as [->| ->]|done].
Qed.

(** ** [make_set] and the constructor *)

Lemma make_set_spec uf i :
  is_forest uf → i < length (parent uf) →
  ∃ uf', UF.make_set uf i = Some uf' ∧ is_forest uf' ∧
         length (parent uf') = length (parent uf) ∧
         root_of (parent uf') i i.
Proof.
  intros [Hrk Hall] Hi. unfold UF.make_set.
  rewrite decide_True; [|split; lia].
  eexists. split; [done|]. simpl.
  assert (root_of (<[i:=i]> (parent uf)) i i) as Hii.
  { constructor. by apply list_lookup_insert_eq. }
  split_and!; [|by rewrite length_insert|done].
  split; simpl; [by rewrite !length_insert|].
  intros x Hx. rewrite length_insert in Hx.
  destruct (Hall x Hx) as [r Hr]. clear Hx.
  induction Hr as [x Hx|x j r Hx Hne Hj [r' IH]].
  - destruct (decide (x = i)) as [->|]; [eauto|].
    exists x. constructor. by rewrite list_lookup_insert_ne.
  - destruct (decide (x = i)) as [->|]; [eauto|].
    exists r'. eapply root_step; [|done..]. by rewrite list_lookup_insert_ne.
Qed.

(** The loop of [make_set] over a prefix of the universe. *)
Lemma init_loop n k p rk :
  k ≤ n → length p = n → length rk = n →
  ∃ uf, foldl (λ acc i, uf ← acc; UF.make_set uf i) (Some (mkUF p rk)) (seq 0 k)
        = Some uf ∧
    length (parent uf) = n ∧ length (rank uf) = n ∧
    (∀ i, i < k → parent uf !! i = Some i) ∧
    (∀ i, k ≤ i → parent uf !! i = p !! i).
Proof.
  intros Hk Hp Hrk. induction k as [|k IH].
  - exists (mkUF p rk). simpl. split_and!; try done. intros; lia.
  - destruct (IH ltac:(lia)) as (uf & Hfold & Hlp & Hlr & Hlow & Hhigh).
    rewrite seq_S, foldl_app. simpl. rewrite Hfold. simpl.
    unfold UF.make_set. rewrite decide_True; [|split; lia].
    eexists. split; [done|]. simpl. rewrite !length_insert.
    split_and!; try done.
    + intros i Hi. destruct (decide (i = k)) as [->|].
      * apply list_lookup_insert_eq. lia.
      * rewrite list_lookup_insert_ne; [|done]. apply Hlow. lia.
    + intros i Hi. rewrite list_lookup_insert_ne; [|lia]. apply Hhigh. lia.
Qed.

Lemma init_spec n :
  ∃ uf, UF.init n = Some uf ∧ is_forest uf ∧ length (parent uf) = n ∧
        ∀ i, i < n → root_of (parent uf) i i.
Proof.
  destruct (init_loop n n (replicate n 0) (replicate n 0))
    as (uf & Hfold & Hlp & Hlr & Hlow & _);
    [done|by rewrite length_replicate..|].
  exists uf. split_and!; try done.
  - split; [congruence|]. intros i Hi. exists i. constructor. apply Hlow. lia.
  - intros i Hi. constructor. by apply Hlow.
Qed.


(** * Undirected graphs given by a list of edges *)

Definition adjacent (E : list (nat * nat)) (u v : nat) : Prop :=
  (u, v) ∈ E ∨ (v, u) ∈ E.

Definition connected (E : list (nat * nat)) : nat → nat → Prop :=
  rtc (adjacent E).

(** No edge closes a cycle: its end points are not connected by the
    other edges. *)
Definition acyclic (E : list (nat * nat)) : Prop :=
  ∀ l1 u v l2, E = l1 ++ (u, v) :: l2 → ¬ connected (l1 ++ l2) u v.

Definition within (n : nat) (E : list (nat * nat)) : Prop :=
  ∀ u v, (u, v) ∈ E → u < n ∧ v < n.

Definition spans (n : nat) (E : list (nat * nat)) : Prop :=
  ∀ u v, u < n → v < n → connected E u v.

Definition spanning_tree (n : nat) (E : list (nat * nat)) : Prop :=
  within n E ∧ acyclic E ∧ spans n E.

(** Each edge joins two components of the edges after it in the list. *)
Fixpoint seq_acyclic (E : list (nat * nat)) : Prop :=
  match E with
  | [] => True
  | (a, b) :: E' => ¬ connected E' a b ∧ seq_acyclic E'
  end.

(** A component label for every vertex, computed edge by edge. *)
Fixpoint label (E : list (nat * nat)) (x : nat) : nat :=
  match E with
  | [] => x
  | (a, b) :: E' =>
      if decide (label E' x = label E' b) then label E' a else label E' x
  end.

(** The number of components among the vertices below [n]. *)
Definition classes (n : nat) (E : list (nat * nat)) : nat :=
  length (remove_dups (label E <$> seq 0 n)).

Section Connected.
Implicit Types E : list (nat * nat).

Lemma adjacent_sym E u v : adjacent E u v → adjacent E v u.
Proof. unfold adjacent. tauto. Qed.

Lemma connected_refl E u : connected E u u.
Proof. apply rtc_refl. Qed.

Lemma connected_trans E u v w :
  connected E u v → connected E v w → connected E u w.
Proof. apply rtc_trans. Qed.

Lemma connected_sym E u v : connected E u v → connected E v u.
Proof.
  induction 1 as [|u v w Huv _ IH]; [apply rtc_refl|].
  eapply rtc_r; [done|]. by apply adjacent_sym.
Qed.

Lemma connected_edge E u v : (u, v) ∈ E → connected E u v.
Proof. intros. apply rtc_once. by left. Qed.

Lemma connected_mono E E' u v :
  (∀ e, e ∈ E → e ∈ E') → connected E u v → connected E' u v.
Proof.
  intros Hsub. induction 1 as [|u v w Huv _ IH]; [apply rtc_refl|].
  eapply rtc_l; [|done]. destruct Huv; [left|right]; auto.
Qed.

Lemma connected_closure E (P : nat → nat → Prop) :
  (∀ x, P x x) → (∀ x y z, P x y → P y z → P x z) → (∀ x y, P x y → P y x) →
  (∀ u v, (u, v) ∈ E → P u v) →
  ∀ u v, connected E u v → P u v.
Proof.
  intros Hr Ht Hs He u v. induction 1 as [|u v w [Huv|Huv] _ IH]; eauto.
Qed.

Lemma connected_cons_inv a b E x y :
  connected ((a, b) :: E) x y →
  connected E x y ∨ (connected E x a ∧ connected E b y)
                  ∨ (connected E x b ∧ connected E a y).
Proof.
  induction 1 as [x|x x' y Hstep _ IH]; [left; apply rtc_refl|].
  assert (adjacent E x x' ∨ (x = a ∧ x' = b) ∨ (x = b ∧ x' = a)) as Hcase.
  { destruct Hstep as [[?|?]%elem_of_cons|[?|?]%elem_of_cons].
    - simplify_eq. auto.
    - left. by left.
    - simplify_eq. auto.
    - left. by right. }
  destruct Hcase as [Hadj|[[-> ->]|[-> ->]]].
  - destruct IH as [?|[[? ?]|[? ?]]].
    + left. by eapply rtc_l.
    + right; left. split; [by eapply rtc_l|done].
    + right; right. split; [by eapply rtc_l|done].
  - destruct IH as [?|[[? ?]|[? ?]]].
    + right; left. split; [apply rtc_refl|done].
    + right; left. split; [apply rtc_refl|done].
    + by left.
  - destruct IH as [?|[[? ?]|[? ?]]].
    + right; right. split; [apply rtc_refl|done].
    + by left.
    + right; right. split; [apply rtc_refl|done].
Qed.

Lemma connected_cons a b E x y :
  connected ((a, b) :: E) x y ↔
  connected E x y ∨ (connected E x a ∧ connected E b y)
                  ∨ (connected E x b ∧ connected E a y).
Proof.
  split; [apply connected_cons_inv|].
  assert (∀ u v, connected E u v → connected ((a, b) :: E) u v) as Hm.
  { intros u v. apply connected_mono. intros e. set_solver. }
  assert (connected ((a, b) :: E) a b) as Hab.
  { apply connected_edge. set_solver. }
  intros [?|[[? ?]|[? ?]]]; [by apply Hm|..].
  - eapply connected_trans; [by apply Hm|].
    eapply connected_trans; [exact Hab|by apply Hm].
  - eapply connected_trans; [by apply Hm|].
    eapply connected_trans; [apply connected_sym, Hab|by apply Hm].
Qed.

Lemma connected_cons_same a b E x y :
  connected E a b → connected ((a, b) :: E) x y ↔ connected E x y.
Proof.
  intros Hab. rewrite connected_cons. split; [|auto].
  intros [?|[[? ?]|[? ?]]]; [done|..].
  - eapply connected_trans; [done|]. by eapply connected_trans; [exact Hab|].
  - eapply connected_trans; [done|].
    by eapply connected_trans; [exact (connected_sym _ _ _ Hab)|].
Qed.

Lemma connected_label E x y : connected E x y ↔ label E x = label E y.
Proof.
  revert x y. induction E as [|[a b] E IH]; intros x y.
  - simpl. split; [|intros ->; apply rtc_refl].
    induction 1 as [|x x' y [Hs|Hs] _ _]; [done|by inversion Hs..].
  - rewrite connected_cons, !IH. simpl.
    repeat case_decide; split; try intros [?|[[? ?]|[? ?]]]; try congruence;
      intros; first [left; congruence|right; left; split; congruence
                    |right; right; split; congruence].
Qed.

#[global] Instance connected_dec E x y : Decision (connected E x y).
Proof.
  refine (cast_if (decide (label E x = label E y)));
    abstract (by rewrite connected_label).
Defined.

End Connected.

(** ** Counting components *)

Section Counting.
Implicit Types E : list (nat * nat).

Lemma remove_dups_fmap_length {A B} `{EqDecision A, EqDecision B}
    (f : A → B) (l : list A) :
  length (remove_dups (f <$> l)) ≤ length (remove_dups l).
Proof.
  rewrite <-(length_fmap f (remove_dups l)).
  apply submseteq_length, NoDup_submseteq; [apply NoDup_remove_dups|].
  intros y [x [-> Hx]]%elem_of_remove_dups%list_elem_of_fmap.
  apply list_elem_of_fmap_2. by apply elem_of_remove_dups.
Qed.

(** A coarser labelling has at most as many labels. *)
Lemma remove_dups_coarser {A B} `{EqDecision A, EqDecision B}
    (f : nat → A) (g : nat → B) (s : list nat) :
  (∀ x y, x ∈ s → y ∈ s → f x = f y → g x = g y) →
  length (remove_dups (g <$> s)) ≤ length (remove_dups (f <$> s)).
Proof.
  intros Hfg.
  set (h := λ v : A, from_option (λ ix, g ix.2) (g 0)
                       (list_find (λ x, f x = v) s)).
  assert (g <$> s = h <$> (f <$> s)) as ->.
  { rewrite <-list_fmap_compose. apply list_fmap_ext. intros i x Hix.
    unfold h, compose.
    destruct (list_find (λ x0, f x0 = f x) s) as [[k x0]|] eqn:Hfind.
    - apply list_find_Some in Hfind as (Hk & Hf & _). simpl.
      apply Hfg; [by eapply list_elem_of_lookup_2..|done].
    - apply list_find_None in Hfind.
      rewrite Forall_forall in Hfind.
      exfalso. by eapply Hfind; [eapply list_elem_of_lookup_2|]. }
  apply remove_dups_fmap_length.
Qed.

Lemma NoDup_remove_one (M : list nat) b :
  NoDup M → b ∈ M → S (length (filter (λ x, x ≠ b) M)) = length M.
Proof.
  intros Hnd Hb.
  assert (M ≡ₚ b :: filter (λ x, x ≠ b) M) as Hp.
  { apply NoDup_Permutation; [done|..].
    - constructor; [|by apply NoDup_filter].
      rewrite list_elem_of_filter. by intros [? _].
    - intros x. rewrite elem_of_cons, list_elem_of_filter.
      destruct (decide (x = b)) as [->|]; [by split; auto|].
      split; [auto|]. by intros [?|[_ ?]]. }
  by rewrite Hp at 2.
Qed.

(** Merging the label [b] into the label [a] removes one label. *)
Lemma remove_dups_merge (a b : nat) (l : list nat) :
  a ∈ l → b ∈ l → a ≠ b →
  S (length (remove_dups ((λ x, if decide (x = b) then a else x) <$> l)))
  = length (remove_dups l).
Proof.
  intros Ha Hb Hab.
  rewrite <-(NoDup_remove_one (remove_dups l) b);
    [|apply NoDup_remove_dups|by apply elem_of_remove_dups].
  f_equal. apply Permutation_length, NoDup_Permutation.
  - apply NoDup_remove_dups.
  - apply NoDup_filter, NoDup_remove_dups.
  - intros x. rewrite elem_of_remove_dups, list_elem_of_filter,
      elem_of_remove_dups, list_elem_of_fmap. split.
    + intros (y & -> & Hy). case_decide; subst; done.
    + intros [Hx ?]. exists x. by rewrite decide_False.
Qed.

Lemma classes_nil n : classes n [] = n.
Proof.
  unfold classes.
  assert (label [] <$> seq 0 n = seq 0 n) as ->.
  { etrans; [by apply (list_fmap_ext _ id)|apply list_fmap_id]. }
  trans (length (seq 0 n)); [|apply length_seq].
  apply Permutation_length, NoDup_Permutation;
    [apply NoDup_remove_dups|apply NoDup_seq|].
  intros x. apply elem_of_remove_dups.
Qed.

Lemma classes_mono n E E' :
  (∀ x y, x < n → y < n → connected E x y → connected E' x y) →
  classes n E' ≤ classes n E.
Proof.
  intros Hsub. apply remove_dups_coarser.
  intros x y [_ ?]%elem_of_seq [_ ?]%elem_of_seq.
  rewrite <-!connected_label. apply Hsub; lia.
Qed.

Lemma classes_ext n E E' :
  (∀ x y, x < n → y < n → connected E x y ↔ connected E' x y) →
  classes n E = classes n E'.
Proof.
  intros Heq. apply Nat.le_antisymm; apply classes_mono; intros; by apply Heq.
Qed.

Lemma classes_cons_connected n a b E :
  connected E a b → classes n ((a, b) :: E) = classes n E.
Proof.
  intros Hab. apply classes_ext. intros x y _ _.
  by apply connected_cons_same.
Qed.

Lemma classes_cons_fresh n a b E :
  a < n → b < n → ¬ connected E a b →
  S (classes n ((a, b) :: E)) = classes n E.
Proof.
  intros Ha Hb Hab. unfold classes.
  assert (label ((a, b) :: E) <$> seq 0 n
          = (λ x, if decide (x = label E b) then label E a else x)
              <$> (label E <$> seq 0 n)) as ->.
  { rewrite <-list_fmap_compose. by apply list_fmap_ext. }
  apply remove_dups_merge.
  - apply list_elem_of_fmap_2, elem_of_seq. lia.
  - apply list_elem_of_fmap_2, elem_of_seq. lia.
  - by rewrite <-connected_label.
Qed.

Lemma within_cons n a b E :
  within n ((a, b) :: E) ↔ (a < n ∧ b < n) ∧ within n E.
Proof.
  unfold within. split.
  - intros Hw. split; [apply Hw; set_solver|]. intros u v ?. apply Hw.
    set_solver.
  - intros [Hab Hw] u v [?|?]%elem_of_cons; [by simplify_eq|by apply Hw].
Qed.

(** Every edge lowers the number of components by at most one, and by
    one exactly when it closes no cycle. *)
Lemma classes_length n E :
  within n E → n ≤ classes n E + length E.
Proof.
  induction E as [|[a b] E IH]; intros Hw.
  - rewrite classes_nil. simpl. lia.
  - apply within_cons in Hw as [[Ha Hb] Hw]. specialize (IH Hw). simpl.
    destruct (decide (connected E a b)) as [Hc|Hc].
    + rewrite classes_cons_connected; [lia|done].
    + pose proof (classes_cons_fresh n a b E Ha Hb Hc). lia.
Qed.

Lemma classes_seq_acyclic n E :
  within n E → seq_acyclic E ↔ classes n E + length E = n.
Proof.
  induction E as [|[a b] E IH]; intros Hw.
  - rewrite classes_nil. simpl. split; [lia|done].
  - apply within_cons in Hw as [[Ha Hb] Hw]. specialize (IH Hw). simpl.
    pose proof (classes_length n E Hw) as Hge.
    destruct (decide (connected E a b)) as [Hc|Hc].
    + rewrite classes_cons_connected; [|done]. split; [tauto|lia].
    + pose proof (classes_cons_fresh n a b E Ha Hb Hc). rewrite IH.
      split; [intros [_ ?]; lia|intros; split; [done|lia]].
Qed.

Lemma classes_pos n E : 0 < n → 0 < classes n E.
Proof.
  intros Hn. unfold classes.
  destruct (remove_dups (label E <$> seq 0 n)) as [|x l] eqn:Heq;
    [|simpl; lia].
  assert (label E 0 ∈ remove_dups (label E <$> seq 0 n)) as Hin.
  { apply elem_of_remove_dups, list_elem_of_fmap_2, elem_of_seq. lia. }
  rewrite Heq in Hin. by apply not_elem_of_nil in Hin.
Qed.

Lemma classes_one_spans n E : classes n E = 1 ↔ 0 < n ∧ spans n E.
Proof.
  unfold classes, spans. split.
  - intros Hone. split.
    { destruct n; [|lia]. done. }
    intros u v Hu Hv. apply connected_label.
    destruct (remove_dups (label E <$> seq 0 n)) as [|x [|??]] eqn:Heq;
      simplify_eq/=.
    assert (∀ w, w < n → label E w = x) as Hall.
    { intros w Hw.
      assert (label E w ∈ remove_dups (label E <$> seq 0 n)) as Hin.
      { apply elem_of_remove_dups, list_elem_of_fmap_2, elem_of_seq. lia. }
      rewrite Heq in Hin. by apply list_elem_of_singleton in Hin. }
    by rewrite !Hall.
  - intros [Hn Hsp]. apply Nat.le_antisymm; [|by apply (classes_pos n E)].
    change 1 with (length [label E 0]).
    apply submseteq_length, NoDup_submseteq; [apply NoDup_remove_dups|].
    intros x [w [-> [_ Hw]%elem_of_seq]]%elem_of_remove_dups%list_elem_of_fmap.
    apply list_elem_of_singleton, connected_label, Hsp; lia.
Qed.

(** The rank property: a forest inside the components of [K] has no
    more edges than [K]. *)
Lemma forest_size_le n F K :
  within n F → within n K → seq_acyclic F →
  (∀ u v, (u, v) ∈ F → connected K u v) →
  length F ≤ length K.
Proof.
  intros HwF HwK HF Hsub.
  apply (classes_seq_acyclic n F HwF) in HF.
  pose proof (classes_length n K HwK).
  assert (classes n K ≤ classes n F); [|lia].
  apply classes_mono. intros x y _ _.
  apply connected_closure; eauto using connected_refl, connected_trans,
    connected_sym.
Qed.

Lemma seq_acyclic_filter (P : nat * nat → Prop) `{∀ e, Decision (P e)} E :
  seq_acyclic E → seq_acyclic (filter P E).
Proof.
  induction E as [|[a b] E IH]; [done|]. intros [Hab HE].
  rewrite filter_cons. case_decide; [|by apply IH]. split; [|by apply IH].
  intros Hc. apply Hab. eapply connected_mono; [|done].
  intros e. rewrite list_elem_of_filter. tauto.
Qed.

Lemma acyclic_seq_acyclic E : acyclic E → seq_acyclic E.
Proof.
  induction E as [|[a b] E IH]; [done|]. intros Hac. split.
  - apply (Hac [] a b E). done.
  - apply IH. intros l1 u v l2 -> Hc. apply (Hac ((a, b) :: l1) u v l2); [done|].
    eapply connected_mono; [|done]. intros e. set_solver.
Qed.

Lemma seq_acyclic_acyclic n E : within n E → seq_acyclic E → acyclic E.
Proof.
  intros Hw Hs l1 u v l2 -> Hc.
  apply (classes_seq_acyclic n _ Hw) in Hs.
  assert (within n (l1 ++ l2)) as Hw'.
  { intros a b Hab. apply Hw. set_solver. }
  pose proof (classes_length n _ Hw') as Hge.
  assert (classes n (l1 ++ (u, v) :: l2) = classes n (l1 ++ l2)) as Heq.
  { rewrite <-(classes_cons_connected n u v (l1 ++ l2) Hc).
    apply classes_ext. intros x y _ _.
    split; apply connected_mono; intros e; set_solver. }
  rewrite Heq in Hs. rewrite !length_app in *. simpl in *. lia.
Qed.

(** A tree on [n] vertices has [n - 1] edges. *)
Lemma spanning_tree_length n E : 0 < n → spanning_tree n E → length E = n - 1.
Proof.
  intros Hn (Hw & Hac & Hsp).
  apply acyclic_seq_acyclic, (classes_seq_acyclic n E Hw) in Hac.
  assert (classes n E = 1) by by apply classes_one_spans. lia.
Qed.

(** Conversely [n - 1] edges without a cycle connect everything. *)
Lemma seq_acyclic_full_spans n E :
  0 < n → within n E → seq_acyclic E → length E = n - 1 → spans n E.
Proof.
  intros Hn Hw Hs Hlen. apply (classes_seq_acyclic n E Hw) in Hs.
  apply (classes_one_spans n E). lia.
Qed.

End Counting.


(** * Kruskal's scan *)

Lemma connected_nil x y : connected [] x y → x = y.
Proof.
  induction 1 as [|x x' y [Hs|Hs] _ _]; [done|by inversion Hs..].
Qed.

Lemma connected_equiv E E' x y :
  (∀ e, e ∈ E ↔ e ∈ E') → connected E x y ↔ connected E' x y.
Proof. intros Heq. split; apply connected_mono; intros e; apply Heq. Qed.

Lemma connected_snoc E a b x y :
  connected (E ++ [(a, b)]) x y ↔ connected ((a, b) :: E) x y.
Proof. apply connected_equiv. intros e. set_solver. Qed.

Lemma classes_snoc n E a b :
  classes n (E ++ [(a, b)]) = classes n ((a, b) :: E).
Proof. apply classes_ext. intros x y _ _. apply connected_snoc. Qed.

(** The counting form of acyclicity does not depend on the order of the
    edges. *)
Lemma classes_acyclic n E :
  within n E → classes n E + length E = n → acyclic E.
Proof.
  intros Hw Hs l1 u v l2 -> Hc.
  assert (within n (l1 ++ l2)) as Hw'.
  { intros a b Hab. apply Hw. set_solver. }
  pose proof (classes_length n _ Hw') as Hge.
  assert (classes n (l1 ++ (u, v) :: l2) = classes n (l1 ++ l2)) as Heq.
  { rewrite <-(classes_cons_connected n u v (l1 ++ l2) Hc).
    apply classes_ext. intros x y _ _.
    apply connected_equiv. intros e. set_solver. }
  rewrite Heq in Hs. rewrite !length_app in *. simpl in *. lia.
Qed.

Section AllEdges.
Context {F : Type} `{FloatOps F}.
Implicit Types (cost : nat → nat → F) (e : Edge F).

Lemma elem_of_all_edges n cost e :
  e ∈ all_edges n cost ↔ ∃ i j, i < j ∧ j < n ∧ e = mkEdge i j (cost i j).
Proof.
  unfold all_edges. rewrite list_elem_of_bind. split.
  - intros (i & Hj & [_ Hi]%elem_of_seq).
    apply list_elem_of_bind in Hj as (j & ->%list_elem_of_singleton & [? ?]%elem_of_seq).
    exists i, j. split_and!; [lia..|done].
  - intros (i & j & Hij & Hj & ->). exists i. split; [|apply elem_of_seq; lia].
    apply list_elem_of_bind. exists j.
    split; [by apply list_elem_of_singleton|apply elem_of_seq; lia].
Qed.

Lemma all_edges_within n cost (l : list (Edge F)) :
  (∀ e, e ∈ l → e ∈ all_edges n cost) → within n (ends <$> l).
Proof.
  intros Hl u v (e & Heq & He)%list_elem_of_fmap.
  apply Hl, elem_of_all_edges in He as (i & j & ? & ? & ->).
  unfold ends in Heq. simplify_eq/=. lia.
Qed.

(** The edges of the complete graph connect whatever connects their end
    points. *)
Lemma all_edges_spans n cost E :
  (∀ e, e ∈ all_edges n cost → connected E (head e) (tail e)) → spans n E.
Proof.
  intros Hall u v Hu Hv.
  destruct (Nat.lt_total u v) as [Huv|[->|Hvu]]; [|apply connected_refl|].
  - apply (Hall (mkEdge u v (cost u v))), elem_of_all_edges. eauto.
  - apply connected_sym.
    apply (Hall (mkEdge v u (cost v u))), elem_of_all_edges. eauto.
Qed.

End AllEdges.

Section Kruskal.
Context {F : Type} `{FloatOps F}.
Variables (n : nat) (cost : nat → nat → F).

(** [L] is the edge list after [std::sort]; [le] is any relation that the
    order of [L] respects (the trivial one when only the shape of the
    result matters). *)
Variable L : list (Edge F).
Hypothesis HL : L ≡ₚ all_edges n cost.
Variable le : Edge F → Edge F → Prop.
Context `{∀ a b, Decision (le a b)}.
Hypothesis Hle :
  ∀ i j a b, i ≤ j → L !! i = Some a → L !! j = Some b → le a b.

(** The tree edges that do not come after [e]. *)
Definition below (e : Edge F) (tree : list (Edge F)) : list (nat * nat) :=
  ends <$> filter (λ e', le e' e) tree.

Record scan_inv (done : list (Edge F)) (forest : UnionFind)
    (tree : list (Edge F)) : Prop := {
  inv_forest : is_forest forest;
  inv_length : length (parent forest) = n;
  inv_roots : ∀ x y rx ry,
    root_of (parent forest) x rx → root_of (parent forest) y ry →
    (rx = ry ↔ connected (ends <$> tree) x y);
  inv_count : classes n (ends <$> tree) + length tree = n;
  inv_done : ∀ e, e ∈ tree → ∃ i, i < length done ∧ L !! i = Some e;
  inv_below : ∀ e, e ∈ done → connected (below e tree) (head e) (tail e);
}.

Definition scan_post (K : list (Edge F)) : Prop :=
  length K = n - 1 ∧
  (∀ e, e ∈ K → e ∈ L) ∧
  classes n (ends <$> K) + length K = n ∧
  ∀ e, e ∈ L → connected (below e K) (head e) (tail e).

Lemma L_edge e : e ∈ L → head e < tail e ∧ tail e < n.
Proof.
  rewrite HL. intros (i & j & ? & ? & ->)%elem_of_all_edges. simpl. lia.
Qed.

Lemma below_sub e tree p : p ∈ below e tree → p ∈ ends <$> tree.
Proof.
  unfold below. rewrite !list_elem_of_fmap.
  intros (e' & -> & [_ ?]%list_elem_of_filter). eauto.
Qed.

Lemma below_all e tree :
  (∀ e', e' ∈ tree → le e' e) → ∀ p, p ∈ ends <$> tree → p ∈ below e tree.
Proof.
  intros Hall p (e' & -> & He')%list_elem_of_fmap.
  apply list_elem_of_fmap_2, list_elem_of_filter. auto.
Qed.

Lemma tree_within done forest tree :
  scan_inv done forest tree → within n (ends <$> tree).
Proof.
  intros Hinv. apply (all_edges_within n cost). intros e He.
  destruct (inv_done _ _ _ Hinv e He) as (i & _ & Hi).
  rewrite <-HL. by eapply list_elem_of_lookup_2.
Qed.

(** With every edge scanned the forest is a spanning tree. *)
Lemma scan_all_full forest tree :
  0 < n → scan_inv L forest tree → length tree = n - 1.
Proof.
  intros Hn Hinv.
  assert (spans n (ends <$> tree)) as Hsp.
  { apply (all_edges_spans n cost). intros e He. rewrite <-HL in He.
    eapply connected_mono; [|by apply (inv_below _ _ _ Hinv)].
    intros p. apply below_sub. }
  assert (classes n (ends <$> tree) = 1) by by apply classes_one_spans.
  pose proof (inv_count _ _ _ Hinv). lia.
Qed.

Lemma scan_inv_length_le done forest tree :
  scan_inv done forest tree → length tree ≤ n - 1.
Proof.
  intros Hinv. pose proof (inv_count _ _ _ Hinv).
  destruct (decide (n = 0)) as [->|]; [lia|].
  pose proof (classes_pos n (ends <$> tree)). lia.
Qed.

(** The edges of the tree precede the edge at position [length done]. *)
Lemma tree_le_next done e rest forest tree :
  done ++ e :: rest = L → scan_inv done forest tree →
  ∀ e', e' ∈ tree → le e' e.
Proof.
  intros HLeq Hinv e' He'.
  destruct (inv_done _ _ _ Hinv e' He') as (i & Hi & Hie').
  apply (Hle i (length done)); [lia|done|].
  rewrite <-HLeq. by rewrite list_lookup_middle.
Qed.

Lemma scan_post_of_full done rest forest tree :
  done ++ rest = L → scan_inv done forest tree → length tree = n - 1 →
  scan_post tree.
Proof.
  intros HLeq Hinv Hlen. split_and!; [done|..].
  - intros e He. destruct (inv_done _ _ _ Hinv e He) as (i & _ & Hi).
    by eapply list_elem_of_lookup_2.
  - apply Hinv.
  - intros e He. rewrite <-HLeq in He.
    apply elem_of_app in He as [He|He]; [by apply Hinv|].
    assert (e ∈ L) as HeL by (rewrite <-HLeq; set_solver).
    apply L_edge in HeL as [? ?].
    assert (0 < n) as Hn by lia.
    assert (classes n (ends <$> tree) = 1) as Hone.
    { pose proof (inv_count _ _ _ Hinv). lia. }
    apply classes_one_spans in Hone as [_ Hsp].
    eapply connected_mono; [|apply Hsp; lia].
    apply below_all. intros e' He'.
    destruct (inv_done _ _ _ Hinv e' He') as (i & Hi & Hie').
    apply list_elem_of_lookup_1 in He as [k Hk].
    apply (Hle i (length done + k)); [lia|done|].
    rewrite <-HLeq. rewrite lookup_app_r; [|lia].
    by replace (length done + k - length done) with k by lia.
Qed.

(** The edge is rejected: only the paths are compressed. *)
Lemma scan_inv_skip done e rest forest forest' tree :
  done ++ e :: rest = L → scan_inv done forest tree →
  is_forest forest' → length (parent forest') = length (parent forest) →
  same_partition (parent forest) (parent forest') →
  connected (ends <$> tree) (head e) (tail e) →
  scan_inv (done ++ [e]) forest' tree.
Proof.
  intros HLeq Hinv Hf' Hlen Hsame Hconn. split.
  - done.
  - rewrite Hlen. apply Hinv.
  - intros x y rx ry Hx%Hsame Hy%Hsame. by apply Hinv.
  - apply Hinv.
  - intros e' He'. destruct (inv_done _ _ _ Hinv e' He') as (i & Hi & Hie').
    exists i. rewrite length_app. simpl. split; [lia|done].
  - intros e' [He'| ->%list_elem_of_singleton]%elem_of_app; [by apply Hinv|].
    eapply connected_mono; [|done]. apply below_all.
    by eapply tree_le_next.
Qed.

(** The edge is accepted and its two components are joined. *)
Lemma scan_inv_accept done e rest forest forest' tree ru rv rn :
  done ++ e :: rest = L → scan_inv done forest tree →
  root_of (parent forest) (head e) ru → root_of (parent forest) (tail e) rv →
  ru ≠ rv → (rn = ru ∨ rn = rv) →
  is_forest forest' → length (parent forest') = length (parent forest) →
  (∀ x rx, root_of (parent forest) x rx →
     root_of (parent forest') x (if decide (rx = ru ∨ rx = rv) then rn else rx)) →
  scan_inv (done ++ [e]) forest' (tree ++ [e]).
Proof.
  intros HLeq Hinv Hru Hrv Hne Hrn Hf' Hlen Hfw.
  assert (e ∈ L) as [? ?]%L_edge by (rewrite <-HLeq; set_solver).
  assert (¬ connected (ends <$> tree) (head e) (tail e)) as Hnc.
  { intros Hc. apply Hne. by apply (inv_roots _ _ _ Hinv _ _ _ _ Hru Hrv). }
  split.
  - done.
  - rewrite Hlen. apply Hinv.
  - intros x y rx' ry' Hx Hy.
    pose proof (root_of_lt _ _ _ Hx) as [Hxn _].
    pose proof (root_of_lt _ _ _ Hy) as [Hyn _].
    rewrite Hlen in Hxn, Hyn.
    destruct (proj2 (inv_forest _ _ _ Hinv) x Hxn) as [rx Hrx].
    destruct (proj2 (inv_forest _ _ _ Hinv) y Hyn) as [ry Hry].
    rewrite (root_of_det _ _ _ _ Hx (Hfw _ _ Hrx)).
    rewrite (root_of_det _ _ _ _ Hy (Hfw _ _ Hry)).
    rewrite fmap_app. simpl. change (ends e) with (head e, tail e).
    rewrite connected_snoc, connected_cons.
    rewrite <-(inv_roots _ _ _ Hinv x y rx ry Hrx Hry).
    rewrite <-(inv_roots _ _ _ Hinv x _ rx ru Hrx Hru).
    rewrite <-(inv_roots _ _ _ Hinv x _ rx rv Hrx Hrv).
    rewrite <-(inv_roots _ _ _ Hinv _ y rv ry Hrv Hry).
    rewrite <-(inv_roots _ _ _ Hinv _ y ru ry Hru Hry).
    clear -Hne Hrn. repeat case_decide; lia.
  - rewrite fmap_app, length_app. simpl. change (ends e) with (head e, tail e).
    rewrite classes_snoc.
    pose proof (classes_cons_fresh n (head e) (tail e) (ends <$> tree)
                  ltac:(lia) ltac:(lia) Hnc) as Hfresh.
    pose proof (inv_count _ _ _ Hinv). lia.
  - intros e' [He'| ->%list_elem_of_singleton]%elem_of_app.
    + destruct (inv_done _ _ _ Hinv e' He') as (i & Hi & Hie').
      exists i. rewrite length_app. simpl. split; [lia|done].
    + exists (length done). rewrite length_app. simpl. split; [lia|].
      rewrite <-HLeq. by rewrite list_lookup_middle.
  - intros e' [He'| ->%list_elem_of_singleton]%elem_of_app.
    + eapply connected_mono; [|by apply (inv_below _ _ _ Hinv)].
      unfold below. intros p. rewrite filter_app, fmap_app. set_solver.
    + apply connected_edge. unfold below. rewrite filter_app, fmap_app.
      apply elem_of_app. right. rewrite filter_cons, decide_True.
      * simpl. set_solver.
      * apply (Hle (length done) (length done)); [lia|..];
          rewrite <-HLeq; by rewrite list_lookup_middle.
Qed.

Lemma mst_scan_spec rest : ∀ done forest tree,
  done ++ rest = L → scan_inv done forest tree →
  ∃ K, mst_scan n rest forest tree (length tree) = Some K ∧ scan_post K.
Proof.
  induction rest as [|e rest IH]; intros done forest tree HLeq Hinv.
  - simpl. rewrite app_nil_r in HLeq. subst done.
    pose proof (scan_inv_length_le _ _ _ Hinv).
    destruct (decide (length tree < n - 1)) as [Hlt|Hge].
    + pose proof (scan_all_full forest tree ltac:(lia) Hinv). lia.
    + exists tree. split; [done|].
      apply (scan_post_of_full L [] forest); [by rewrite app_nil_r|done|lia].
  - simpl.
    pose proof (scan_inv_length_le _ _ _ Hinv).
    destruct (decide (length tree < n - 1)) as [Hlt|Hge]; last first.
    { exists tree. split; [done|].
      apply (scan_post_of_full done (e :: rest) forest); [done..|lia]. }
    assert (e ∈ L) as [? ?]%L_edge by (rewrite <-HLeq; set_solver).
    pose proof (inv_length _ _ _ Hinv) as Hlen.
    destruct (find_set_spec forest (head e) (inv_forest _ _ _ Hinv) ltac:(lia))
      as (f1 & ru & Hfs1 & Hru & _ & Hlen1 & Hf1 & Hp1).
    destruct (find_set_spec f1 (tail e) Hf1 ltac:(lia))
      as (f2 & rv & Hfs2 & Hrv & _ & Hlen2 & Hf2 & Hp2).
    rewrite Hfs1. simpl. rewrite Hfs2. simpl.
    assert (same_partition (parent forest) (parent f2)) as Hp.
    { intros x r. by rewrite (Hp1 x r), (Hp2 x r). }
    assert (root_of (parent forest) (tail e) rv) as Hrv0 by by apply Hp1.
    assert (done ++ [e] ++ rest = L) as HLeq' by done.
    rewrite app_assoc in HLeq'.
    destruct (decide (ru ≠ rv)) as [Hne|Heq].
    + destruct (join_spec f2 (head e) (tail e) Hf2 ltac:(lia) ltac:(lia))
        as (f3 & ru' & rv' & rn & Hjoin & Hru' & Hrv' & Hrn & Hlen3 & Hf3 & Hfw).
      apply Hp in Hru', Hrv'.
      assert (ru' = ru) as -> by by eapply root_of_det.
      assert (rv' = rv) as -> by by eapply root_of_det.
      rewrite Hjoin. simpl.
      replace (length tree + 1) with (length (tree ++ [e]))
        by (rewrite length_app; simpl; lia).
      apply (IH (done ++ [e])); [done|].
      eapply (scan_inv_accept done e rest forest f3 tree ru rv rn);
        try done; [congruence|].
      intros x rx Hx. apply Hfw. by apply Hp.
    + apply dec_stable in Heq. subst rv.
      apply (IH (done ++ [e])); [done|].
      eapply scan_inv_skip; try done; [congruence|].
      by apply (inv_roots _ _ _ Hinv _ _ _ _ Hru Hrv0).
Qed.

Lemma scan_inv_init forest :
  is_forest forest → length (parent forest) = n →
  (∀ i, i < n → root_of (parent forest) i i) →
  scan_inv [] forest [].
Proof.
  intros Hf Hlen Hroots. split; try done.
  - intros x y rx ry Hx Hy.
    pose proof (root_of_lt _ _ _ Hx) as [Hxn _].
    pose proof (root_of_lt _ _ _ Hy) as [Hyn _].
    rewrite (root_of_det _ _ _ _ Hx (Hroots x ltac:(lia))).
    rewrite (root_of_det _ _ _ _ Hy (Hroots y ltac:(lia))).
    split; [intros ->; apply connected_refl|apply connected_nil].
  - simpl. rewrite classes_nil. lia.
  - intros e He. by apply not_elem_of_nil in He.
  - intros e He. by apply not_elem_of_nil in He.
Qed.

End Kruskal.

(** ** [mst] *)

Section Mst.
Context {F : Type} `{FloatOps F}.
Variable sort : list (Edge F) → list (Edge F).
Variables (n : nat) (cost : nat → nat → F).
Hypothesis Hperm : sort (all_edges n cost) ≡ₚ all_edges n cost.
Variable le : Edge F → Edge F → Prop.
Context `{∀ a b, Decision (le a b)}.
Hypothesis Hle : ∀ i j a b, i ≤ j →
  sort (all_edges n cost) !! i = Some a →
  sort (all_edges n cost) !! j = Some b → le a b.

Lemma mst_scan_post :
  ∃ K, mst sort n cost = Some K ∧
       scan_post n (sort (all_edges n cost)) le K.
Proof.
  unfold mst.
  destruct (init_spec n) as (forest & -> & Hf & Hlen & Hroots). simpl.
  apply (mst_scan_spec n cost _ Hperm le Hle _ [] forest []); [done|].
  by apply scan_inv_init.
Qed.

End Mst.

(** [mst] never reads past the end of the edge list, and returns a
    spanning tree, whatever the costs and however ties are sorted. *)
Lemma mst_spanning_tree {F} `{FloatOps F} (sort : list (Edge F) → list (Edge F))
    (n : nat) (c : nat → nat → F) :
  0 < n → sort (all_edges n c) ≡ₚ all_edges n c →
  ∃ K, mst sort n c = Some K ∧
       length K = n - 1 ∧
       (∀ e, e ∈ K → e ∈ all_edges n c) ∧
       spanning_tree n (ends <$> K).
Proof.
  intros Hn Hperm.
  destruct (mst_scan_post sort n c Hperm (λ _ _, True) ltac:(done))
    as (K & HK & Hlen & HKL & Hcount & _).
  assert (∀ e, e ∈ K → e ∈ all_edges n c) as HKall.
  { intros e He. rewrite <-Hperm. by apply HKL. }
  pose proof (all_edges_within n c K HKall) as Hw.
  exists K. split_and!; try done. split_and!; [done|..].
  - apply (classes_acyclic n); [done|]. by rewrite length_fmap.
  - assert (classes n (ends <$> K) = 1) as [_ ?]%classes_one_spans by lia.
    done.
Qed.

(** ** Weights *)

Definition sumZ (l : list Z) : Z := foldr Z.add 0%Z l.

(** The total weight of a list of edges under an exact valuation [val]
    of the costs. *)
Definition tree_weight {F} (val : F → Z) (K : list (Edge F)) : Z :=
  sumZ ((λ e, val (cost e)) <$> K).

(** The total weight of a list of vertex pairs, read off the matrix. *)
Definition pairs_weight {F} (val : F → Z) (cost : nat → nat → F)
    (T : list (nat * nat)) : Z :=
  sumZ ((λ p, val (cost p.1 p.2)) <$> T).

Section Dominate.
Local Open Scope Z_scope.

#[global] Instance sumZ_perm : Proper ((≡ₚ) ==> (=)) sumZ.
Proof.
  intros l k Hp. induction Hp; simpl; lia.
Qed.

Lemma sumZ_app l k : sumZ (l ++ k) = sumZ l + sumZ k.
Proof. induction l; simpl; lia. Qed.

Definition count_lt (t : Z) (l : list Z) : nat :=
  length (filter (λ x, x < t) l).

Lemma count_lt_cons t x l :
  count_lt t (x :: l)
  = ((if decide (x < t)%Z then 1 else 0) + count_lt t l)%nat.
Proof. unfold count_lt. rewrite filter_cons. by case_decide. Qed.

Lemma count_lt_perm t l k : l ≡ₚ k → count_lt t l = count_lt t k.
Proof. intros Hp. unfold count_lt. by rewrite Hp. Qed.

Lemma count_lt_le t l : (count_lt t l ≤ length l)%nat.
Proof. apply length_filter. Qed.

Lemma count_lt_all t l : Forall (λ x, x < t) l → count_lt t l = length l.
Proof.
  induction 1 as [|x l Hx _ IH]; [done|].
  rewrite count_lt_cons, decide_True; [|done]. simpl. by rewrite IH.
Qed.

Lemma length_filter_fmap {A} (f : A → Z) t (l : list A) :
  count_lt t (f <$> l) = length (filter (λ a, f a < t) l).
Proof.
  induction l as [|a l IH]; [done|]. rewrite fmap_cons, count_lt_cons.
  rewrite filter_cons. case_decide; simpl; lia.
Qed.

(** A greatest element can be moved to the front. *)
Lemma exists_max (l : list Z) :
  l ≠ [] → ∃ a l', l ≡ₚ a :: l' ∧ Forall (λ x, x ≤ a) l'.
Proof.
  induction l as [|x l IH]; [done|]. intros _.
  destruct l as [|y l]; [by exists x, []|].
  destruct IH as (a & l' & Hp & Hall); [done|].
  destruct (decide (x ≤ a)).
  - exists a, (x :: l'). split; [rewrite Hp; apply Permutation_swap|].
    by constructor.
  - exists x, (a :: l'). split; [by rewrite Hp|].
    constructor; [lia|]. eapply Forall_impl; [done|]. simpl. lia.
Qed.

(** When fewer elements lie below [a] than the list has, one does not. *)
Lemma exists_ge a (l : list Z) :
  (count_lt a l < length l)%nat → ∃ b l', l ≡ₚ b :: l' ∧ a ≤ b.
Proof.
  induction l as [|x l IH]; [simpl; lia|].
  rewrite count_lt_cons. simpl. case_decide; intros Hlt.
  - destruct IH as (b & l' & Hp & Hb); [lia|].
    exists b, (x :: l'). split; [rewrite Hp; apply Permutation_swap|done].
  - exists x, l. split; [done|lia].
Qed.

(** If at every threshold [A] has at least as many elements below it as
    [B], and both have the same length, [A] has the smaller sum. *)
Lemma dominate (A B : list Z) :
  length A = length B →
  (∀ t, (count_lt t B ≤ count_lt t A)%nat) →
  sumZ A ≤ sumZ B.
Proof.
  remember (length A) as k eqn:Hk. revert A B Hk.
  induction k as [|k IH]; intros A B Hk Hlen Hcount.
  - destruct A, B; simplify_eq/=. lia.
  - destruct (exists_max A) as (a & A' & HpA & Hmax); [by destruct A|].
    assert (count_lt a A < length A)%nat as HltA.
    { rewrite (count_lt_perm _ _ _ HpA), HpA, count_lt_cons.
      rewrite decide_False; [|lia]. simpl.
      pose proof (count_lt_le a A'). lia. }
    destruct (exists_ge a B) as (b & B' & HpB & Hab).
    { specialize (Hcount a). lia. }
    rewrite HpA, HpB. simpl.
    assert (length A' = k) as HlenA.
    { rewrite HpA in Hk. simpl in Hk. lia. }
    assert (length B' = k) as HlenB.
    { rewrite HpB in Hlen. simpl in Hlen. lia. }
    assert (sumZ A' ≤ sumZ B'); [|lia].
    apply IH; [done|lia|]. intros t. specialize (Hcount t).
    rewrite (count_lt_perm _ _ _ HpA), (count_lt_perm _ _ _ HpB) in Hcount.
    rewrite !count_lt_cons in Hcount.
    destruct (decide (a < t)).
    + rewrite (count_lt_all t A'); [pose proof (count_lt_le t B'); lia|].
      eapply Forall_impl; [done|]. simpl. lia.
    + rewrite decide_False in Hcount; [|lia]. simpl in Hcount. lia.
Qed.

Lemma sumZ_submseteq (l k : list Z) :
  Forall (λ x, 0 ≤ x) k → l ⊆+ k → sumZ l ≤ sumZ k.
Proof.
  intros Hpos Hsub. apply submseteq_Permutation in Hsub as [k' Hp].
  rewrite Hp in Hpos |- *. rewrite sumZ_app.
  apply Forall_app in Hpos as [_ Hpos].
  assert (0 ≤ sumZ k'); [|lia].
  clear -Hpos. induction Hpos; simpl; lia.
Qed.

End Dominate.

(** ** Minimality of the tree *)

Section Minimal.
Context {F : Type} `{FloatOps F}.
Variable sort : list (Edge F) → list (Edge F).
Variables (n : nat) (c : nat → nat → F).
Variable val : F → Z.

(** [<] on the entries above the diagonal is the order of their values:
    no NaN among them. *)
Definition ordered_by (val : F → Z) (n : nat) (cost : nat → nat → F) : Prop :=
  ∀ i j k l, i < j → j < n → k < l → l < n →
    flt (cost i j) (cost k l) = true ↔ (val (cost i j) < val (cost k l))%Z.

Definition symmetric (n : nat) (cost : nat → nat → F) : Prop :=
  ∀ i j, i < n → j < n → cost i j = cost j i.

Hypothesis Hsorts : sorts sort (all_edges n c).
Hypothesis Hval : ordered_by val n c.
Hypothesis Hsym : symmetric n c.

Definition le_val (a b : Edge F) : Prop := (val (cost a) ≤ val (cost b))%Z.

#[local] Instance le_val_dec a b : Decision (le_val a b).
Proof. unfold le_val. apply _. Defined.

Lemma sorted_le_val i j a b :
  i ≤ j →
  sort (all_edges n c) !! i = Some a →
  sort (all_edges n c) !! j = Some b → le_val a b.
Proof.
  intros Hij Ha Hb. destruct Hsorts as [Hperm Hsorted]. unfold le_val.
  destruct (decide (i = j)) as [->|Hne]; [simplify_eq; lia|].
  pose proof (Hsorted i j a b ltac:(lia) Ha Hb) as Hflt.
  apply list_elem_of_lookup_2 in Ha, Hb. rewrite Hperm in Ha, Hb.
  apply elem_of_all_edges in Ha as (i1 & j1 & ? & ? & ->).
  apply elem_of_all_edges in Hb as (i2 & j2 & ? & ? & ->).
  simpl in *.
  destruct (Z.lt_ge_cases (val (c i2 j2)) (val (c i1 j1))) as [Hlt|]; [|lia].
  apply Hval in Hlt; [congruence|done..].
Qed.

Lemma mst_below_threshold K T t :
  scan_post n (sort (all_edges n c)) le_val K →
  spanning_tree n T →
  (count_lt t ((λ p, val (c p.1 p.2)) <$> T)
   ≤ count_lt t ((λ e, val (cost e)) <$> K))%nat.
Proof.
  intros (Hlen & HKL & Hcount & Hbelow) (HwT & HacT & HspT).
  destruct Hsorts as [Hperm _].
  rewrite !length_filter_fmap.
  rewrite <-(length_fmap ends (filter _ K)).
  apply (forest_size_le n).
  - intros u v [_ ?]%list_elem_of_filter. by apply HwT.
  - apply (all_edges_within n c). intros e [_ He]%list_elem_of_filter.
    rewrite <-Hperm. by apply HKL.
  - by apply seq_acyclic_filter, acyclic_seq_acyclic.
  - intros u v [Hw Huv]%list_elem_of_filter. simpl in Hw.
    destruct (HwT u v Huv) as [Hu Hv].
    assert (∀ a b, a < b → b < n → (val (c a b) < t)%Z →
              connected (ends <$> filter (λ e, (val (cost e) < t)%Z) K) a b)
      as Hedge.
    { intros a b Hab Hb Hlt.
      assert (mkEdge a b (c a b) ∈ sort (all_edges n c)) as He.
      { rewrite Hperm. apply elem_of_all_edges. eauto. }
      eapply connected_mono; [|apply (Hbelow _ He)].
      unfold below. intros p (e' & -> & Hin)%list_elem_of_fmap.
      apply list_elem_of_filter in Hin as [Hle He'].
      apply list_elem_of_fmap_2, list_elem_of_filter. split; [|done].
      unfold le_val in Hle. simpl in *. lia. }
    destruct (Nat.lt_total u v) as [?|[->|?]].
    + by apply Hedge.
    + apply connected_refl.
    + apply connected_sym, Hedge; [done..|]. by rewrite (Hsym v u).
Qed.

(** [mst] succeeds, and its tree is a spanning tree of least weight. *)
Lemma mst_minimal :
  0 < n →
  ∃ K, mst sort n c = Some K ∧
       length K = n - 1 ∧
       (∀ e, e ∈ K → e ∈ all_edges n c) ∧
       spanning_tree n (ends <$> K) ∧
       ∀ T, spanning_tree n T →
            (tree_weight val K ≤ pairs_weight val c T)%Z.
Proof.
  intros Hn. pose proof Hsorts as [Hperm _].
  destruct (mst_scan_post sort n c Hperm le_val sorted_le_val)
    as (K & HK & Hpost).
  pose proof Hpost as (Hlen & HKL & Hcount & Hbelow).
  assert (∀ e, e ∈ K → e ∈ all_edges n c) as HKall.
  { intros e He. rewrite <-Hperm. by apply HKL. }
  pose proof (all_edges_within n c K HKall) as Hw.
  exists K. split_and!; try done.
  - split_and!; [done|..].
    + apply (classes_acyclic n); [done|]. by rewrite length_fmap.
    + assert (classes n (ends <$> K) = 1) as [_ ?]%classes_one_spans by lia.
      done.
  - intros T HT. apply dominate.
    + rewrite !length_fmap, Hlen. symmetry. by apply spanning_tree_length.
    + intros t. by apply mst_below_threshold.
Qed.

End Minimal.


(** * The traversal of [metric_tsp] *)

(** What the solvers promise of the sequence they return: [n + 1]
    vertices, [0] first and last, every vertex once among the first [n]. *)
Definition valid_tour (n : nat) (t : list nat) : Prop :=
  length t = n + 1 ∧ t !! 0 = Some 0 ∧ t !! n = Some 0 ∧ take n t ≡ₚ seq 0 n.

(** A Hamiltonian cycle from any start vertex. *)
Definition hamiltonian_cycle (n : nat) (h : list nat) : Prop :=
  ∃ p, p ≡ₚ seq 0 n ∧ h = p ++ take 1 p.

(** The steps of a walk, as pairs of consecutive vertices. *)
Definition path_pairs (l : list nat) : list (nat * nat) := zip l (drop 1 l).

(** The exact cost of a walk. *)
Definition walk_weight {F} (val : F → Z) (cost : nat → nat → F)
    (l : list nat) : Z :=
  pairs_weight val cost (path_pairs l).

(** ** The adjacency lists *)

Section Adjacency.
Context {F : Type} `{FloatOps F}.
Implicit Types (tree : list (Edge F)) (adj : list (list nat)).

Definition degree_sum adj : nat := sum_list_with length adj.

Lemma push_adj_spec adj u v :
  u < length adj →
  ∃ l, adj !! u = Some l ∧ push_adj adj u v = Some (<[u := l ++ [v]]> adj).
Proof.
  intros Hu. destruct (lookup_lt_is_Some_2 adj u Hu) as [l Hl].
  exists l. unfold push_adj. by rewrite Hl.
Qed.

Lemma degree_sum_insert adj u l v :
  adj !! u = Some l → degree_sum (<[u := l ++ [v]]> adj) = S (degree_sum adj).
Proof.
  revert u. induction adj as [|l0 adj IH]; intros [|u] Hu; simplify_eq/=.
  - unfold degree_sum. simpl. rewrite length_app. simpl. lia.
  - unfold degree_sum in *. simpl. rewrite (IH u Hu). lia.
Qed.

(** The state of the lists after the first [k] tree edges. *)
Definition adj_upto (n : nat) (E : list (nat * nat)) adj : Prop :=
  length adj = n ∧
  degree_sum adj = 2 * length E ∧
  ∀ u vs, adj !! u = Some vs → ∀ v, v ∈ vs ↔ adjacent E u v.

Lemma adj_upto_nil n : adj_upto n [] (replicate n []).
Proof.
  split_and!.
  - by rewrite length_replicate.
  - unfold degree_sum. simpl. induction n as [|n IH]; simpl; [done|by rewrite IH].
  - intros u vs [-> _]%lookup_replicate v. split.
    + by intros ?%not_elem_of_nil.
    + by intros [?%not_elem_of_nil|?%not_elem_of_nil].
Qed.

Lemma adj_upto_snoc n E adj a b :
  a < n → b < n → adj_upto n E adj →
  ∃ adj1 adj2, push_adj adj a b = Some adj1 ∧ push_adj adj1 b a = Some adj2 ∧
               adj_upto n (E ++ [(a, b)]) adj2.
Proof.
  intros Ha Hb (Hlen & Hdeg & Hadj).
  destruct (push_adj_spec adj a b) as (la & Hla & Hp1); [lia|].
  destruct (push_adj_spec (<[a := la ++ [b]]> adj) b a) as (lb & Hlb & Hp2).
  { rewrite length_insert. lia. }
  eexists _, _. split_and!; [done..|]. split_and!.
  - by rewrite !length_insert.
  - rewrite (degree_sum_insert _ _ _ _ Hlb), (degree_sum_insert _ _ _ _ Hla).
    rewrite Hdeg, length_app. simpl. lia.
  - intros u vs Hu v.
    assert (adjacent (E ++ [(a, b)]) u v
            ↔ adjacent E u v ∨ (u = a ∧ v = b) ∨ (u = b ∧ v = a)) as ->.
    { unfold adjacent. rewrite !elem_of_app, !list_elem_of_singleton.
      split; [intros [[?|?]|[?|?]]|intros [[?|?]|[[? ?]|[? ?]]]];
        simplify_eq; auto. }
    destruct (decide (u = b)) as [->|Hub].
    + rewrite list_lookup_insert_eq in Hu; [|rewrite length_insert; lia].
      simplify_eq. rewrite elem_of_app, list_elem_of_singleton.
      destruct (decide (b = a)) as [->|Hba].
      * rewrite list_lookup_insert_eq in Hlb; [|lia]. simplify_eq.
        rewrite elem_of_app, list_elem_of_singleton, (Hadj a la Hla v).
        naive_solver.
      * rewrite list_lookup_insert_ne in Hlb; [|done].
        rewrite (Hadj b lb Hlb v). naive_solver.
    + rewrite list_lookup_insert_ne in Hu; [|done].
      destruct (decide (u = a)) as [->|Hua].
      * rewrite list_lookup_insert_eq in Hu; [|lia]. simplify_eq.
        rewrite elem_of_app, list_elem_of_singleton, (Hadj a la Hla v).
        naive_solver.
      * rewrite list_lookup_insert_ne in Hu; [|done].
        rewrite (Hadj u vs Hu v). naive_solver.
Qed.

Lemma adjacency_loop n tree k :
  k ≤ length tree → within n (ends <$> tree) →
  ∃ adj,
    foldl (λ acc i,
             adj ← acc;
             e ← tree !! i;
             adj ← push_adj adj (head e) (tail e);
             push_adj adj (tail e) (head e))
          (Some (replicate n [])) (seq 0 k) = Some adj ∧
    adj_upto n (ends <$> take k tree) adj.
Proof.
  intros Hk Hw. induction k as [|k IH].
  - exists (replicate n []). split; [done|]. rewrite take_0. apply adj_upto_nil.
  - destruct IH as (adj & Hfold & Hadj); [lia|].
    destruct (lookup_lt_is_Some_2 tree k ltac:(lia)) as [e He].
    destruct (Hw (head e) (tail e)) as [? ?].
    { apply (list_elem_of_fmap_2 ends). by eapply list_elem_of_lookup_2. }
    destruct (adj_upto_snoc n (ends <$> take k tree) adj (head e) (tail e))
      as (a1 & a2 & Hp1 & Hp2 & Ha2); [done..|].
    exists a2. rewrite seq_S, foldl_app. simpl. rewrite Hfold. simpl.
    rewrite He. simpl. rewrite Hp1. simpl. split; [done|].
    by rewrite (take_S_r _ _ _ He), fmap_app.
Qed.

Lemma adjacency_spec n tree :
  length tree = n - 1 → within n (ends <$> tree) →
  ∃ adj, adjacency n tree = Some adj ∧ adj_upto n (ends <$> tree) adj.
Proof.
  intros Hlen Hw.
  destruct (adjacency_loop n tree (n - 1)) as (adj & Hfold & Hadj);
    [lia|done|].
  exists adj. split; [done|]. by rewrite take_ge in Hadj by lia.
Qed.

End Adjacency.

(** ** Termination and shape of the result *)

Section Traverse.
Variable n : nat.
Variable E : list (nat * nat).
Variable adj : list (list nat).
Hypothesis Hn : 0 < n.
Hypothesis Hw : within n E.
Hypothesis Hsp : spans n E.
Hypothesis Hadj : adj_upto n E adj.

(** The entries still to be pushed: the degrees of the vertices not yet
    visited. *)
Definition pending (visited : list bool) : nat :=
  sum_list (zip_with (λ (b : bool) l, if b then 0 else length l) visited adj).

Record tinv (visited : list bool) (open tour : list nat) : Prop := {
  tinv_length : length visited = n;
  tinv_visited : ∀ u, u < n → visited !! u = Some (bool_decide (u ∈ tour));
  tinv_nodup : NoDup tour;
  tinv_tour : ∀ u, u ∈ tour → u < n;
  tinv_open : ∀ u, u ∈ open → u < n;
  tinv_frontier : ∀ u v, u ∈ tour → adjacent E u v → v ∈ tour ∨ v ∈ open;
  tinv_start : (tour = [] ∧ open = [0]) ∨ ∃ tour', tour = 0 :: tour';
}.

Lemma adjacent_lt u v : adjacent E u v → u < n ∧ v < n.
Proof. intros [?%Hw|?%Hw]; lia. Qed.

Lemma tinv_init : tinv (replicate n false) [0] [].
Proof.
  split.
  - by rewrite length_replicate.
  - intros u Hu. rewrite lookup_replicate_2; [|done].
    rewrite bool_decide_eq_false_2; [done|]. apply not_elem_of_nil.
  - constructor.
  - by intros u ?%not_elem_of_nil.
  - intros u ->%list_elem_of_singleton. done.
  - by intros u v ?%not_elem_of_nil.
  - by left.
Qed.

Lemma tinv_skip visited u open tour :
  tinv visited (u :: open) tour → visited !! u = Some true →
  tinv visited open tour.
Proof.
  intros Hinv Hu.
  assert (u ∈ tour) as Hin.
  { assert (u < n) as Hlt by (apply (tinv_open _ _ _ Hinv); set_solver).
    rewrite (tinv_visited _ _ _ Hinv u Hlt) in Hu.
    injection Hu as Hu. by apply bool_decide_eq_true in Hu. }
  split; try apply Hinv.
  - intros w ?. apply (tinv_open _ _ _ Hinv). set_solver.
  - intros w v Hw' Hwv.
    destruct (tinv_frontier _ _ _ Hinv w v Hw' Hwv) as [?|[->|?]%elem_of_cons];
      auto.
  - destruct (tinv_start _ _ _ Hinv) as [[-> _]|?]; [|by right].
    by apply not_elem_of_nil in Hin.
Qed.

Lemma tinv_visit visited u open tour vs :
  tinv visited (u :: open) tour → visited !! u = Some false →
  adj !! u = Some vs →
  tinv (<[u := true]> visited) (reverse vs ++ open) (tour ++ [u]).
Proof.
  intros Hinv Hu Hvs.
  assert (u < n) as Hlt by (apply (tinv_open _ _ _ Hinv); set_solver).
  assert (u ∉ tour) as Hnin.
  { rewrite (tinv_visited _ _ _ Hinv u Hlt) in Hu.
    injection Hu as Hu. by apply bool_decide_eq_false in Hu. }
  destruct Hadj as (Hlen & _ & Hadj').
  split.
  - rewrite length_insert. apply Hinv.
  - intros w Hw'. destruct (decide (w = u)) as [->|Hne].
    + rewrite list_lookup_insert_eq; [|by rewrite (tinv_length _ _ _ Hinv)].
      rewrite bool_decide_eq_true_2; [done|set_solver].
    + rewrite list_lookup_insert_ne; [|done].
      rewrite (tinv_visited _ _ _ Hinv w Hw'). f_equal.
      apply bool_decide_ext. set_solver.
  - apply NoDup_app.
    split_and!; [apply Hinv|set_solver|apply NoDup_singleton].
  - intros w [?| ->%list_elem_of_singleton]%elem_of_app;
      [by apply (tinv_tour _ _ _ Hinv)|done].
  - intros w [Hw'|?]%elem_of_app.
    + rewrite elem_of_reverse in Hw'.
      apply (Hadj' u vs Hvs) in Hw'. by apply adjacent_lt in Hw' as [_ ?].
    + apply (tinv_open _ _ _ Hinv). set_solver.
  - intros w v [Hw'| ->%list_elem_of_singleton]%elem_of_app Hwv.
    + destruct (tinv_frontier _ _ _ Hinv w v Hw' Hwv) as [?|[->|?]%elem_of_cons];
        set_solver.
    + right. apply elem_of_app. left.
      by apply elem_of_reverse, (Hadj' u vs Hvs).
  - right. destruct (tinv_start _ _ _ Hinv) as [[-> Ho]|[tour' ->]].
    + simplify_eq. by exists [].
    + by eexists.
Qed.

(** While vertices are missing from the tour the stack is not empty. *)
Lemma tinv_progress visited open tour :
  tinv visited open tour → length tour < n →
  ∃ u open' b, open = u :: open' ∧ u < n ∧ visited !! u = Some b ∧
               ∃ vs, adj !! u = Some vs.
Proof.
  intros Hinv Hlt. destruct open as [|u open'].
  - exfalso.
    destruct (tinv_start _ _ _ Hinv) as [[_ ?]|[tour' Ht]]; [done|].
    assert (∀ x y, connected E x y → x ∈ tour → y ∈ tour) as Hclosed.
    { induction 1 as [|x x' y Hstep _ IH]; [done|]. intros Hx. apply IH.
      destruct (tinv_frontier _ _ _ Hinv x x' Hx Hstep) as [?|?%not_elem_of_nil];
        done. }
    assert (seq 0 n ⊆+ tour) as Hsub.
    { apply NoDup_submseteq; [apply NoDup_seq|].
      intros v [_ Hv]%elem_of_seq. apply (Hclosed 0 v).
      - apply Hsp; lia.
      - rewrite Ht. set_solver. }
    apply submseteq_length in Hsub. rewrite length_seq in Hsub. lia.
  - assert (u < n) as Hu by (apply (tinv_open _ _ _ Hinv); set_solver).
    exists u, open', (bool_decide (u ∈ tour)). split_and!; [done..| |].
    + by apply (tinv_visited _ _ _ Hinv).
    + apply lookup_lt_is_Some. destruct Hadj as [-> _]. done.
Qed.

Lemma pending_init : pending (replicate n false) = degree_sum adj.
Proof.
  unfold pending, degree_sum. rewrite <-(proj1 Hadj).
  generalize adj. clear. intros a.
  induction a as [|l a IH]; simpl; [done|]. by rewrite IH.
Qed.

Lemma pending_visit visited u vs :
  visited !! u = Some false → adj !! u = Some vs →
  pending (<[u := true]> visited) + length vs = pending visited.
Proof.
  unfold pending. clear. revert u visited.
  induction adj as [|l a IH]; intros u visited Hu Hvs; [done|].
  destruct visited as [|b visited]; [done|].
  destruct u as [|u]; simplify_eq/=; [lia|].
  specialize (IH u visited Hu Hvs). lia.
Qed.

Lemma tinv_exit visited open tour :
  tinv visited open tour → ¬ length tour < n →
  tour ≡ₚ seq 0 n ∧ tour !! 0 = Some 0.
Proof.
  intros Hinv Hge.
  assert (tour ⊆+ seq 0 n) as Hsub.
  { apply NoDup_submseteq; [apply Hinv|].
    intros x Hx%(tinv_tour _ _ _ Hinv). apply elem_of_seq. lia. }
  split.
  - apply submseteq_length_Permutation; [done|]. rewrite length_seq. lia.
  - destruct (tinv_start _ _ _ Hinv) as [[-> _]|[tour' ->]]; [|done].
    simpl in Hge. lia.
Qed.

(** The loop ends, and what it returns lists every vertex once, [0]
    first. *)
Lemma traverse_spec fuel : ∀ visited open tour,
  tinv visited open tour → length open + pending visited ≤ fuel →
  ∃ t, traverse fuel n adj visited open tour = Some t ∧
       t ≡ₚ seq 0 n ∧ t !! 0 = Some 0.
Proof.
  induction fuel as [|fuel IH]; intros visited open tour Hinv Hfuel.
  - simpl. destruct (decide (length tour < n)) as [Hlt|Hge].
    + destruct (tinv_progress _ _ _ Hinv Hlt) as (u & open' & b & -> & _).
      simpl in Hfuel. lia.
    + exists tour. split; [done|]. by eapply tinv_exit.
  - simpl. destruct (decide (length tour < n)) as [Hlt|Hge]; last first.
    { exists tour. split; [done|]. by eapply tinv_exit. }
    destruct (tinv_progress _ _ _ Hinv Hlt)
      as (u & open' & b & -> & Hu & Hb & vs & Hvs).
    rewrite Hb. simpl. destruct b; simpl.
    + apply IH; [by eapply tinv_skip|]. simpl in Hfuel. lia.
    + rewrite Hvs. simpl. apply IH; [by eapply tinv_visit|].
      rewrite length_app, length_reverse.
      pose proof (pending_visit _ _ _ Hb Hvs). simpl in Hfuel. lia.
Qed.

End Traverse.

(** ** The tour costs at most twice the tree *)

Lemma path_pairs_cons a b l :
  path_pairs (a :: b :: l) = (a, b) :: path_pairs (b :: l).
Proof. done. Qed.

Lemma path_pairs_snoc l x v :
  last l = Some x → path_pairs (l ++ [v]) = path_pairs l ++ [(x, v)].
Proof.
  induction l as [|a [|b l] IH]; intros Hlast; simplify_eq/=; [done|].
  rewrite !path_pairs_cons. f_equal. by apply IH.
Qed.

Section TourCost.
Local Open Scope Z_scope.
Variable n : nat.
Variable E : list (nat * nat).
Variable adj : list (list nat).
Variable d : nat → nat → Z.
Hypothesis Hn : (0 < n)%nat.
Hypothesis Hw : within n E.
Hypothesis Hsp : spans n E.
Hypothesis Hadj : adj_upto n E adj.
Hypothesis Hsym : ∀ u v, (u < n)%nat → (v < n)%nat → d u v = d v u.
Hypothesis Htri : ∀ i j k, (i < n)%nat → (j < n)%nat → (k < n)%nat →
  d i k ≤ d i j + d j k.

Definition dsum (l : list (nat * nat)) : Z := sumZ ((λ p, d p.1 p.2) <$> l).

(** The distance with a zero diagonal. *)
Definition dd (u v : nat) : Z := if decide (u = v) then 0 else d u v.

(** [up x] bounds the way from [x] up the tree to the root; [a] lies
    above [x] when the way to [a] is covered by the difference. *)
Definition above (up : nat → Z) (x a : nat) : Prop := dd x a ≤ up x - up a.

Fixpoint chain (up : nat → Z) (x : nat) (tags : list nat) : Prop :=
  match tags with
  | [] => True
  | a :: tags' => above up x a ∧ chain up a tags'
  end.

Definition norm (p : nat * nat) : nat * nat := (p.1 `min` p.2, p.1 `max` p.2)%nat.

Record cinv (open tour tags : list nat) (up : nat → Z)
    (pe : list (nat * nat)) (x : nat) : Prop := {
  cinv_last : last tour = Some x;
  cinv_tags_len : length tags = length open;
  cinv_tags_in : ∀ a, a ∈ tags → a ∈ tour;
  cinv_tags_adj : ∀ i v a,
    open !! i = Some v → tags !! i = Some a → adjacent E a v;
  cinv_chain : chain up x tags;
  cinv_root : ∀ y, y ∈ tour → dd y 0 ≤ up y;
  cinv_cost : dsum (path_pairs tour) + up x ≤ 2 * dsum pe;
  cinv_pe : ∀ a v, (a, v) ∈ pe → a ∈ tour ∧ v ∈ tour ∧ adjacent E a v;
  cinv_pe_nodup : NoDup (norm <$> pe);
}.

Definition cstate (open tour : list nat) : Prop :=
  (tour = [] ∧ open = [0%nat]) ∨ ∃ tags up pe x, cinv open tour tags up pe x.

Lemma dsum_cons a b l : dsum ((a, b) :: l) = d a b + dsum l.
Proof. done. Qed.

Lemma dsum_snoc l a b : dsum (l ++ [(a, b)]) = dsum l + d a b.
Proof. unfold dsum. rewrite fmap_app, sumZ_app. simpl. lia. Qed.

Lemma d_nonneg u v : (u < n)%nat → (v < n)%nat → 0 ≤ d u v.
Proof.
  intros Hu Hv.
  pose proof (Htri u v u Hu Hv Hu). pose proof (Htri u u v Hu Hu Hv).
  pose proof (Hsym u v Hu Hv). lia.
Qed.

Lemma dd_tri x y z :
  (x < n)%nat → (y < n)%nat → (z < n)%nat → dd x z ≤ dd x y + dd y z.
Proof.
  intros Hx Hy Hz. unfold dd.
  pose proof (d_nonneg x y Hx Hy). pose proof (d_nonneg y z Hy Hz).
  pose proof (Htri x y z Hx Hy Hz).
  repeat case_decide; subst; lia.
Qed.

Lemma above_refl up x : above up x x.
Proof. unfold above, dd. rewrite decide_True; [lia|done]. Qed.

Lemma above_trans up x y z :
  (x < n)%nat → (y < n)%nat → (z < n)%nat →
  above up x y → above up y z → above up x z.
Proof.
  unfold above. intros Hx Hy Hz ??. pose proof (dd_tri x y z Hx Hy Hz). lia.
Qed.

Lemma chain_weaken up x a tags :
  (x < n)%nat → (a < n)%nat → (∀ t, t ∈ tags → (t < n)%nat) →
  above up x a → chain up a tags → chain up x tags.
Proof.
  intros Hx Ha Htags Hxa. destruct tags as [|t tags]; [done|].
  intros [Hat Hc]. split; [|done].
  eapply above_trans; [done|exact Ha|..|done|done]. apply Htags. set_solver.
Qed.

Lemma chain_ext up up' x tags :
  up' x = up x → (∀ t, t ∈ tags → up' t = up t) →
  chain up x tags → chain up' x tags.
Proof.
  revert x. induction tags as [|a tags IH]; intros x Hx Htags; [done|].
  intros [Hxa Hc]. split.
  - unfold above in *. rewrite Hx, (Htags a); [done|set_solver].
  - apply IH; [apply Htags; set_solver|intros; apply Htags; set_solver|done].
Qed.

Lemma chain_replicate up x k tags :
  chain up x tags → chain up x (replicate k x ++ tags).
Proof.
  intros Hc. induction k as [|k IH]; [done|]. simpl.
  split; [apply above_refl|done].
Qed.

Lemma norm_sym a b : norm (a, b) = norm (b, a).
Proof. unfold norm. simpl. f_equal; lia. Qed.

Lemma norm_elem a b p : norm p = norm (a, b) → a = p.1 ∨ a = p.2.
Proof. destruct p as [x y]. unfold norm. simpl. intros [= ??]. lia. Qed.

Lemma cstate_init : cstate [0%nat] [].
Proof. by left. Qed.

Lemma cstate_skip visited u open tour :
  tinv n E visited (u :: open) tour → visited !! u = Some true →
  cstate (u :: open) tour → cstate open tour.
Proof.
  intros Hinv Hu [[-> _]|(tags & up & pe & x & Hc)].
  { pose proof (tinv_open _ _ _ _ _ Hinv u ltac:(set_solver)) as Hlt.
    rewrite (tinv_visited _ _ _ _ _ Hinv u Hlt) in Hu.
    rewrite bool_decide_eq_false_2 in Hu by apply not_elem_of_nil. done. }
  right. destruct tags as [|a tags].
  { pose proof (cinv_tags_len _ _ _ _ _ _ Hc). done. }
  exists tags, up, pe, x.
  pose proof (cinv_chain _ _ _ _ _ _ Hc) as [Hxa Hch].
  assert (x ∈ tour) as Hx.
  { pose proof (cinv_last _ _ _ _ _ _ Hc) as [l ->]%last_Some. set_solver. }
  split; try apply Hc.
  - pose proof (cinv_tags_len _ _ _ _ _ _ Hc) as Hlen. simpl in Hlen. lia.
  - intros t Ht. apply (cinv_tags_in _ _ _ _ _ _ Hc). set_solver.
  - intros i v t Hv Ht. by apply (cinv_tags_adj _ _ _ _ _ _ Hc (S i) v t).
  - apply (chain_weaken up x a); [| | |done..].
    + by apply (tinv_tour _ _ _ _ _ Hinv).
    + apply (tinv_tour _ _ _ _ _ Hinv), (cinv_tags_in _ _ _ _ _ _ Hc).
      set_solver.
    + intros t Ht.
      apply (tinv_tour _ _ _ _ _ Hinv), (cinv_tags_in _ _ _ _ _ _ Hc).
      set_solver.
Qed.

Lemma tags_after_visit (open' tags' vs : list nat) u i v a :
  length tags' = length open' →
  (∀ w, w ∈ vs → adjacent E u w) →
  (∀ i v a, open' !! i = Some v → tags' !! i = Some a → adjacent E a v) →
  (reverse vs ++ open') !! i = Some v →
  (replicate (length vs) u ++ tags') !! i = Some a →
  adjacent E a v.
Proof.
  intros Hlen Hvs Hold Hv Ha.
  destruct (decide (i < length vs)%nat) as [Hlt|Hge].
  - rewrite lookup_app_l in Hv by (by rewrite length_reverse).
    rewrite lookup_app_l in Ha by (by rewrite length_replicate).
    apply lookup_replicate in Ha as [-> _].
    apply Hvs. rewrite <-elem_of_reverse. by eapply list_elem_of_lookup_2.
  - rewrite lookup_app_r in Hv by (rewrite length_reverse; lia).
    rewrite lookup_app_r in Ha by (rewrite length_replicate; lia).
    rewrite length_reverse in Hv. rewrite length_replicate in Ha.
    by eapply Hold.
Qed.

Lemma cstate_visit visited u open tour vs :
  tinv n E visited (u :: open) tour → visited !! u = Some false →
  adj !! u = Some vs →
  cstate (u :: open) tour → cstate (reverse vs ++ open) (tour ++ [u]).
Proof.
  intros Hinv Hu Hvs Hst.
  pose proof (tinv_open _ _ _ _ _ Hinv u ltac:(set_solver)) as Hlt.
  assert (u ∉ tour) as Hnin.
  { rewrite (tinv_visited _ _ _ _ _ Hinv u Hlt) in Hu.
    injection Hu as Hu. by apply bool_decide_eq_false in Hu. }
  assert (∀ w, w ∈ vs → adjacent E u w) as Hvs_adj.
  { intros w. by apply (proj2 (proj2 Hadj) u vs Hvs). }
  right. destruct Hst as [[-> Hopen]|(tags & up & pe & x & Hc)].
  - injection Hopen as -> ->.
    exists (replicate (length vs) 0%nat), (λ _, 0), [], 0%nat. split.
    + done.
    + by rewrite length_app, length_reverse, length_replicate.
    + intros a [-> _]%elem_of_replicate. set_solver.
    + intros i v a Hv Ha.
      eapply (tags_after_visit [] [] vs 0%nat i v a); try done.
      by rewrite app_nil_r.
    + rewrite <-(app_nil_r (replicate _ _)). by apply chain_replicate.
    + intros y ->%list_elem_of_singleton. unfold dd. by rewrite decide_True.
    + done.
    + by intros a v ?%not_elem_of_nil.
    + constructor.
  - destruct tags as [|a tags].
    { pose proof (cinv_tags_len _ _ _ _ _ _ Hc). done. }
    pose proof (cinv_chain _ _ _ _ _ _ Hc) as [Hxa Hch].
    pose proof (cinv_tags_len _ _ _ _ _ _ Hc) as Hlen. simpl in Hlen.
    assert (x ∈ tour) as Hx.
    { pose proof (cinv_last _ _ _ _ _ _ Hc) as [l ->]%last_Some. set_solver. }
    assert (a ∈ tour) as Ha.
    { apply (cinv_tags_in _ _ _ _ _ _ Hc). set_solver. }
    assert (adjacent E a u) as Hau.
    { by apply (cinv_tags_adj _ _ _ _ _ _ Hc 0%nat u a). }
    assert (∀ y, y ∈ tour → (y < n)%nat) as Hbound.
    { apply (tinv_tour _ _ _ _ _ Hinv). }
    pose proof (Hbound x Hx) as Hxn. pose proof (Hbound a Ha) as Han.
    assert (a ≠ u) as Hne by (by intros ->).
    assert (x ≠ u) as Hxu by (by intros ->).
    set (up' := λ y, if decide (y = u) then up a + d a u else up y).
    assert (∀ y, y ∈ tour → up' y = up y) as Hup'.
    { intros y Hy. unfold up'. rewrite decide_False; [done|]. by intros ->. }
    assert (up' u = up a + d a u) as Hup'u.
    { unfold up'. by rewrite decide_True. }
    assert (above up' u a) as Hua.
    { unfold above, dd. rewrite decide_False by done.
      rewrite Hup'u, (Hup' a Ha), (Hsym u a); [lia|done..]. }
    exists (replicate (length vs) u ++ tags), up', ((a, u) :: pe), u. split.
    + apply last_snoc.
    + rewrite !length_app, length_reverse, length_replicate. lia.
    + intros t [[-> _]%elem_of_replicate|Ht]%elem_of_app; [set_solver|].
      apply elem_of_app. left. apply (cinv_tags_in _ _ _ _ _ _ Hc). set_solver.
    + intros i v t Hv Ht.
      eapply (tags_after_visit open tags vs u i v t); try done; [lia|].
      intros j v' t' Hv' Ht'.
      by apply (cinv_tags_adj _ _ _ _ _ _ Hc (S j) v' t').
    + apply chain_replicate. apply (chain_weaken up' u a); [done..| |done|].
      * intros t Ht. apply Hbound, (cinv_tags_in _ _ _ _ _ _ Hc). set_solver.
      * apply (chain_ext up); [by apply Hup'| |done].
        intros t Ht. apply Hup', (cinv_tags_in _ _ _ _ _ _ Hc). set_solver.
    + intros y [Hy| ->%list_elem_of_singleton]%elem_of_app.
      * rewrite (Hup' y Hy). by apply (cinv_root _ _ _ _ _ _ Hc).
      * rewrite Hup'u.
        pose proof (cinv_root _ _ _ _ _ _ Hc a Ha) as Ha0.
        pose proof (dd_tri u a 0%nat Hlt Han Hn) as Htr.
        unfold dd in Htr at 2. rewrite decide_False in Htr by done.
        rewrite (Hsym u a) in Htr by done. lia.
    + rewrite (path_pairs_snoc tour x u (cinv_last _ _ _ _ _ _ Hc)).
      rewrite dsum_snoc, dsum_cons.
      pose proof (cinv_cost _ _ _ _ _ _ Hc) as Hcost.
      rewrite Hup'u.
      assert (d x u ≤ dd x a + d a u) as Hstep.
      { unfold dd. case_decide; [subst; lia|]. by apply Htri. }
      unfold above in Hxa. lia.
    + intros a' v' [[= -> ->]|Hin]%elem_of_cons.
      * split_and!; [set_solver|set_solver|done].
      * destruct (cinv_pe _ _ _ _ _ _ Hc a' v' Hin) as (? & ? & ?).
        split_and!; [set_solver|set_solver|done].
    + rewrite fmap_cons. constructor; [|apply (cinv_pe_nodup _ _ _ _ _ _ Hc)].
      intros ([a' v'] & Heq & Hin)%list_elem_of_fmap.
      destruct (cinv_pe _ _ _ _ _ _ Hc a' v' Hin) as (? & ? & _).
      rewrite norm_sym in Heq. symmetry in Heq.
      apply norm_elem in Heq as [->| ->]; done.
Qed.

(** The invariant holds of whatever the loop returns. *)
Lemma traverse_cstate fuel : ∀ visited open tour t,
  tinv n E visited open tour → cstate open tour →
  traverse fuel n adj visited open tour = Some t →
  ∃ open', cstate open' t.
Proof.
  induction fuel as [|fuel IH]; intros visited open tour t Hinv Hst; simpl.
  - case_decide; [done|]. intros [= <-]. eauto.
  - case_decide; [|intros [= <-]; eauto].
    destruct open as [|u open]; [done|].
    destruct (visited !! u) as [[|]|] eqn:Hu; simpl; [| |done].
    + intros Ht. eapply IH; [| |exact Ht].
      * by eapply tinv_skip.
      * by eapply cstate_skip.
    + destruct (adj !! u) as [vs|] eqn:Hvs; simpl; [|done].
      intros Ht. eapply IH; [| |exact Ht].
      * by eapply tinv_visit.
      * by eapply cstate_visit.
Qed.

(** The parent edges are distinct edges of the tree. *)
Lemma dsum_parent_edges (pe : list (nat * nat)) (tour : list nat) :
  (∀ u v, (u, v) ∈ E → (u < v)%nat) →
  (∀ a v, (a, v) ∈ pe → a ∈ tour ∧ v ∈ tour ∧ adjacent E a v) →
  NoDup (norm <$> pe) → dsum pe ≤ dsum E.
Proof.
  intros Hlt Hpe Hnd.
  assert (dsum pe = dsum (norm <$> pe)) as ->.
  { unfold dsum. rewrite <-list_fmap_compose. f_equal.
    apply list_fmap_ext. intros i [a v] Hi. simpl.
    destruct (Hpe a v) as (_ & _ & [Hav|Hav]);
      [by eapply list_elem_of_lookup_2|..].
    - pose proof (Hlt _ _ Hav).
      by rewrite Nat.min_l, Nat.max_r by lia.
    - pose proof (Hlt _ _ Hav). destruct (Hw _ _ Hav).
      rewrite Nat.min_r, Nat.max_l by lia. by apply Hsym. }
  apply sumZ_submseteq.
  - apply Forall_fmap, Forall_forall. intros [u v] [??]%Hw. simpl.
    by apply d_nonneg.
  - apply fmap_submseteq, NoDup_submseteq; [done|].
    intros p ([a v] & -> & Hin)%list_elem_of_fmap.
    destruct (Hpe a v Hin) as (_ & _ & [Hav|Hav]); pose proof (Hlt _ _ Hav);
      unfold norm; simpl.
    + by rewrite Nat.min_l, Nat.max_r by lia.
    + by rewrite Nat.min_r, Nat.max_l by lia.
Qed.

Lemma traverse_cost fuel t :
  (1 < n)%nat →
  (∀ u v, (u, v) ∈ E → (u < v)%nat) →
  traverse fuel n adj (replicate n false) [0%nat] [] = Some t →
  t ≡ₚ seq 0 n → t !! 0%nat = Some 0%nat →
  dsum (path_pairs (t ++ [0%nat])) ≤ 2 * dsum E.
Proof.
  intros Hn1 Hlt Ht Hperm H0.
  destruct (traverse_cstate fuel _ _ _ t (tinv_init n E Hn) cstate_init Ht)
    as (open' & [[-> _]|(tags & up & pe & x & Hc)]).
  { apply Permutation_length in Hperm. rewrite length_seq in Hperm.
    simpl in Hperm. lia. }
  rewrite (path_pairs_snoc t x 0%nat (cinv_last _ _ _ _ _ _ Hc)).
  rewrite dsum_snoc.
  pose proof (cinv_cost _ _ _ _ _ _ Hc) as Hcost.
  pose proof (dsum_parent_edges pe t Hlt (cinv_pe _ _ _ _ _ _ Hc)
                (cinv_pe_nodup _ _ _ _ _ _ Hc)).
  assert (x ∈ t) as Hx.
  { pose proof (cinv_last _ _ _ _ _ _ Hc) as [l ->]%last_Some. set_solver. }
  pose proof (cinv_root _ _ _ _ _ _ Hc x Hx) as Hroot.
  assert (x ≠ 0%nat) as Hx0.
  { intros ->. pose proof (cinv_last _ _ _ _ _ _ Hc) as [l Hl]%last_Some.
    assert (NoDup t) as Hnd by (rewrite Hperm; apply NoDup_seq).
    destruct l as [|y l].
    - subst t. apply Permutation_length in Hperm.
      rewrite length_seq in Hperm. simpl in Hperm. lia.
    - subst t. simpl in H0. injection H0 as ->.
      apply NoDup_cons in Hnd as [Hnin _]. set_solver. }
  unfold dd in Hroot. rewrite decide_False in Hroot by done. lia.
Qed.

End TourCost.

(** ** A Hamiltonian path is a spanning tree *)

Lemma path_pairs_elem l u v : (u, v) ∈ path_pairs l → u ∈ l ∧ v ∈ l.
Proof.
  unfold path_pairs. intros Hin. split.
  - by eapply elem_of_zip_l.
  - apply elem_of_zip_r in Hin. by eapply subseteq_drop.
Qed.

Lemma path_pairs_length l : length (path_pairs l) = length l - 1.
Proof. unfold path_pairs. rewrite length_zip, length_drop. lia. Qed.

Lemma path_pairs_connected l u v :
  u ∈ l → v ∈ l → connected (path_pairs l) u v.
Proof.
  revert u v. induction l as [|a [|b l] IH]; intros u v Hu Hv.
  - by apply not_elem_of_nil in Hu.
  - apply list_elem_of_singleton in Hu, Hv. subst. apply connected_refl.
  - rewrite path_pairs_cons.
    assert (∀ x, x ∈ a :: b :: l →
              connected ((a, b) :: path_pairs (b :: l)) x b) as Hb.
    { intros x [->|Hx]%elem_of_cons.
      - apply connected_edge. set_solver.
      - eapply connected_mono; [|apply (IH x b Hx); set_solver]. set_solver. }
    eapply connected_trans; [by apply Hb|]. by apply connected_sym, Hb.
Qed.

Lemma path_spanning_tree n p :
  0 < n → p ≡ₚ seq 0 n → spanning_tree n (path_pairs p).
Proof.
  intros Hn Hp.
  assert (∀ x, x ∈ p ↔ x < n) as Hin.
  { intros x. rewrite Hp, elem_of_seq. lia. }
  assert (within n (path_pairs p)) as Hw.
  { intros u v [??]%path_pairs_elem. by rewrite <-!Hin. }
  assert (spans n (path_pairs p)) as Hsp.
  { intros u v Hu Hv. apply path_pairs_connected; by apply Hin. }
  split_and!; [done| |done].
  apply (classes_acyclic n); [done|].
  assert (classes n (path_pairs p) = 1) as -> by by apply classes_one_spans.
  rewrite path_pairs_length, Hp, length_seq. lia.
Qed.

(** ** [metric_tsp] *)

Section MetricTsp.
Context {F : Type} `{FloatOps F}.
Variable sort : list (Edge F) → list (Edge F).
Variables (n : nat) (c : nat → nat → F).

Lemma valid_tour_snoc t :
  t ≡ₚ seq 0 n → t !! 0 = Some 0 → valid_tour n (t ++ [0]).
Proof.
  intros Hp H0.
  assert (length t = n) as Hlen by by rewrite Hp, length_seq.
  split_and!.
  - rewrite length_app. simpl. lia.
  - by apply lookup_app_l_Some.
  - rewrite <-Hlen. by rewrite list_lookup_middle.
  - by rewrite take_app_length'.
Qed.

(** [metric_tsp] returns a tour whatever the costs are. *)
Lemma metric_tsp_unfold :
  0 < n → sort (all_edges n c) ≡ₚ all_edges n c →
  ∃ K adj t, mst sort n c = Some K ∧
    length K = n - 1 ∧
    (∀ e, e ∈ K → e ∈ all_edges n c) ∧
    spanning_tree n (ends <$> K) ∧
    adj_upto n (ends <$> K) adj ∧
    traverse (2 * n) n adj (replicate n false) [0] [] = Some t ∧
    t ≡ₚ seq 0 n ∧ t !! 0 = Some 0 ∧
    metric_tsp sort n c = Some (t ++ [0]).
Proof.
  intros Hn Hperm.
  destruct (mst_spanning_tree sort n c Hn Hperm)
    as (K & HK & Hlen & HKall & Hw & Hac & Hsp).
  destruct (adjacency_spec n K Hlen Hw) as (adj & Hadj & Hupto).
  destruct (traverse_spec n (ends <$> K) adj Hn Hw Hsp Hupto (2 * n)
              (replicate n false) [0] []) as (t & Ht & Hperm_t & Ht0).
  { by apply tinv_init. }
  { rewrite (pending_init n (ends <$> K)); [|done].
    destruct Hupto as (_ & -> & _). rewrite length_fmap. simpl. lia. }
  exists K, adj, t. split_and!; try done.
  unfold metric_tsp. rewrite HK. cbn [mbind option_bind].
  rewrite Hadj. cbn [mbind option_bind]. by rewrite Ht.
Qed.

Lemma metric_tsp_valid :
  0 < n → sort (all_edges n c) ≡ₚ all_edges n c →
  ∃ t, metric_tsp sort n c = Some t ∧ valid_tour n t.
Proof.
  intros Hn Hperm.
  destruct (metric_tsp_unfold Hn Hperm)
    as (K & adj & t & _ & _ & _ & _ & _ & _ & Hp & H0 & ->).
  exists (t ++ [0]). split; [done|]. by apply valid_tour_snoc.
Qed.

Variable val : F → Z.
Hypothesis Hsorts : sorts sort (all_edges n c).
Hypothesis Hval : ordered_by val n c.
Hypothesis Hsym : symmetric n c.

(** The triangle inequality, on the exact values of the costs. *)
Definition triangle (val : F → Z) (n : nat) (c : nat → nat → F) : Prop :=
  ∀ i j k, i < n → j < n → k < n →
    (val (c i k) ≤ val (c i j) + val (c j k))%Z.

Hypothesis Htri : triangle val n c.

Lemma tree_weight_pairs (K : list (Edge F)) :
  (∀ e, e ∈ K → e ∈ all_edges n c) →
  tree_weight val K = pairs_weight val c (ends <$> K).
Proof.
  intros HK. unfold tree_weight, pairs_weight.
  rewrite <-list_fmap_compose. f_equal. apply list_fmap_ext.
  intros i e He%list_elem_of_lookup_2%HK.
  apply elem_of_all_edges in He as (a & b & _ & _ & ->). done.
Qed.

Lemma val_nonneg u v : u < n → v < n → (0 ≤ val (c u v))%Z.
Proof.
  intros Hu Hv.
  pose proof (Htri u v u Hu Hv Hu). pose proof (Htri u u v Hu Hu Hv).
  rewrite (Hsym v u) in * by done. lia.
Qed.

(** Every Hamiltonian cycle weighs at least as much as the tree of
    [mst]. *)
Lemma cycle_ge_tree K h :
  0 < n →
  (∀ T, spanning_tree n T → (tree_weight val K ≤ pairs_weight val c T)%Z) →
  hamiltonian_cycle n h →
  (tree_weight val K ≤ walk_weight val c h)%Z.
Proof.
  intros Hn Hmin (p & Hp & ->).
  etrans; [apply (Hmin (path_pairs p)); by apply path_spanning_tree|].
  unfold walk_weight.
  destruct p as [|a p].
  { apply Permutation_length in Hp. rewrite length_seq in Hp.
    simpl in Hp. lia. }
  destruct (last (a :: p)) as [x|] eqn:Hlast; [|by apply last_None in Hlast].
  change (take 1 (a :: p)) with [a]. rewrite (path_pairs_snoc _ x a Hlast).
  unfold pairs_weight. rewrite fmap_app, sumZ_app. simpl.
  assert (x < n ∧ a < n) as [??].
  { split.
    - apply last_Some_elem_of in Hlast. rewrite Hp in Hlast.
      apply elem_of_seq in Hlast. lia.
    - assert (a ∈ a :: p) as Ha by set_solver. rewrite Hp in Ha.
      apply elem_of_seq in Ha. lia. }
  pose proof (val_nonneg x a). lia.
Qed.

(** The tour of [metric_tsp] costs at most twice any Hamiltonian cycle. *)
Lemma metric_tsp_twice :
  0 < n →
  ∃ t, metric_tsp sort n c = Some t ∧ valid_tour n t ∧
       ∀ h, hamiltonian_cycle n h →
            (walk_weight val c t ≤ 2 * walk_weight val c h)%Z.
Proof.
  intros Hn. pose proof Hsorts as [Hperm _].
  destruct (metric_tsp_unfold Hn Hperm)
    as (K & adj & t & HK & Hlen & HKall & (Hw & Hac & Hsp) & Hadj & Ht & Hp & H0 & Hm).
  exists (t ++ [0]). split_and!; [done|by apply valid_tour_snoc|].
  intros h Hh.
  destruct (mst_minimal sort n c val Hsorts Hval Hsym Hn)
    as (K' & HK' & _ & _ & _ & Hmin).
  rewrite HK in HK'. injection HK' as <-.
  pose proof (cycle_ge_tree K h Hn Hmin Hh) as Hge.
  destruct (decide (n = 1)) as [Hn1|Hn1].
  - assert (t = [0]) as ->.
    { apply Permutation_singleton_r. by rewrite Hp, Hn1. }
    destruct Hh as (p & Hp' & ->). rewrite Hn1 in Hp'. simpl in Hp'.
    apply Permutation_singleton_r in Hp'. subst p. simpl.
    unfold walk_weight, pairs_weight. simpl.
    pose proof (val_nonneg 0 0). lia.
  - etrans; [|apply Z.mul_le_mono_nonneg_l; [lia|exact Hge]].
    rewrite (tree_weight_pairs K HKall).
    apply (traverse_cost n (ends <$> K) adj (λ u v, val (c u v)) Hn Hw Hsp Hadj)
      with (fuel := 2 * n); try done.
    + intros u v Hu Hv. by rewrite (Hsym u v).
    + lia.
    + intros u v (e & [= -> ->] & He%HKall)%list_elem_of_fmap.
      apply elem_of_all_edges in He as (a & b & ? & ? & ->). done.
Qed.

End MetricTsp.


(** * The reconstruction loop of [tsp] *)

Lemma valid_tour_hamiltonian n t : 0 < n → valid_tour n t → hamiltonian_cycle n t.
Proof.
  intros Hn (Hlen & H0 & Hlast & Hp). exists (take n t). split; [done|].
  assert (take 1 (take n t) = [0]) as ->.
  { rewrite take_take, Nat.min_l by lia.
    destruct t as [|x t]; simplify_eq/=. by rewrite take_0. }
  rewrite <-(take_drop n t) at 1. f_equal.
  apply list_eq. intros i. rewrite lookup_drop. destruct i as [|i]; simpl.
  - by rewrite Nat.add_0_r.
  - rewrite lookup_ge_None_2; [done|lia].
Qed.

Section Reconstruct.
Context {F : Type} `{FloatOps F}.
Variables (n : nat) (opt : table F) (c : nat → nat → F).

(** [best_k], once assigned, is a vertex that was not selected. *)
Lemma best_candidate_Some s selected j k :
  snd (best_candidate n opt c s selected j) = Some k →
  k < n ∧ default false (selected !! k) = false.
Proof.
  unfold best_candidate.
  assert (∀ l acc,
    snd (foldl (λ '(min_subpath, best_k) k,
                  if negb (default false (selected !! k))
                     && flt (fadd (opt s k) (c k j)) min_subpath
                  then (fadd (opt s k) (c k j), Some k)
                  else (min_subpath, best_k)) acc l) = Some k →
    snd acc = Some k ∨ (k ∈ l ∧ default false (selected !! k) = false))
    as Hgen.
  { induction l as [|x l IH]; intros [m b] Hk; [by left|].
    simpl in Hk. apply IH in Hk as [Hk|[Hk ?]]; [|right; set_solver].
    destruct (negb (default false (selected !! x))) eqn:Hsel; simpl in Hk.
    - destruct (flt _ m); simpl in Hk; [|by left].
      injection Hk as ->. right. split; [set_solver|].
      by apply negb_true_iff in Hsel.
    - by left. }
  intros Hk. apply Hgen in Hk as [Hk|[[_ Hk]%elem_of_seq ?]]; [done|].
  split; [lia|done].
Qed.

Record rinv (selected : list bool) (tour : list nat) : Prop := {
  rinv_length : length selected = n;
  rinv_selected : ∀ k, k < n → selected !! k = Some (bool_decide (k ∈ tour));
  rinv_nodup : NoDup tour;
  rinv_tour : ∀ k, k ∈ tour → k < n;
  rinv_start : tour !! 0 = Some 0;
}.

Lemma rinv_step selected tour k :
  rinv selected tour → k < n → default false (selected !! k) = false →
  rinv (<[k := true]> selected) (tour ++ [k]).
Proof.
  intros Hinv Hk Hsel.
  assert (k ∉ tour) as Hnin.
  { rewrite (rinv_selected _ _ Hinv k Hk) in Hsel. simpl in Hsel.
    by apply bool_decide_eq_false in Hsel. }
  split.
  - rewrite length_insert. apply Hinv.
  - intros w Hw. destruct (decide (w = k)) as [->|Hne].
    + rewrite list_lookup_insert_eq; [|by rewrite (rinv_length _ _ Hinv)].
      rewrite bool_decide_eq_true_2; [done|set_solver].
    + rewrite list_lookup_insert_ne; [|done].
      rewrite (rinv_selected _ _ Hinv w Hw). f_equal.
      apply bool_decide_ext. set_solver.
  - apply NoDup_app.
    split_and!; [apply Hinv|set_solver|apply NoDup_singleton].
  - intros w [?| ->%list_elem_of_singleton]%elem_of_app;
      [by apply (rinv_tour _ _ Hinv)|done].
  - apply lookup_app_l_Some, Hinv.
Qed.

Lemma reconstruct_spec iters : ∀ s selected tour t,
  rinv selected tour →
  reconstruct iters n opt c s selected tour = Some t →
  length t = length tour + iters ∧ ∃ selected', rinv selected' t.
Proof.
  induction iters as [|iters IH]; intros s selected tour t Hinv; simpl.
  - intros [= <-]. split; [lia|eauto].
  - destruct (last tour) as [j|]; simpl; [|done].
    destruct (snd (best_candidate n opt c s selected j)) as [k|] eqn:Hk;
      simpl; [|done].
    apply best_candidate_Some in Hk as [Hkn Hsel].
    intros Ht. apply IH in Ht as [Hlen Hex]; [|by apply rinv_step].
    split; [|done]. rewrite Hlen, length_app. simpl. lia.
Qed.

End Reconstruct.

(** Whenever [tsp] returns (every [best_k] it reads was assigned), it
    returns a tour. *)
Lemma tsp_valid {F} `{FloatOps F} (n : nat) (c : nat → nat → F) t :
  0 < n → tsp n c = Some t → valid_tour n t.
Proof.
  intros Hn. unfold tsp.
  destruct (reconstruct _ _ _ _ _ _ _) as [t0|] eqn:Hrec; simpl; [|done].
  intros [= <-].
  apply reconstruct_spec in Hrec as [Hlen (sel & Hinv)].
  - simpl in Hlen. apply valid_tour_snoc; [|apply Hinv].
    apply submseteq_length_Permutation; [|rewrite length_seq; lia].
    apply NoDup_submseteq; [apply Hinv|].
    intros x Hx%(rinv_tour _ _ _ Hinv). apply elem_of_seq. lia.
  - split.
    + by rewrite length_insert, length_replicate.
    + intros k Hk. destruct k as [|k].
      * rewrite list_lookup_insert_eq; [|by rewrite length_replicate].
        rewrite bool_decide_eq_true_2; [done|set_solver].
      * rewrite list_lookup_insert_ne; [|done].
        rewrite lookup_replicate_2; [|done].
        rewrite bool_decide_eq_false_2; [done|set_solver].
    + apply NoDup_singleton.
    + intros k ->%list_elem_of_singleton. done.
    + done.
Qed.

(** * Sorting by insertion *)

Section InsertionSortSpec.
Context {F : Type} `{FloatOps F}.

Lemma insert_edge_perm (e : Edge F) l : insert_edge e l ≡ₚ e :: l.
Proof.
  induction l as [|x l IH]; simpl; [done|].
  destruct (flt (cost x) (cost e)); [|done].
  rewrite IH. apply Permutation_swap.
Qed.

Lemma insertion_sort_perm (l : list (Edge F)) : insertion_sort l ≡ₚ l.
Proof.
  induction l as [|x l IH]; simpl; [done|].
  by rewrite insert_edge_perm, IH.
Qed.

(** A decision procedure for [sorted_by_cost]. *)
Fixpoint sortedb (l : list (Edge F)) : bool :=
  match l with
  | [] => true
  | a :: l' => forallb (λ b, negb (flt (cost b) (cost a))) l' && sortedb l'
  end.

Lemma sortedb_sorted l : sortedb l = true ↔ sorted_by_cost l.
Proof.
  unfold sorted_by_cost. induction l as [|x l IH]; simpl.
  - split; [|done]. intros _ i j a b _ Hi. by rewrite lookup_nil in Hi.
  - rewrite andb_true_iff, forallb_forall, IH. split.
    + intros [Hx Hl] [|i] [|j] a b Hij Ha Hb; simplify_eq/=; try lia.
      * apply negb_true_iff, Hx, list_elem_of_In.
        by eapply list_elem_of_lookup_2.
      * eapply (Hl i j); [lia|done..].
    + intros Hall. split.
      * intros b [j Hj]%list_elem_of_In%list_elem_of_lookup_1.
        apply negb_true_iff. by eapply (Hall 0 (S j)); [lia|..].
      * intros i j a b Hij Ha Hb. by eapply (Hall (S i) (S j)); [lia|..].
Qed.

End InsertionSortSpec.

(** * Bounded quantifiers by enumeration *)

Lemma forall_below (P : nat → Prop) n :
  Forall P (seq 0 n) → ∀ i, i < n → P i.
Proof.
  intros Hall i Hi. rewrite Forall_forall in Hall. apply Hall, elem_of_seq. lia.
Qed.

#[global] Instance spec_float_eq_dec : EqDecision spec_float.
Proof. solve_decision. Defined.


(** * The order of binary32 *)

(** On finite floats in canonical form, [<] is the order of the exact
    values, so every matrix of finite costs meets [ordered_by]. *)

Definition is_finite (x : spec_float) : bool :=
  match x with
  | S754_zero _ | S754_finite _ _ _ => true
  | _ => false
  end.

(** A finite float as the hardware holds it: the mantissa has 24 bits, or
    fewer at the least exponent. *)
Definition finite_valid (x : spec_float) : bool :=
  is_finite x && valid_binary binary32.prec binary32.emax x.

Section Binary32Order.
Local Open Scope Z_scope.

Lemma digits2_pos_bounds (m : positive) :
  2 ^ (Z.pos (digits2_pos m) - 1) ≤ Z.pos m < 2 ^ Z.pos (digits2_pos m).
Proof.
  induction m as [m IH|m IH|]; simpl digits2_pos.
  - rewrite Pos2Z.inj_succ.
    replace (Z.succ (Z.pos (digits2_pos m)) - 1) with
      (Z.succ (Z.pos (digits2_pos m) - 1)) by lia.
    rewrite !Z.pow_succ_r by lia. lia.
  - rewrite Pos2Z.inj_succ.
    replace (Z.succ (Z.pos (digits2_pos m)) - 1) with
      (Z.succ (Z.pos (digits2_pos m) - 1)) by lia.
    rewrite !Z.pow_succ_r by lia. lia.
  - simpl. lia.
Qed.

Lemma bounded_cases m e :
  bounded binary32.prec binary32.emax m e = true →
  -149 ≤ e ∧ Z.pos m < 2 ^ 24 ∧ (-149 < e → 2 ^ 23 ≤ Z.pos m).
Proof.
  unfold bounded, canonical_mantissa, fexp, emin, binary32.prec, binary32.emax.
  intros [Hc _]%andb_true_iff. apply Z.eqb_eq in Hc.
  pose proof (digits2_pos_bounds m) as [Hlo Hhi].
  set (d := Z.pos (digits2_pos m)) in *.
  assert (0 < d) by (unfold d; lia).
  split; [lia|]. split.
  - assert (d ≤ 24) by lia.
    pose proof (Z.pow_le_mono_r 2 d 24 ltac:(lia) ltac:(lia)). lia.
  - intros He. assert (d = 24) as Hd by lia. rewrite Hd in Hlo. exact Hlo.
Qed.

Lemma scale_lt m1 e1 m2 e2 :
  -149 ≤ e1 → e1 < e2 → Z.pos m1 < 2 ^ 24 → 2 ^ 23 ≤ Z.pos m2 →
  Z.pos m1 * 2 ^ (e1 + 149) < Z.pos m2 * 2 ^ (e2 + 149).
Proof.
  intros He1 Hlt Hm1 Hm2.
  replace (e2 + 149) with ((e1 + 149) + (e2 - e1)) by lia.
  rewrite (Z.pow_add_r 2 (e1 + 149) (e2 - e1)) by lia.
  pose proof (Z.pow_pos_nonneg 2 (e1 + 149) ltac:(lia) ltac:(lia)) as HP.
  pose proof (Z.pow_le_mono_r 2 1 (e2 - e1) ltac:(lia) ltac:(lia)) as HQ.
  change (2 ^ 1) with 2 in HQ. change (2 ^ 24) with (2 * 2 ^ 23) in Hm1.
  set (P := 2 ^ (e1 + 149)) in *. set (Q := 2 ^ (e2 - e1)) in *.
  set (T := 2 ^ 23) in *. assert (0 < T) by (unfold T; lia).
  clearbody P Q T.
  assert (Z.pos m1 * P < 2 * T * P) by nia.
  assert (2 * T * P ≤ Z.pos m2 * 2 * P) by nia.
  assert (Z.pos m2 * 2 * P ≤ Z.pos m2 * (P * Q)) by nia.
  lia.
Qed.

(** Two positive magnitudes compare as their exponents, then their
    mantissas. *)
Lemma magnitude_compare m1 e1 m2 e2 :
  bounded binary32.prec binary32.emax m1 e1 = true →
  bounded binary32.prec binary32.emax m2 e2 = true →
  match e1 ?= e2 with
  | Lt => Lt
  | Gt => Gt
  | Eq => Pos.compare_cont Eq m1 m2
  end = (Z.pos m1 * 2 ^ (e1 + 149) ?= Z.pos m2 * 2 ^ (e2 + 149)).
Proof.
  intros (He1 & Hm1 & Hn1)%bounded_cases (He2 & Hm2 & Hn2)%bounded_cases.
  destruct (Z.compare_spec e1 e2) as [->|Hlt|Hgt].
  - pose proof (Z.pow_pos_nonneg 2 (e2 + 149) ltac:(lia) ltac:(lia)) as HP.
    change (Pos.compare_cont Eq m1 m2) with (Z.pos m1 ?= Z.pos m2).
    symmetry. destruct (Z.compare_spec (Z.pos m1) (Z.pos m2)) as [Heq|?|?].
    + rewrite Heq. apply Z.compare_refl.
    + apply Z.compare_lt_iff. nia.
    + apply Z.compare_gt_iff. nia.
  - symmetry. apply Z.compare_lt_iff, scale_lt; try done. apply Hn2. lia.
  - symmetry. apply Z.compare_gt_iff, scale_lt; try done. apply Hn1. lia.
Qed.

Lemma SFcompare_scaled x y :
  finite_valid x = true → finite_valid y = true →
  SFcompare x y = Some (binary32.scaled x ?= binary32.scaled y).
Proof.
  unfold finite_valid.
  destruct x as [sx|sx| |sx mx ex], y as [sy|sy| |sy my ey]; try done;
    intros Hx Hy; cbn [is_finite andb valid_binary] in Hx, Hy;
    cbn [SFcompare binary32.scaled].
  - apply bounded_cases in Hy as (Hey & _ & _).
    pose proof (Z.pow_pos_nonneg 2 (ey + 149) ltac:(lia) ltac:(lia)).
    destruct sy; cbn [cond_Zopp]; f_equal; symmetry.
    + apply Z.compare_gt_iff. lia.
    + apply Z.compare_lt_iff. lia.
  - apply bounded_cases in Hx as (Hex & _ & _).
    pose proof (Z.pow_pos_nonneg 2 (ex + 149) ltac:(lia) ltac:(lia)).
    destruct sx; cbn [cond_Zopp]; f_equal; symmetry.
    + apply Z.compare_lt_iff. lia.
    + apply Z.compare_gt_iff. lia.
  - pose proof (magnitude_compare mx ex my ey Hx Hy) as Hmag.
    apply bounded_cases in Hx as (Hex & _ & _).
    apply bounded_cases in Hy as (Hey & _ & _).
    pose proof (Z.pow_pos_nonneg 2 (ex + 149) ltac:(lia) ltac:(lia)).
    pose proof (Z.pow_pos_nonneg 2 (ey + 149) ltac:(lia) ltac:(lia)).
    set (X := Z.pos mx * 2 ^ (ex + 149)) in *.
    set (Y := Z.pos my * 2 ^ (ey + 149)) in *.
    assert (0 < X) by (unfold X; lia). assert (0 < Y) by (unfold Y; lia).
    destruct sx, sy; cbn [cond_Zopp]; f_equal.
    + rewrite Z.compare_opp, (Z.compare_antisym X Y), <-Hmag.
      by destruct (ex ?= ey).
    + symmetry. apply Z.compare_lt_iff. lia.
    + symmetry. apply Z.compare_gt_iff. lia.
    + exact Hmag.
Qed.

Lemma SFltb_scaled x y :
  finite_valid x = true → finite_valid y = true →
  SFltb x y = true ↔ binary32.scaled x < binary32.scaled y.
Proof.
  intros Hx Hy. unfold SFltb. rewrite (SFcompare_scaled x y Hx Hy).
  rewrite <-Z.compare_lt_iff. by destruct (_ ?= _).
Qed.

End Binary32Order.

(** Every matrix of finite costs is ordered by its exact values. *)
Lemma ordered_by_finite (n : nat) (c : nat → nat → spec_float) :
  (∀ i j, i < j → j < n → finite_valid (c i j) = true) →
  ordered_by binary32.scaled n c.
Proof.
  intros Hfin i j k l Hij Hj Hkl Hl. apply SFltb_scaled; by apply Hfin.
Qed.


(** * Hypotheses on a concrete matrix, by enumeration *)

Ltac by_compute := apply (bool_decide_unpack _); vm_compute; exact I.

Section Enumerate.
Context {F : Type} `{FloatOps F}.
Implicit Types (c : nat → nat → F) (val : F → Z).

Lemma ordered_by_enum val n c :
  Forall (λ i, Forall (λ j, Forall (λ k, Forall (λ l,
    i < j → k < l →
    (flt (c i j) (c k l) = true ↔ (val (c i j) < val (c k l))%Z))
    (seq 0 n)) (seq 0 n)) (seq 0 n)) (seq 0 n) →
  ordered_by val n c.
Proof.
  intros Hall i j k l Hij Hj Hkl Hl.
  assert (i < n) as Hi by lia. assert (k < n) as Hk by lia.
  pose proof (forall_below _ _ Hall i Hi) as H1. simpl in H1.
  pose proof (forall_below _ _ H1 j Hj) as H2. simpl in H2.
  pose proof (forall_below _ _ H2 k Hk) as H3. simpl in H3.
  by apply (forall_below _ _ H3 l Hl).
Qed.

Lemma symmetric_enum n c :
  Forall (λ i, Forall (λ j, c i j = c j i) (seq 0 n)) (seq 0 n) →
  symmetric n c.
Proof.
  intros Hall i j Hi Hj.
  pose proof (forall_below _ _ Hall i Hi) as H1. simpl in H1.
  by apply (forall_below _ _ H1 j Hj).
Qed.

Lemma triangle_enum val n c :
  Forall (λ i, Forall (λ j, Forall (λ k,
    (val (c i k) ≤ val (c i j) + val (c j k))%Z)
    (seq 0 n)) (seq 0 n)) (seq 0 n) →
  triangle val n c.
Proof.
  intros Hall i j k Hi Hj Hk.
  pose proof (forall_below _ _ Hall i Hi) as H1. simpl in H1.
  pose proof (forall_below _ _ H1 j Hj) as H2. simpl in H2.
  by apply (forall_below _ _ H2 k Hk).
Qed.

Lemma sorts_insertion_sort (l : list (Edge F)) :
  sortedb (insertion_sort l) = true → sorts insertion_sort l.
Proof.
  intros Hs. split; [apply insertion_sort_perm|by apply sortedb_sorted].
Qed.

End Enumerate.

Lemma sorts_demo : sorts insertion_sort (all_edges 4 demo).
Proof. apply sorts_insertion_sort. by vm_compute. Qed.

(** * The edge list *)

Lemma all_edges_length {F} `{FloatOps F} n (c : nat → nat → F) :
  2 * length (all_edges n c) = n * (n - 1).
Proof.
  unfold all_edges.
  assert (∀ k, k ≤ n →
    2 * length (seq 0 k ≫= λ i, seq (i + 1) (n - (i + 1)) ≫= λ j,
                  [mkEdge i j (c i j)]) + k * (k + 1) = 2 * k * n) as Hgen.
  { induction k as [|k IH]; intros Hk; [done|].
    rewrite seq_S, bind_app, length_app. simpl. rewrite app_nil_r.
    assert (∀ a m, length (seq a m ≫= λ j, [mkEdge k j (c k j)]) = m) as Hin.
    { intros a m. revert a. induction m as [|m IHm]; intros a; [done|].
      simpl. by rewrite IHm. }
    rewrite Hin. specialize (IH ltac:(lia)). nia. }
  specialize (Hgen n ltac:(lia)). nia.
Qed.

(** * The claims *)

(** ** The union-find structure *)

(** C10. On a forest over a fixed universe, [find_set i] returns the
    self-looped root that the parent links lead to from [i], keeps the
    forest and moves no element to another root; [join i j] keeps the
    forest, gives [i] and [j] one root, which is one of their old roots,
    moves exactly the elements of their two sets to it and leaves every
    other root as it was; when [i] and [j] already share their root, the
    partition is unchanged.  The constructor yields a forest of
    singletons, and in a forest a chain of parents has fewer links than
    there are elements. *)
Theorem unionfind_forest_invariant (uf : UnionFind) (i j : nat) :
  is_forest uf → i < length (parent uf) → j < length (parent uf) →
  (∃ uf' r, UF.find_set uf i = Some (uf', r) ∧
     root_of (parent uf) i r ∧ parent uf !! r = Some r ∧
     is_forest uf' ∧ length (parent uf') = length (parent uf) ∧
     same_partition (parent uf) (parent uf')) ∧
  (∃ uf' ri rj rn, UF.join uf i j = Some uf' ∧
     root_of (parent uf) i ri ∧ root_of (parent uf) j rj ∧
     (rn = ri ∨ rn = rj) ∧
     is_forest uf' ∧ length (parent uf') = length (parent uf) ∧
     root_of (parent uf') i rn ∧ root_of (parent uf') j rn ∧
     (∀ x rx, root_of (parent uf) x rx → rx = ri ∨ rx = rj →
              root_of (parent uf') x rn) ∧
     (∀ x rx, root_of (parent uf) x rx → rx ≠ ri → rx ≠ rj →
              root_of (parent uf') x rx) ∧
     (ri = rj → same_partition (parent uf) (parent uf'))) ∧
  (∀ x r d, root_at (parent uf) x r d → d < length (parent uf)) ∧
  (∀ n, ∃ uf0, UF.init n = Some uf0 ∧ is_forest uf0 ∧
               length (parent uf0) = n ∧
               ∀ x, x < n → root_of (parent uf0) x x).
Proof.
  intros Hf Hi Hj. split_and!.
  - destruct (find_set_spec uf i Hf Hi)
      as (uf' & r & Hfs & Hr & _ & Hlen & Hf' & Hsame).
    exists uf', r. split_and!; try done. by eapply root_of_root.
  - destruct (join_spec uf i j Hf Hi Hj)
      as (uf' & ri & rj & rn & Hjoin & Hri & Hrj & Hrn & Hlen & Hf' & Hfw).
    exists uf', ri, rj, rn. split_and!; try done.
    + specialize (Hfw i ri Hri). by rewrite decide_True in Hfw by auto.
    + specialize (Hfw j rj Hrj). by rewrite decide_True in Hfw by auto.
    + intros x rx Hx Hrx. specialize (Hfw x rx Hx).
      by rewrite decide_True in Hfw.
    + intros x rx Hx Hn1 Hn2. specialize (Hfw x rx Hx).
      rewrite decide_False in Hfw; [done|]. by intros [?|?].
    + intros ->.
      destruct (join_same_set uf i j rj Hf Hri Hrj) as (uf'' & Hjoin' & _ & _ & Hs).
      rewrite Hjoin in Hjoin'. by injection Hjoin' as <-.
  - intros x r d. apply root_at_bound.
  - intros n. destruct (init_spec n) as (uf0 & ? & ? & ? & ?). eauto.
Qed.

Lemma unionfind_forest_invariant_witness :
  ∃ uf' r, UF.find_set (mkUF [0; 0; 1; 3] [1; 0; 0; 0]) 2 = Some (uf', r) ∧
     root_of [0; 0; 1; 3] 2 r ∧ [0; 0; 1; 3] !! r = Some r ∧
     is_forest uf' ∧ length (parent uf') = 4 ∧
     same_partition [0; 0; 1; 3] (parent uf').
Proof.
  refine (proj1 (unionfind_forest_invariant
                   (mkUF [0; 0; 1; 3] [1; 0; 0; 0]) 2 3 _ _ _)).
  - split; [reflexivity|]. simpl. intros i Hi.
    destruct i as [|[|[|[|i]]]]; [| | | |lia].
    + exists 0. by apply root_self.
    + exists 0. eapply root_step; [reflexivity|lia|by apply root_self].
    + exists 0. eapply root_step; [reflexivity|lia|].
      eapply root_step; [reflexivity|lia|by apply root_self].
    + exists 3. by apply root_self.
  - simpl. lia.
  - simpl. lia.
Defined.

(** ** Kruskal's spanning tree *)

(** C3. For [n >= 1] and a symmetric matrix whose costs [<] orders as
    their exact values, and for any result of [std::sort] that is a
    sorted permutation of the edge list, [mst] returns exactly [n - 1]
    edges of the matrix; they form an acyclic subgraph that connects all
    [n] vertices, and their total cost is the least among all spanning
    trees of the complete graph. *)
Theorem mst_minimum_spanning_tree {F} `{FloatOps F}
    (sort : list (Edge F) → list (Edge F)) (n : nat) (c : nat → nat → F)
    (val : F → Z) :
  0 < n → sorts sort (all_edges n c) → ordered_by val n c → symmetric n c →
  ∃ K, mst sort n c = Some K ∧
       length K = n - 1 ∧
       (∀ e, e ∈ K → e ∈ all_edges n c) ∧
       acyclic (ends <$> K) ∧ spans n (ends <$> K) ∧
       spanning_tree n (ends <$> K) ∧
       tree_weight val K = pairs_weight val c (ends <$> K) ∧
       ∀ T, spanning_tree n T →
            (tree_weight val K ≤ pairs_weight val c T)%Z.
Proof.
  intros Hn Hsorts Hval Hsym.
  destruct (mst_minimal sort n c val Hsorts Hval Hsym Hn)
    as (K & HK & Hlen & HKall & Hst & Hmin).
  exists K. split_and!; try done; [apply Hst..|].
  by apply (tree_weight_pairs n c).
Qed.

Lemma mst_minimum_spanning_tree_witness :
  ∃ K, mst insertion_sort 4 demo = Some K ∧
       length K = 3 ∧
       (∀ e, e ∈ K → e ∈ all_edges 4 demo) ∧
       acyclic (ends <$> K) ∧ spans 4 (ends <$> K) ∧
       spanning_tree 4 (ends <$> K) ∧
       tree_weight binary32.scaled K
       = pairs_weight binary32.scaled demo (ends <$> K) ∧
       ∀ T, spanning_tree 4 T →
            (tree_weight binary32.scaled K
             ≤ pairs_weight binary32.scaled demo T)%Z.
Proof.
  apply (mst_minimum_spanning_tree insertion_sort 4 demo binary32.scaled).
  - lia.
  - apply sorts_insertion_sort. vm_compute. reflexivity.
  - apply ordered_by_enum. by_compute.
  - apply symmetric_enum. by_compute.
Defined.

(** C7.  [mst] has no failure path and does not read past
    the end of the edge list: for [n >= 1] and any matrix, whether its
    finite costs connect the vertices or not, and for any permutation
    [std::sort] leaves, the list has [n (n - 1) / 2] edges and the scan
    stops inside it with [n - 1] edges that form a spanning tree of the
    complete graph. *)
Theorem mst_never_fails {F} `{FloatOps F}
    (sort : list (Edge F) → list (Edge F)) (n : nat) (c : nat → nat → F) :
  0 < n → sort (all_edges n c) ≡ₚ all_edges n c →
  2 * length (sort (all_edges n c)) = n * (n - 1) ∧
  ∃ K, mst sort n c = Some K ∧
       length K = n - 1 ∧
       (∀ e, e ∈ K → e ∈ sort (all_edges n c)) ∧
       spanning_tree n (ends <$> K).
Proof.
  intros Hn Hperm. split.
  - rewrite Hperm. apply all_edges_length.
  - destruct (mst_spanning_tree sort n c Hn Hperm) as (K & HK & Hlen & HKall & Hst).
    exists K. split_and!; try done. intros e He. rewrite Hperm. by apply HKall.
Qed.

Lemma mst_never_fails_witness :
  2 * length (insertion_sort (all_edges 2 no_edge)) = 2 * (2 - 1) ∧
  ∃ K, mst insertion_sort 2 no_edge = Some K ∧
       length K = 2 - 1 ∧
       (∀ e, e ∈ K → e ∈ insertion_sort (all_edges 2 no_edge)) ∧
       spanning_tree 2 (ends <$> K).
Proof.
  apply (mst_never_fails insertion_sort 2 no_edge).
  - lia.
  - apply insertion_sort_perm.
Defined.

(** The edges of finite cost, and what it means that they leave the graph
    in pieces. *)
Definition finite_edges (n : nat) (c : nat → nat → spec_float)
    : list (nat * nat) :=
  ends <$> filter (λ e, is_finite (cost e) = true) (all_edges n c).

Definition disconnected (n : nat) (c : nat → nat → spec_float) : Prop :=
  ¬ spans n (finite_edges n c).

(** C7, on a disconnected input: two vertices whose only edge costs infinity
    are disconnected, and [mst] returns that edge instead of failing. *)
Lemma mst_accepts_disconnected :
  disconnected 2 no_edge ∧
  mst insertion_sort 2 no_edge = Some [mkEdge 0 1 binary32.infinity].
Proof.
  split; [|by vm_compute].
  intros Hsp. specialize (Hsp 0 1 ltac:(lia) ltac:(lia)).
  by apply connected_nil in Hsp.
Qed.

(** ** The metric tour *)

(** C6. For [n >= 1] and any matrix, with or without the triangle
    inequality, and for any permutation [std::sort] leaves, [metric_tsp]
    returns a sequence of [n + 1] vertices that starts and ends at [0]
    and holds every vertex below [n] once among its first [n]
    positions. *)
Theorem metric_tsp_hamiltonian {F} `{FloatOps F}
    (sort : list (Edge F) → list (Edge F)) (n : nat) (c : nat → nat → F) :
  0 < n → sort (all_edges n c) ≡ₚ all_edges n c →
  ∃ t, metric_tsp sort n c = Some t ∧
       length t = n + 1 ∧ t !! 0 = Some 0 ∧ t !! n = Some 0 ∧
       take n t ≡ₚ seq 0 n ∧ hamiltonian_cycle n t.
Proof.
  intros Hn Hperm.
  destruct (metric_tsp_valid sort n c Hn Hperm) as (t & Ht & Hv).
  exists t. pose proof (valid_tour_hamiltonian n t Hn Hv).
  destruct Hv as (? & ? & ? & ?). done.
Qed.

Lemma metric_tsp_hamiltonian_witness :
  ∃ t, metric_tsp insertion_sort 4 demo = Some t ∧
       length t = 4 + 1 ∧ t !! 0 = Some 0 ∧ t !! 4 = Some 0 ∧
       take 4 t ≡ₚ seq 0 4 ∧ hamiltonian_cycle 4 t.
Proof.
  apply (metric_tsp_hamiltonian insertion_sort 4 demo).
  - lia.
  - apply insertion_sort_perm.
Defined.

(** C2. For [n >= 1] and a symmetric matrix whose costs [<] orders as
    their exact values and whose values obey the triangle inequality,
    and for any sorted permutation that [std::sort] leaves, the tour of
    [metric_tsp] costs at most twice any Hamiltonian cycle, hence at most
    twice the least one, and at most twice the tour of [tsp] on the same
    input. *)
Theorem metric_tsp_twice_optimal {F} `{FloatOps F}
    (sort : list (Edge F) → list (Edge F)) (n : nat) (c : nat → nat → F)
    (val : F → Z) :
  0 < n → sorts sort (all_edges n c) → ordered_by val n c →
  symmetric n c → triangle val n c →
  ∃ t, metric_tsp sort n c = Some t ∧ valid_tour n t ∧
       (∀ h, hamiltonian_cycle n h →
             (walk_weight val c t ≤ 2 * walk_weight val c h)%Z) ∧
       (∀ t', tsp n c = Some t' →
              (walk_weight val c t ≤ 2 * walk_weight val c t')%Z).
Proof.
  intros Hn Hsorts Hval Hsym Htri.
  destruct (metric_tsp_twice sort n c val Hsorts Hval Hsym Htri Hn)
    as (t & Ht & Hv & Hmin).
  exists t. split_and!; try done.
  intros t' Ht'. apply Hmin, valid_tour_hamiltonian; [done|].
  by eapply tsp_valid.
Qed.

Lemma metric_tsp_twice_optimal_witness :
  ∃ t, metric_tsp insertion_sort 4 trap = Some t ∧ valid_tour 4 t ∧
       (∀ h, hamiltonian_cycle 4 h →
             (walk_weight binary32.scaled trap t
              ≤ 2 * walk_weight binary32.scaled trap h)%Z) ∧
       (∀ t', tsp 4 trap = Some t' →
              (walk_weight binary32.scaled trap t
               ≤ 2 * walk_weight binary32.scaled trap t')%Z).
Proof.
  apply (metric_tsp_twice_optimal insertion_sort 4 trap binary32.scaled).
  - lia.
  - apply sorts_insertion_sort. vm_compute. reflexivity.
  - apply ordered_by_enum. by_compute.
  - apply symmetric_enum. by_compute.
  - apply triangle_enum. by_compute.
Defined.

(** ** The exact solver *)

(** The right-hand side of the recurrence in the words of the
    specification: the least [opt[s \ {i}][j] + cost[j][i]] over the [j]
    in [s] other than [i] and [0]. *)
Definition held_karp_candidates {F} `{FloatOps F} (n : nat) (opt : table F)
    (c : nat → nat → F) (s : Z) (i : nat) : list F :=
  (λ j, fadd (opt (Z.land s (Z.lnot (bit i))) j) (c j i))
    <$> filter (λ j, j ≠ i ∧ j ≠ 0) (subset_of n s).

Definition least {F} `{FloatOps F} (l : list F) : option F :=
  match l with
  | [] => None
  | x :: l' => Some (foldl (λ m y, if flt y m then y else m) x l')
  end.

Definition held_karp_rhs {F} `{FloatOps F} (n : nat) (opt : table F)
    (c : nat → nat → F) (s : Z) (i : nat) : option F :=
  least (held_karp_candidates n opt c s i).

(** C1, at the failing input: on the symmetric metric [trap], [tsp]
    returns the tour [0 3 1 2 0] of cost 13, while the Hamiltonian cycle
    [0 1 2 3 0] costs 11. *)
Theorem tsp_tour_not_minimal :
  symmetric 4 trap ∧ triangle binary32.scaled 4 trap ∧
  tsp 4 trap = Some [0; 3; 1; 2; 0] ∧
  total_cost 4 trap [0; 3; 1; 2; 0] = binary32.of_Z 13 ∧
  valid_tour 4 [0; 1; 2; 3; 0] ∧
  total_cost 4 trap [0; 1; 2; 3; 0] = binary32.of_Z 11 ∧
  flt (binary32.of_Z 11) (binary32.of_Z 13) = true ∧
  (walk_weight binary32.scaled trap [0; 1; 2; 3; 0]%nat
   < walk_weight binary32.scaled trap [0; 3; 1; 2; 0]%nat)%Z.
Proof.
  split_and!; try by vm_compute.
  - apply symmetric_enum. by_compute.
  - apply triangle_enum. by_compute.
Qed.

(** C4, at the failing input: on [detour] the entry for the subset
    [{0, 1, 2}] and the last vertex [2] is [cost[0][2] = 1], the term of
    [j = 0], and not the value 6 of the recurrence; the entries of the
    two-element subsets are [cost[0][i]]. *)
Theorem dp_entry_not_held_karp :
  fill_table 3 detour 3%Z 1 = detour 0 1 ∧
  fill_table 3 detour 5%Z 2 = detour 0 2 ∧
  fill_table 3 detour 7%Z 2 = binary32.of_Z 1 ∧
  fill_table 3 detour 7%Z 2
  = fadd (fill_table 3 detour 3%Z 0) (detour 0 2) ∧
  held_karp_rhs 3 (fill_table 3 detour) detour 7%Z 2 = Some (binary32.of_Z 6) ∧
  binary32.of_Z 1 ≠ binary32.of_Z 6.
Proof. split_and!; by vm_compute. Qed.

(** C8, at the failing input: with two vertices at the finite distance
    [FLT_MAX] the only candidate sum is infinite, no candidate is below
    [FLT_MAX], [best_k] stays unassigned and [tsp] reads it. *)
Theorem tsp_reads_unassigned_best_k :
  symmetric 2 far_apart ∧
  is_finite (far_apart 0 1) = true ∧
  fadd (fill_table 2 far_apart 3%Z 1) (far_apart 1 0) = binary32.infinity ∧
  flt binary32.infinity FLT_MAX = false ∧
  best_candidate 2 (fill_table 2 far_apart) far_apart 3%Z [true; false] 0
  = (FLT_MAX, None) ∧
  tsp 2 far_apart = None.
Proof.
  split_and!; try by vm_compute. apply symmetric_enum. by_compute.
Qed.

(** C9. With one vertex and [cost[0][0] = 0] both solvers return the
    tour [0 0], of total cost 0: [tsp] leaves its table as it was
    initialised and runs no reconstruction step, and [metric_tsp] starts
    from the empty tree of [mst]. *)
Theorem single_vertex_tour (sort : list (Edge spec_float) → list (Edge spec_float))
    (c : nat → nat → spec_float) :
  c 0 0 = fzero →
  tsp 1 c = Some [0; 0] ∧
  fill_table 1 c = (λ _ _, fzero) ∧
  reconstruct (1 - 1) 1 (fill_table 1 c) c 1%Z [true] [0] = Some [0] ∧
  mst sort 1 c = Some [] ∧
  metric_tsp sort 1 c = Some [0; 0] ∧
  total_cost 1 c [0; 0] = fzero.
Proof.
  intros Hc.
  assert (mst sort 1 c = Some []) as Hmst.
  { unfold mst. simpl. by destruct (sort _). }
  split_and!; try done.
  - unfold metric_tsp. by rewrite Hmst.
  - unfold total_cost. simpl. by rewrite Hc.
Qed.

Lemma single_vertex_tour_witness :
  tsp 1 (of_rows [[fzero]]) = Some [0; 0] ∧
  metric_tsp insertion_sort 1 (of_rows [[fzero]]) = Some [0; 0] ∧
  total_cost 1 (of_rows [[fzero]]) [0; 0] = fzero.
Proof.
  pose proof (single_vertex_tour insertion_sort (of_rows [[fzero]]) eq_refl)
    as (H1 & _ & _ & _ & H2 & H3).
  exact (conj H1 (conj H2 H3)).
Defined.

(** ** The scenario of [main] *)

#[global] Instance edge_eq_dec : EqDecision (Edge spec_float).
Proof. solve_decision. Defined.

Definition demo_tree : list (Edge spec_float) :=
  [mkEdge 0 1 (binary32.of_Z 1); mkEdge 1 2 (binary32.of_Z 2);
   mkEdge 0 3 (binary32.of_Z 2)].

(** Whatever order [std::sort] gives the edges of equal cost, [mst] and
    [metric_tsp] come out the same on [demo]. *)
Lemma demo_any_sort (sort : list (Edge spec_float) → list (Edge spec_float)) :
  sorts sort (all_edges 4 demo) →
  (∃ K, mst sort 4 demo = Some K ∧ K ≡ₚ demo_tree) ∧
  metric_tsp sort 4 demo = Some [0; 3; 1; 2; 0].
Proof.
  intros [Hperm Hsorted].
  assert (sort (all_edges 4 demo) ∈ permutations (all_edges 4 demo)) as Hin.
  { by apply permutations_Permutation. }
  apply sortedb_sorted in Hsorted.
  set (swapped := [mkEdge 0 1 (binary32.of_Z 1); mkEdge 0 3 (binary32.of_Z 2);
                   mkEdge 1 2 (binary32.of_Z 2)]).
  assert (Forall (λ p, sortedb p = true →
            (mst (λ _, p) 4 demo = Some demo_tree
             ∨ mst (λ _, p) 4 demo = Some swapped) ∧
            metric_tsp (λ _, p) 4 demo = Some [0; 3; 1; 2; 0])
          (permutations (all_edges 4 demo))) as Hall by by_compute.
  rewrite Forall_forall in Hall.
  destruct (Hall _ Hin Hsorted) as [Hmst Hmetric]. split; [|exact Hmetric].
  change (mst (λ _, sort (all_edges 4 demo)) 4 demo) with (mst sort 4 demo)
    in Hmst.
  destruct Hmst as [->| ->]; eexists; (split; [done|]); [done|].
  apply Permutation_skip, Permutation_swap.
Qed.

(** C5.  On the four-vertex input of [main], however ties
    are sorted: [mst] returns the edges [(0,1,1)], [(1,2,2)], [(0,3,2)],
    of total weight 5; [tsp] returns the tour [0 1 2 3 0] of cost 8; and
    [metric_tsp] returns the tour [0 3 1 2 0], whose cost is 11: at most
    16, and not 8. *)
Theorem demo_scenario (sort : list (Edge spec_float) → list (Edge spec_float)) :
  sorts sort (all_edges 4 demo) →
  (∃ K, mst sort 4 demo = Some K ∧ K ≡ₚ demo_tree ∧
        tree_weight binary32.scaled K = binary32.scaled (binary32.of_Z 5)) ∧
  foldl fadd fzero (cost <$> demo_tree) = binary32.of_Z 5 ∧
  tsp 4 demo = Some [0; 1; 2; 3; 0] ∧
  total_cost 4 demo [0; 1; 2; 3; 0] = binary32.of_Z 8 ∧
  metric_tsp sort 4 demo = Some [0; 3; 1; 2; 0] ∧
  total_cost 4 demo [0; 3; 1; 2; 0] = binary32.of_Z 11 ∧
  flt (binary32.of_Z 16) (binary32.of_Z 11) = false ∧
  binary32.of_Z 11 ≠ binary32.of_Z 8.
Proof.
  intros Hsorts. destruct (demo_any_sort sort Hsorts) as [(K & HK & HKp) Hm].
  split_and!; try by vm_compute.
  exists K. split_and!; [done..|]. unfold tree_weight. by rewrite HKp.
Qed.

Lemma demo_scenario_witness :
  (∃ K, mst insertion_sort 4 demo = Some K ∧ K ≡ₚ demo_tree ∧
        tree_weight binary32.scaled K = binary32.scaled (binary32.of_Z 5)) ∧
  metric_tsp insertion_sort 4 demo = Some [0; 3; 1; 2; 0] ∧
  total_cost 4 demo [0; 3; 1; 2; 0] = binary32.of_Z 11.
Proof.
  pose proof (demo_scenario insertion_sort sorts_demo)
    as (H1 & _ & _ & _ & H2 & H3 & _).
  exact (conj H1 (conj H2 H3)).
Defined.

(** C5, the cost of the metric tour: no admissible sort makes the tour of
    [metric_tsp] on this input cost 8. *)
Lemma demo_metric_cost_not_8 :
  ¬ ∃ sort t, sorts sort (all_edges 4 demo) ∧
              metric_tsp sort 4 demo = Some t ∧
              total_cost 4 demo t = binary32.of_Z 8.
Proof.
  intros (sort & t & Hsorts & Ht & Hcost).
  destruct (demo_any_sort sort Hsorts) as [_ Hm].
  rewrite Hm in Ht. injection Ht as <-. by vm_compute in Hcost.
Qed.


(** * Further properties *)

Lemma finite_enum n (c : nat → nat → spec_float) :
  Forall (λ i, Forall (λ j, finite_valid (c i j) = true) (seq 0 n)) (seq 0 n) →
  ∀ i j, i < j → j < n → finite_valid (c i j) = true.
Proof.
  intros Hall i j Hij Hj. assert (i < n) as Hi by lia.
  pose proof (forall_below _ _ Hall i Hi) as H1. simpl in H1.
  by apply (forall_below _ _ H1 j Hj).
Qed.

(** ** The comparison of edges *)

(** X1. On two finite binary32 costs, the comparison [cost < e.cost] of
    [Edge::operator<] holds exactly when the first value is the smaller
    one. *)
Theorem edge_less_exact (a b : Edge spec_float) :
  finite_valid (cost a) = true → finite_valid (cost b) = true →
  flt (cost a) (cost b) = true
  ↔ (binary32.scaled (cost a) < binary32.scaled (cost b))%Z.
Proof. intros Ha Hb. by apply SFltb_scaled. Qed.

Lemma edge_less_exact_witness :
  flt (binary32.of_Z 1) (binary32.of_Z 2) = true
  ↔ (binary32.scaled (binary32.of_Z 1) < binary32.scaled (binary32.of_Z 2))%Z.
Proof.
  apply (edge_less_exact (mkEdge 0 1 (binary32.of_Z 1))
                         (mkEdge 1 2 (binary32.of_Z 2)));
    vm_compute; reflexivity.
Defined.

(** ** Kruskal's tree on finite costs *)

(** X2. On a symmetric matrix of finite binary32 costs, with any sorted
    permutation from [std::sort], [mst] returns a spanning tree of least
    total cost; the edges it returns carry the costs of the matrix, with
    [head < tail < n]. *)
Theorem mst_minimal_on_finite_costs
    (sort : list (Edge spec_float) → list (Edge spec_float))
    (n : nat) (c : nat → nat → spec_float) :
  0 < n → sorts sort (all_edges n c) → symmetric n c →
  (∀ i j, i < j → j < n → finite_valid (c i j) = true) →
  ∃ K, mst sort n c = Some K ∧
       (∀ e, e ∈ K → head e < tail e ∧ tail e < n
                     ∧ cost e = c (head e) (tail e)) ∧
       spanning_tree n (ends <$> K) ∧
       ∀ T, spanning_tree n T →
            (tree_weight binary32.scaled K
             ≤ pairs_weight binary32.scaled c T)%Z.
Proof.
  intros Hn Hsorts Hsym Hfin.
  destruct (mst_minimal sort n c binary32.scaled Hsorts
              (ordered_by_finite n c Hfin) Hsym Hn)
    as (K & HK & Hlen & HKall & Hst & Hmin).
  exists K. split_and!; try done.
  intros e (i & j & Hij & Hj & ->)%HKall%elem_of_all_edges. done.
Qed.

Lemma mst_minimal_on_finite_costs_witness :
  ∃ K, mst insertion_sort 4 demo = Some K ∧
       (∀ e, e ∈ K → head e < tail e ∧ tail e < 4
                     ∧ cost e = demo (head e) (tail e)) ∧
       spanning_tree 4 (ends <$> K) ∧
       ∀ T, spanning_tree 4 T →
            (tree_weight binary32.scaled K
             ≤ pairs_weight binary32.scaled demo T)%Z.
Proof.
  apply (mst_minimal_on_finite_costs insertion_sort 4 demo).
  - lia.
  - apply sorts_insertion_sort. vm_compute. reflexivity.
  - apply symmetric_enum. by_compute.
  - apply finite_enum. by_compute.
Defined.

(** X3. The total cost of the tree of [mst] does not depend on the order
    in which [std::sort] leaves edges of equal cost. *)
Theorem mst_weight_any_tie_order {F} `{FloatOps F}
    (sort1 sort2 : list (Edge F) → list (Edge F))
    (n : nat) (c : nat → nat → F) (val : F → Z) :
  0 < n → sorts sort1 (all_edges n c) → sorts sort2 (all_edges n c) →
  ordered_by val n c → symmetric n c →
  ∃ K1 K2, mst sort1 n c = Some K1 ∧ mst sort2 n c = Some K2 ∧
           tree_weight val K1 = tree_weight val K2.
Proof.
  intros Hn Hs1 Hs2 Hval Hsym.
  destruct (mst_minimal sort1 n c val Hs1 Hval Hsym Hn)
    as (K1 & HK1 & _ & Hall1 & Hst1 & Hmin1).
  destruct (mst_minimal sort2 n c val Hs2 Hval Hsym Hn)
    as (K2 & HK2 & _ & Hall2 & Hst2 & Hmin2).
  exists K1, K2. split_and!; try done.
  specialize (Hmin1 _ Hst2). specialize (Hmin2 _ Hst1).
  rewrite <-(tree_weight_pairs n c) in Hmin1 by done.
  rewrite <-(tree_weight_pairs n c) in Hmin2 by done.
  lia.
Qed.

(** A second sort: insertion from the other end, which leaves edges of
    equal cost in the opposite order. *)
Definition insertion_sort_rev {F} `{FloatOps F} (l : list (Edge F))
    : list (Edge F) :=
  insertion_sort (reverse l).

Lemma mst_weight_any_tie_order_witness :
  ∃ K1 K2, mst insertion_sort 4 demo = Some K1 ∧
           mst insertion_sort_rev 4 demo = Some K2 ∧
           tree_weight binary32.scaled K1 = tree_weight binary32.scaled K2.
Proof.
  apply (mst_weight_any_tie_order insertion_sort insertion_sort_rev 4 demo
           binary32.scaled).
  - lia.
  - apply sorts_insertion_sort. vm_compute. reflexivity.
  - split.
    + unfold insertion_sort_rev.
      rewrite insertion_sort_perm. apply reverse_Permutation.
    + apply sortedb_sorted. vm_compute. reflexivity.
  - apply ordered_by_enum. by_compute.
  - apply symmetric_enum. by_compute.
Defined.

(** ** The adjacency lists *)

(** X4. From a tree of [n - 1] edges over the vertices below [n],
    [metric_tsp] builds [n] adjacency lists without leaving their
    array; the list of [u] holds exactly the tree neighbours of [u], and
    the lists hold [2 (n - 1)] entries in all. *)
Theorem adjacency_lists_of_tree {F} (n : nat) (tree : list (Edge F)) :
  length tree = n - 1 → within n (ends <$> tree) →
  ∃ adj, adjacency n tree = Some adj ∧ length adj = n ∧
         degree_sum adj = 2 * (n - 1) ∧
         ∀ u vs, adj !! u = Some vs →
                 ∀ v, v ∈ vs ↔ adjacent (ends <$> tree) u v.
Proof.
  intros Hlen Hw.
  destruct (adjacency_spec n tree Hlen Hw) as (adj & Hadj & Hl & Hd & Hn).
  exists adj. split_and!; try done. by rewrite Hd, length_fmap, Hlen.
Qed.

Lemma adjacency_lists_of_tree_witness :
  ∃ adj, adjacency 4 demo_tree = Some adj ∧ length adj = 4 ∧
         degree_sum adj = 2 * (4 - 1) ∧
         ∀ u vs, adj !! u = Some vs →
                 ∀ v, v ∈ vs ↔ adjacent (ends <$> demo_tree) u v.
Proof.
  apply (adjacency_lists_of_tree 4 demo_tree).
  - reflexivity.
  - intros u v Huv. vm_compute in Huv.
    repeat (apply elem_of_cons in Huv as [[= -> ->]|Huv]; [lia|]).
    by apply elem_of_nil in Huv.
Defined.

(** ** The tours *)

(** X5. Whenever [tsp] returns, that is, whenever every [best_k] it read
    had been assigned, the result is a tour: [n + 1] vertices, [0] first
    and last, every vertex once among the first [n]. *)
Theorem tsp_returns_tour {F} `{FloatOps F} (n : nat) (c : nat → nat → F)
    (t : list nat) :
  0 < n → tsp n c = Some t → valid_tour n t ∧ hamiltonian_cycle n t.
Proof.
  intros Hn Ht. pose proof (tsp_valid n c t Hn Ht) as Hv.
  split; [done|]. by apply valid_tour_hamiltonian.
Qed.

Lemma tsp_returns_tour_witness :
  valid_tour 4 [0; 1; 2; 3; 0] ∧ hamiltonian_cycle 4 [0; 1; 2; 3; 0].
Proof.
  apply (tsp_returns_tour 4 demo [0; 1; 2; 3; 0]).
  - lia.
  - vm_compute. reflexivity.
Defined.

(** X6. On a symmetric matrix of finite binary32 costs whose values obey
    the triangle inequality, the tour of [metric_tsp] costs at most twice
    any Hamiltonian cycle. *)
Theorem metric_tsp_twice_on_finite_costs
    (sort : list (Edge spec_float) → list (Edge spec_float))
    (n : nat) (c : nat → nat → spec_float) :
  0 < n → sorts sort (all_edges n c) → symmetric n c →
  (∀ i j, i < j → j < n → finite_valid (c i j) = true) →
  triangle binary32.scaled n c →
  ∃ t, metric_tsp sort n c = Some t ∧ valid_tour n t ∧
       ∀ h, hamiltonian_cycle n h →
            (walk_weight binary32.scaled c t
             ≤ 2 * walk_weight binary32.scaled c h)%Z.
Proof.
  intros Hn Hsorts Hsym Hfin Htri.
  exact (metric_tsp_twice sort n c binary32.scaled Hsorts
           (ordered_by_finite n c Hfin) Hsym Htri Hn).
Qed.

Lemma metric_tsp_twice_on_finite_costs_witness :
  ∃ t, metric_tsp insertion_sort 4 trap = Some t ∧ valid_tour 4 t ∧
       ∀ h, hamiltonian_cycle 4 h →
            (walk_weight binary32.scaled trap t
             ≤ 2 * walk_weight binary32.scaled trap h)%Z.
Proof.
  apply (metric_tsp_twice_on_finite_costs insertion_sort 4 trap).
  - lia.
  - apply sorts_insertion_sort. vm_compute. reflexivity.
  - apply symmetric_enum. by_compute.
  - apply finite_enum. by_compute.
  - apply triangle_enum. by_compute.
Defined.


(** * Path compression and union by rank *)

(** [rank[i]] *)
Definition rk (uf : UnionFind) (i : nat) : nat := default 0 (rank uf !! i).

(** Ranks grow strictly along every parent link. *)
Definition rank_ordered (uf : UnionFind) : Prop :=
  ∀ i p, parent uf !! i = Some p → p ≠ i → rk uf i < rk uf p.



(** [p'] is [p] with some elements re-pointed at their own roots. *)
Definition compressed (p p' : list nat) : Prop :=
  ∀ x, p' !! x = p !! x ∨ ∃ r, p' !! x = Some r ∧ root_of p x r ∧ r ≠ x.

(** [x] and [y] are in one set. *)
Definition same_set (p : list nat) (x y : nat) : Prop :=
  ∃ r, root_of p x r ∧ root_of p y r.

Lemma rank_ordered_root uf i r d :
  rank_ordered uf → root_at (parent uf) i r d → rk uf i + d ≤ rk uf r.
Proof.
  intros Hro. induction 1 as [i Hi|i j r d Hi Hne _ IH]; [lia|].
  specialize (Hro i j Hi Hne). lia.
Qed.

Lemma root_of_rank_lt uf x r :
  rank_ordered uf → root_of (parent uf) x r → r ≠ x → rk uf x < rk uf r.
Proof.
  intros Hro [d Hd]%root_of_at Hne.
  pose proof (rank_ordered_root uf x r d Hro Hd).
  destruct Hd; [done|lia].
Qed.

Lemma compressed_refl p : compressed p p.
Proof. intros x. by left. Qed.

Lemma compressed_trans p1 p2 p3 :
  same_partition p1 p2 → compressed p1 p2 → compressed p2 p3 →
  compressed p1 p3.
Proof.
  intros Hsame H12 H23 x.
  destruct (H23 x) as [->|(r & -> & Hr & Hne)]; [apply H12|].
  right. exists r. split_and!; [done| |done]. by apply Hsame.
Qed.

Lemma rank_ordered_compressed uf uf' :
  rank_ordered uf → rank uf' = rank uf →
  compressed (parent uf) (parent uf') → rank_ordered uf'.
Proof.
  intros Hro Hrk Hc i p Hi Hne. unfold rk. rewrite Hrk.
  destruct (Hc i) as [Heq|(r & Hr & Hroot & Hri)].
  - apply Hro; [congruence|done].
  - assert (p = r) as -> by congruence. by apply root_of_rank_lt.
Qed.


(** ** [find_set] *)

Lemma find_set_fuel_compressed fuel uf i r d :
  root_at (parent uf) i r d → d < fuel →
  ∃ uf', UF.find_set_fuel fuel uf i = Some (uf', r) ∧
    rank uf' = rank uf ∧
    parent uf' !! i = Some r ∧
    compressed (parent uf) (parent uf').
Proof.
  intros Hr. revert fuel.
  induction Hr as [i Hi|i j r d Hi Hne Hj IH]; intros [|fuel] Hfuel; try lia.
  - exists uf. simpl. rewrite Hi. simpl. rewrite decide_False; [|naive_solver].
    split_and!; try done. apply compressed_refl.
  - destruct (IH fuel ltac:(lia)) as (uf' & Hfs & Hrank & Hpj & Hc).
    assert (length (parent uf') = length (parent uf)) as Hlen.
    { destruct (find_set_fuel_spec fuel uf j r d Hj ltac:(lia))
        as (uf0 & Hfs0 & _ & Hlen0 & _).
      rewrite Hfs in Hfs0. by injection Hfs0 as ->. }
    assert (i < length (parent uf')) as Hlt.
    { rewrite Hlen. by eapply lookup_lt_Some. }
    exists (mkUF (<[i := r]> (parent uf')) (rank uf')).
    simpl. rewrite Hi. simpl. rewrite decide_True; [|done].
    rewrite Hfs. simpl. rewrite list_lookup_insert_eq; [|done]. simpl.
    split_and!; try done.
    intros x. destruct (decide (x = i)) as [->|Hxi].
    + right. exists r. rewrite list_lookup_insert_eq; [|done].
      split_and!; [done| |].
      * eapply root_step; [done..|]. apply root_of_at. eauto.
      * intros ->. assert (root_of (parent uf) j i) as Hji.
        { apply root_of_at. eauto. }
        apply root_of_root in Hji. congruence.
    + rewrite list_lookup_insert_ne; [|done]. apply Hc.
Qed.

Lemma find_set_fuel_fixed fuel uf i r :
  parent uf !! i = Some r → parent uf !! r = Some r → 1 < fuel →
  UF.find_set_fuel fuel uf i = Some (uf, r).
Proof.
  intros Hi Hr Hfuel. destruct fuel as [|[|fuel]]; try lia.
  cbn [UF.find_set_fuel]. rewrite Hi. cbn [mbind option_bind].
  destruct (decide (r ≠ i)) as [Hne|Heq]; [|done].
  rewrite Hr. cbn [mbind option_bind].
  rewrite decide_False; [|naive_solver]. cbn [mbind option_bind].
  cbn [parent]. rewrite list_insert_id; [|done].
  rewrite Hi. cbn [mbind option_bind]. by destruct uf.
Qed.

Lemma find_set_compressed uf i :
  is_forest uf → i < length (parent uf) →
  ∃ uf' r, UF.find_set uf i = Some (uf', r) ∧
    root_of (parent uf) i r ∧
    rank uf' = rank uf ∧
    length (parent uf') = length (parent uf) ∧
    is_forest uf' ∧
    same_partition (parent uf) (parent uf') ∧
    parent uf' !! i = Some r ∧
    compressed (parent uf) (parent uf').
Proof.
  intros Hf Hi.
  destruct (find_set_spec uf i Hf Hi)
    as (uf' & r & Hfs & Hr & Hrk & Hlen & Hf' & Hsame).
  pose proof Hr as [d Hd]%root_of_at.
  destruct (find_set_fuel_compressed _ uf i r d Hd (root_at_bound _ _ _ _ Hd))
    as (uf'' & Hfs' & _ & Hpi & Hc).
  unfold UF.find_set in Hfs. rewrite Hfs in Hfs'. injection Hfs' as <-.
  exists uf', r. split_and!; done.
Qed.

(** ** [join] *)

(** What [join] does, after its two calls of [find_set]. *)
Lemma join_unfold uf i j :
  is_forest uf → i < length (parent uf) → j < length (parent uf) →
  ∃ uf2 ri rj,
    root_of (parent uf) i ri ∧ root_of (parent uf) j rj ∧
    rank uf2 = rank uf ∧ length (parent uf2) = length (parent uf) ∧
    is_forest uf2 ∧ same_partition (parent uf) (parent uf2) ∧
    compressed (parent uf) (parent uf2) ∧
    UF.join uf i j = Some
      (if decide (rk uf rj < rk uf ri) then
         mkUF (<[rj := ri]> (parent uf2)) (rank uf)
       else if decide (rk uf ri = rk uf rj) then
         mkUF (<[ri := rj]> (parent uf2)) (<[rj := rk uf rj + 1]> (rank uf))
       else mkUF (<[ri := rj]> (parent uf2)) (rank uf)).
Proof.
  intros Hf Hi Hj.
  destruct (find_set_compressed uf i Hf Hi)
    as (uf1 & ri & Hfs1 & Hri & Hrk1 & Hlen1 & Hf1 & Hp1 & _ & Hc1).
  rewrite <-Hlen1 in Hj.
  destruct (find_set_compressed uf1 j Hf1 Hj)
    as (uf2 & rj & Hfs2 & Hrj & Hrk2 & Hlen2 & Hf2 & Hp2 & _ & Hc2).
  exists uf2, ri, rj.
  assert (same_partition (parent uf) (parent uf2)) as Hp.
  { intros x r. by rewrite (Hp1 x r), (Hp2 x r). }
  pose proof (root_of_lt _ _ _ Hri) as [_ Hlti].
  pose proof (root_of_lt _ _ _ Hrj) as [_ Hltj].
  rewrite Hlen1 in Hltj.
  destruct Hf as [Hlrk _].
  destruct (lookup_lt_is_Some_2 (rank uf) ri ltac:(lia)) as [ki Hki].
  destruct (lookup_lt_is_Some_2 (rank uf) rj ltac:(lia)) as [kj Hkj].
  split_and!; try done.
  - by apply Hp1.
  - congruence.
  - congruence.
  - exact (compressed_trans _ _ _ Hp1 Hc1 Hc2).
  - unfold UF.join. rewrite Hfs1. cbn [mbind option_bind].
    rewrite Hfs2. cbn [mbind option_bind].
    rewrite Hrk2, Hrk1, Hki, Hkj. cbn [mbind option_bind].
    unfold rk. rewrite Hki, Hkj. simpl.
    destruct (decide (kj < ki)); [done|].
    destruct (decide (ki = kj)); simpl; by rewrite ?Hrk2, ?Hrk1.
Qed.

Lemma rk_insert_ne uf uf' a k x :
  rank uf' = <[a := k]> (rank uf) → x ≠ a → rk uf' x = rk uf x.
Proof.
  intros Hrk Hne. unfold rk. rewrite Hrk.
  by rewrite list_lookup_insert_ne.
Qed.

Lemma rk_insert_eq uf uf' a k :
  rank uf' = <[a := k]> (rank uf) → a < length (rank uf) → rk uf' a = k.
Proof.
  intros Hrk Hlt. unfold rk. rewrite Hrk.
  by rewrite list_lookup_insert_eq.
Qed.

(** Linking a root below another keeps the ranks ordered when the new
    parent has the larger rank. *)
Lemma rank_ordered_link uf2 rks a b :
  rank_ordered uf2 →
  parent uf2 !! a = Some a → parent uf2 !! b = Some b →
  (∀ x, x ≠ b → default 0 (rks !! x) = rk uf2 x) →
  rk uf2 b ≤ default 0 (rks !! b) →
  (a ≠ b → rk uf2 a < default 0 (rks !! b)) →
  rank_ordered (mkUF (<[a := b]> (parent uf2)) rks).
Proof.
  intros Hro Ha Hb Hother Hb' Hab x p Hx Hne. unfold rk. simpl in *.
  destruct (decide (x = a)) as [->|Hxa].
  - apply lookup_lt_Some in Ha as Hlt.
    rewrite list_lookup_insert_eq in Hx by done. injection Hx as <-.
    rewrite (Hother a) by done. by apply Hab.
  - rewrite list_lookup_insert_ne in Hx by done.
    assert (x ≠ b) as Hxb by (intros ->; congruence).
    rewrite (Hother x Hxb). specialize (Hro x p Hx Hne).
    destruct (decide (p = b)) as [->|Hpb]; [lia|].
    by rewrite (Hother p Hpb).
Qed.

Lemma join_rank_ordered uf i j :
  is_forest uf → rank_ordered uf →
  i < length (parent uf) → j < length (parent uf) →
  ∃ uf', UF.join uf i j = Some uf' ∧ rank_ordered uf'.
Proof.
  intros Hf Hro Hi Hj.
  destruct (join_unfold uf i j Hf Hi Hj)
    as (uf2 & ri & rj & Hri & Hrj & Hrk2 & Hlen2 & Hf2 & Hp & Hc & Hjoin).
  eexists. split; [exact Hjoin|].
  assert (rank_ordered uf2) as Hro2 by by eapply rank_ordered_compressed.
  assert (∀ x, rk uf2 x = rk uf x) as Hrkeq.
  { intros x. unfold rk. by rewrite Hrk2. }
  pose proof (root_of_root _ _ _ (proj1 (Hp _ _) Hri)) as Hrooti.
  pose proof (root_of_root _ _ _ (proj1 (Hp _ _) Hrj)) as Hrootj.
  pose proof (root_of_lt _ _ _ Hrj) as [_ Hltj].
  destruct Hf as [Hlrk _].
  destruct (decide (rk uf rj < rk uf ri)) as [Hlt|Hge].
  - apply rank_ordered_link; try done.
    + rewrite Hrkeq. fold (rk uf ri). lia.
    + intros _. rewrite Hrkeq. by fold (rk uf ri).
  - destruct (decide (rk uf ri = rk uf rj)) as [Heq|Hne].
    + apply rank_ordered_link; try done.
      * intros x Hx. rewrite list_lookup_insert_ne by done.
        by rewrite Hrkeq.
      * rewrite list_lookup_insert_eq by lia. simpl. rewrite Hrkeq. lia.
      * intros _. rewrite list_lookup_insert_eq by lia. simpl.
        rewrite Hrkeq. lia.
    + apply rank_ordered_link; try done.
      * rewrite Hrkeq. fold (rk uf rj). lia.
      * intros _. rewrite Hrkeq. fold (rk uf rj). lia.
Qed.



(** ** The constructor *)



(** ** The depth of a balanced forest *)


(** ** The sets after [join] *)

Lemma same_set_join uf i j :
  is_forest uf → i < length (parent uf) → j < length (parent uf) →
  ∃ uf', UF.join uf i j = Some uf' ∧
    ∀ x y, same_set (parent uf') x y ↔
           same_set (parent uf) x y
           ∨ same_set (parent uf) x i ∧ same_set (parent uf) y j
           ∨ same_set (parent uf) x j ∧ same_set (parent uf) y i.
Proof.
  intros Hf Hi Hj.
  destruct (join_spec uf i j Hf Hi Hj)
    as (uf' & ri & rj & rn & Hjoin & Hri & Hrj & Hrn & Hlen & Hf' & Hfw).
  exists uf'. split; [done|]. intros x y. split.
  - intros (r & Hx & Hy).
    pose proof (root_of_lt _ _ _ Hx) as [Hltx _].
    pose proof (root_of_lt _ _ _ Hy) as [Hlty _].
    rewrite Hlen in Hltx, Hlty.
    destruct (proj2 Hf x Hltx) as [rx Hrx].
    destruct (proj2 Hf y Hlty) as [ry Hry].
    pose proof (Hfw x rx Hrx) as Hx'. pose proof (Hfw y ry Hry) as Hy'.
    pose proof (root_of_det _ _ _ _ Hx Hx') as Ex.
    pose proof (root_of_det _ _ _ _ Hy Hy') as Ey.
    destruct (decide (rx = ry)) as [->|Hne]; [left; by exists ry|].
    right.
    destruct (decide (rx = ri ∨ rx = rj)) as [Hdx|Hdx],
             (decide (ry = ri ∨ ry = rj)) as [Hdy|Hdy].
    + destruct Hdx as [->| ->], Hdy as [->| ->]; try done.
      * left. split; [by exists ri|by exists rj].
      * right. split; [by exists rj|by exists ri].
    + exfalso. apply Hdy. subst r. rewrite <-Ey. done.
    + exfalso. apply Hdx. subst r. rewrite Ey. done.
    + congruence.
  - assert (∀ a, root_of (parent uf) a ri ∨ root_of (parent uf) a rj →
              root_of (parent uf') a rn) as Hmove.
    { intros a [Ha|Ha]; specialize (Hfw _ _ Ha);
        by rewrite decide_True in Hfw by auto. }
    intros [(r & Hx & Hy)|[[(r & Hx & Hi') (r' & Hy & Hj')]
                          |[(r & Hx & Hj') (r' & Hy & Hi')]]].
    + eexists. split; by apply Hfw.
    + rewrite (root_of_det _ _ _ _ Hi' Hri) in Hx.
      rewrite (root_of_det _ _ _ _ Hj' Hrj) in Hy.
      exists rn. split; apply Hmove; auto.
    + rewrite (root_of_det _ _ _ _ Hj' Hrj) in Hx.
      rewrite (root_of_det _ _ _ _ Hi' Hri) in Hy.
      exists rn. split; apply Hmove; auto.
Qed.

(** ** Properties of the structure *)

(** X7. In a forest, [find_set i] leaves [parent[i]] at the root it
    returns, re-points elements only at their own roots, leaves the
    ranks alone, and a second call returns the same root without
    changing the structure again. *)
Theorem find_set_path_compression (uf : UnionFind) (i : nat) :
  is_forest uf → i < length (parent uf) →
  ∃ uf' r, UF.find_set uf i = Some (uf', r) ∧
    parent uf' !! i = Some r ∧
    rank uf' = rank uf ∧
    compressed (parent uf) (parent uf') ∧
    UF.find_set uf' i = Some (uf', r).
Proof.
  intros Hf Hi.
  destruct (find_set_compressed uf i Hf Hi)
    as (uf' & r & Hfs & Hr & Hrk & Hlen & Hf' & Hsame & Hpi & Hc).
  exists uf', r. split_and!; try done.
  assert (parent uf' !! r = Some r) as Hrr.
  { eapply root_of_root. by apply Hsame. }
  destruct (decide (r = i)) as [->|Hne].
  - unfold UF.find_set. destruct (length (parent uf')) eqn:Hl; [lia|].
    simpl. rewrite Hpi. simpl. by rewrite decide_False by naive_solver.
  - apply find_set_fuel_fixed; [done..|].
    apply lookup_lt_Some in Hrr. lia.
Qed.

Lemma find_set_path_compression_witness :
  ∃ uf' r, UF.find_set (mkUF [0; 0; 1; 2] [3; 2; 1; 0]) 3 = Some (uf', r) ∧
    parent uf' !! 3 = Some r ∧
    rank uf' = [3; 2; 1; 0] ∧
    compressed [0; 0; 1; 2] (parent uf') ∧
    UF.find_set uf' 3 = Some (uf', r).
Proof.
  apply (find_set_path_compression (mkUF [0; 0; 1; 2] [3; 2; 1; 0]) 3).
  - split; [reflexivity|]. simpl. intros i Hi. exists 0.
    destruct i as [|[|[|[|i]]]]; [| | | |lia].
    + by apply root_self.
    + eapply root_step; [reflexivity|lia|by apply root_self].
    + eapply root_step; [reflexivity|lia|].
      eapply root_step; [reflexivity|lia|by apply root_self].
    + eapply root_step; [reflexivity|lia|].
      eapply root_step; [reflexivity|lia|].
      eapply root_step; [reflexivity|lia|by apply root_self].
  - simpl. lia.
Defined.



(** X9. Whether or not the two elements are already in one set, [join]
    keeps the ranks growing along parent links, so that afterwards no
    element is further from its root than the rank of that root. *)
Theorem join_keeps_rank_order (uf : UnionFind) (i j : nat) :
  is_forest uf → rank_ordered uf →
  i < length (parent uf) → j < length (parent uf) →
  ∃ uf', UF.join uf i j = Some uf' ∧ rank_ordered uf' ∧
    ∀ x r d, root_at (parent uf') x r d → rk uf' x + d ≤ rk uf' r.
Proof.
  intros Hf Hro Hi Hj.
  destruct (join_rank_ordered uf i j Hf Hro Hi Hj) as (uf' & Hjoin & Hro').
  exists uf'. split_and!; [done..|].
  intros x r d. by apply rank_ordered_root.
Qed.

Lemma join_keeps_rank_order_witness :
  ∃ uf', UF.join (mkUF [0; 0] [1; 0]) 0 1 = Some uf' ∧ rank_ordered uf' ∧
    ∀ x r d, root_at (parent uf') x r d → rk uf' x + d ≤ rk uf' r.
Proof.
  apply (join_keeps_rank_order (mkUF [0; 0] [1; 0]) 0 1).
  - split; [reflexivity|]. simpl. intros i Hi. exists 0.
    destruct i as [|[|i]]; [| |lia].
    + by apply root_self.
    + eapply root_step; [reflexivity|lia|by apply root_self].
  - intros i p Hi Hne. simpl in Hi.
    destruct i as [|[|i]]; simplify_eq/=; try done. unfold rk. simpl. lia.
  - simpl. lia.
  - simpl. lia.
Defined.

(** X10. [join] on two elements that are already in one set, with root
    [r], still adds one to [rank[r]]; the sets stay as they were. *)
Theorem join_same_set_bumps_rank (uf : UnionFind) (i j r : nat) :
  is_forest uf → root_of (parent uf) i r → root_of (parent uf) j r →
  ∃ uf', UF.join uf i j = Some uf' ∧
    rank uf' = <[r := rk uf r + 1]> (rank uf) ∧
    rk uf' r = rk uf r + 1 ∧
    compressed (parent uf) (parent uf') ∧
    same_partition (parent uf) (parent uf').
Proof.
  intros Hf Hi Hj.
  pose proof (root_of_lt _ _ _ Hi) as [Hlti Hltr].
  pose proof (root_of_lt _ _ _ Hj) as [Hltj _].
  destruct (join_unfold uf i j Hf Hlti Hltj)
    as (uf2 & ri & rj & Hri & Hrj & Hrk2 & Hlen2 & Hf2 & Hp & Hc & Hjoin).
  assert (ri = r) as -> by by eapply root_of_det.
  assert (rj = r) as -> by by eapply root_of_det.
  rewrite decide_False in Hjoin by lia. rewrite decide_True in Hjoin by done.
  assert (parent uf2 !! r = Some r) as Hrr.
  { eapply root_of_root. by apply Hp. }
  rewrite list_insert_id in Hjoin by done.
  eexists. split; [exact Hjoin|]. simpl. split_and!; try done.
  unfold rk at 1. simpl. rewrite list_lookup_insert_eq; [done|].
  destruct Hf as [-> _]. done.
Qed.

Lemma join_same_set_bumps_rank_witness :
  ∃ uf', UF.join (mkUF [0] [0]) 0 0 = Some uf' ∧
    rank uf' = <[0 := rk (mkUF [0] [0]) 0 + 1]> [0] ∧
    rk uf' 0 = rk (mkUF [0] [0]) 0 + 1 ∧
    compressed [0] (parent uf') ∧
    same_partition [0] (parent uf').
Proof.
  apply (join_same_set_bumps_rank (mkUF [0] [0]) 0 0 0).
  - split; [reflexivity|]. simpl. intros i Hi. exists 0.
    destruct i as [|i]; [|lia]. by apply root_self.
  - by apply root_self.
  - by apply root_self.
Defined.

(** X11. After [join i j] two elements are in one set exactly when they
    were before, or one was with [i] and the other with [j]; so
    [join j i] yields the same sets. *)
Theorem join_unites_sets (uf : UnionFind) (i j : nat) :
  is_forest uf → i < length (parent uf) → j < length (parent uf) →
  ∃ uf1 uf2, UF.join uf i j = Some uf1 ∧ UF.join uf j i = Some uf2 ∧
    (∀ x y, same_set (parent uf1) x y ↔
            same_set (parent uf) x y
            ∨ same_set (parent uf) x i ∧ same_set (parent uf) y j
            ∨ same_set (parent uf) x j ∧ same_set (parent uf) y i) ∧
    (∀ x y, same_set (parent uf1) x y ↔ same_set (parent uf2) x y).
Proof.
  intros Hf Hi Hj.
  destruct (same_set_join uf i j Hf Hi Hj) as (uf1 & Hj1 & H1).
  destruct (same_set_join uf j i Hf Hj Hi) as (uf2 & Hj2 & H2).
  exists uf1, uf2. split_and!; try done.
  intros x y. rewrite H1, H2. tauto.
Qed.

Lemma join_unites_sets_witness :
  ∃ uf1 uf2, UF.join (mkUF [0; 1] [0; 0]) 0 1 = Some uf1 ∧
    UF.join (mkUF [0; 1] [0; 0]) 1 0 = Some uf2 ∧
    (∀ x y, same_set (parent uf1) x y ↔
            same_set [0; 1] x y
            ∨ same_set [0; 1] x 0 ∧ same_set [0; 1] y 1
            ∨ same_set [0; 1] x 1 ∧ same_set [0; 1] y 0) ∧
    (∀ x y, same_set (parent uf1) x y ↔ same_set (parent uf2) x y).
Proof.
  apply (join_unites_sets (mkUF [0; 1] [0; 0]) 0 1).
  - split; [reflexivity|]. simpl. intros i Hi.
    destruct i as [|[|i]]; [| |lia].
    + exists 0. by apply root_self.
    + exists 1. by apply root_self.
  - simpl. lia.
  - simpl. lia.
Defined.


(** * More on [Edge::operator<] and [mst] *)

(** ** The comparison as a strict weak ordering *)

Definition nan : spec_float := S754_nan.

(** What [std::sort] requires of [operator<]. *)
Definition strict_weak_order {A} (lt : A → A → bool) (P : A → Prop) : Prop :=
  (∀ a, P a → lt a a = false) ∧
  (∀ a b c, P a → P b → P c →
     lt a b = true → lt b c = true → lt a c = true) ∧
  (∀ a b c, P a → P b → P c →
     lt a b = false → lt b a = false → lt b c = false → lt c b = false →
     lt a c = false ∧ lt c a = false).

Lemma SFltb_false_scaled x y :
  finite_valid x = true → finite_valid y = true →
  SFltb x y = false ↔ (binary32.scaled y ≤ binary32.scaled x)%Z.
Proof.
  intros Hx Hy. pose proof (SFltb_scaled x y Hx Hy) as Hlt.
  destruct (SFltb x y).
  - split; [done|]. intros ?. assert (binary32.scaled x < binary32.scaled y)%Z
      by by apply Hlt. lia.
  - split; [|done]. intros _.
    destruct (Z.le_gt_cases (binary32.scaled y) (binary32.scaled x)) as [?|Hgt];
      [done|].
    by apply Hlt in Hgt.
Qed.

(** ** What [mst] reads *)

Lemma bind_ext_in {A B} (f g : A → list B) (l : list A) :
  (∀ x, x ∈ l → f x = g x) → l ≫= f = l ≫= g.
Proof.
  induction l as [|x l IH]; intros Hfg; [done|].
  rewrite !bind_cons, (Hfg x), IH; [done| |set_solver].
  intros y Hy. apply Hfg. set_solver.
Qed.

Lemma all_edges_ext {F} `{FloatOps F} n (c c' : nat → nat → F) :
  (∀ i j, i < j → j < n → c i j = c' i j) → all_edges n c = all_edges n c'.
Proof.
  intros Hc. unfold all_edges. apply bind_ext_in.
  intros i [_ Hi]%elem_of_seq. apply bind_ext_in.
  intros j [? ?]%elem_of_seq. rewrite Hc; [done|lia..].
Qed.

(** ** The order of the tree edges *)

Lemma mst_scan_sublist {F} `{FloatOps F} n (rest : list (Edge F)) :
  ∀ forest tree size K,
    mst_scan n rest forest tree size = Some K →
    ∃ K', K = tree ++ K' ∧ K' `sublist_of` rest.
Proof.
  induction rest as [|e rest IH]; intros forest tree size K; simpl.
  - destruct (decide (size < n - 1)); [done|]. intros [= <-].
    exists []. by rewrite app_nil_r.
  - destruct (decide (size < n - 1)); last first.
    { intros [= <-]. exists []. rewrite app_nil_r. split; [done|].
      apply sublist_nil_l. }
    destruct (UF.find_set forest (head e)) as [[f1 ru]|]; [|done]. simpl.
    destruct (UF.find_set f1 (tail e)) as [[f2 rv]|]; [|done]. simpl.
    destruct (decide (ru ≠ rv)).
    + destruct (UF.join f2 (head e) (tail e)) as [f3|]; [|done]. simpl.
      intros (K' & -> & Hsub)%IH. exists (e :: K').
      rewrite <-app_assoc. split; [done|]. by apply sublist_skip.
    + intros (K' & -> & Hsub)%IH. exists K'. split; [done|].
      by apply sublist_cons.
Qed.

Lemma sortedb_sublist {F} `{FloatOps F} (l1 l2 : list (Edge F)) :
  l1 `sublist_of` l2 → sortedb l2 = true → sortedb l1 = true.
Proof.
  induction 1 as [|x l1 l2 Hsub IH|x l1 l2 Hsub IH]; simpl; [done|..].
  - rewrite !andb_true_iff, !forallb_forall. intros [Hx Hs]. split; [|auto].
    intros b Hb. apply Hx. apply list_elem_of_In.
    apply list_elem_of_In in Hb. eapply sublist_submseteq, submseteq_Permutation in Hsub.
    destruct Hsub as [k Hk]. rewrite Hk. set_solver.
  - rewrite andb_true_iff. intros [_ Hs]. auto.
Qed.

(** ** Properties *)

(** X12. On finite binary32 costs, [Edge::operator<] is a strict weak
    ordering, as [std::sort] requires: it is irreflexive and transitive,
    and so is being unordered. *)
Theorem edge_less_strict_weak_order :
  strict_weak_order (λ a b : Edge spec_float, flt (cost a) (cost b))
                    (λ a, finite_valid (cost a) = true).
Proof.
  split_and!.
  - intros a Ha. apply SFltb_false_scaled; [done..|lia].
  - intros a b c Ha Hb Hc Hab Hbc.
    apply SFltb_scaled in Hab; [|done..]. apply SFltb_scaled in Hbc; [|done..].
    apply SFltb_scaled; [done..|lia].
  - intros a b c Ha Hb Hc Hab Hba Hbc Hcb.
    apply SFltb_false_scaled in Hab; [|done..].
    apply SFltb_false_scaled in Hba; [|done..].
    apply SFltb_false_scaled in Hbc; [|done..].
    apply SFltb_false_scaled in Hcb; [|done..].
    split; apply SFltb_false_scaled; try done; lia.
Qed.

(** X13. A NaN cost is neither below nor above any cost, itself
    included; as [1 < 2] holds, being unordered is then not transitive,
    and [operator<] is no strict weak ordering on costs that include a
    NaN. *)
Theorem edge_less_nan_unordered (x : spec_float) :
  flt nan x = false ∧ flt x nan = false ∧
  ¬ strict_weak_order (λ a b : Edge spec_float, flt (cost a) (cost b))
                      (λ _, True).
Proof.
  split_and!; [done|by destruct x|].
  intros (_ & _ & Hinc).
  destruct (Hinc (mkEdge 0 1 (binary32.of_Z 1)) (mkEdge 0 2 nan)
              (mkEdge 1 2 (binary32.of_Z 2)) I I I) as [Hlt _]; try done.
Qed.

(** X14. [mst] and [metric_tsp] read the matrix only above its
    diagonal: two matrices that agree on every [cost[i][j]] with
    [i < j < n] give the same tree and the same tour. *)
Theorem mst_reads_upper_triangle {F} `{FloatOps F}
    (sort : list (Edge F) → list (Edge F)) (n : nat)
    (c c' : nat → nat → F) :
  (∀ i j, i < j → j < n → c i j = c' i j) →
  mst sort n c = mst sort n c' ∧ metric_tsp sort n c = metric_tsp sort n c'.
Proof.
  intros Hc. unfold metric_tsp, mst. by rewrite (all_edges_ext n c c' Hc).
Qed.

(** The matrix [demo] with its diagonal and lower triangle cleared. *)
Definition demo_upper (i j : nat) : spec_float :=
  if decide (i < j) then demo i j else fzero.

Lemma mst_reads_upper_triangle_witness :
  mst insertion_sort 4 demo = mst insertion_sort 4 demo_upper ∧
  metric_tsp insertion_sort 4 demo = metric_tsp insertion_sort 4 demo_upper.
Proof.
  apply (mst_reads_upper_triangle insertion_sort 4 demo demo_upper).
  intros i j Hij Hj. unfold demo_upper. by rewrite decide_True.
Defined.

(** X15. [mst] returns the tree edges in the order in which the sorted
    list holds them: the tree is a subsequence of the list, so its costs
    never decrease along it, and no edge occurs twice. *)
Theorem mst_edges_in_sorted_order {F} `{FloatOps F}
    (sort : list (Edge F) → list (Edge F)) (n : nat) (c : nat → nat → F) :
  0 < n → sorts sort (all_edges n c) →
  ∃ K, mst sort n c = Some K ∧
       K `sublist_of` sort (all_edges n c) ∧
       sorted_by_cost K ∧ NoDup (ends <$> K).
Proof.
  intros Hn [Hperm Hsorted].
  destruct (mst_spanning_tree sort n c Hn Hperm)
    as (K & HK & Hlen & HKall & Hw & Hac & Hsp).
  exists K. split; [done|].
  assert (K `sublist_of` sort (all_edges n c)) as Hsub.
  { unfold mst in HK. destruct (UF.init n) as [forest|]; [|done].
    simpl in HK. by apply mst_scan_sublist in HK as (K' & -> & Hsub). }
  split_and!; [done| |].
  - apply sortedb_sorted. eapply sortedb_sublist; [done|].
    by apply sortedb_sorted.
  - apply NoDup_alt. intros i j p Hi Hj.
    destruct (decide (i = j)) as [|Hne]; [done|]. exfalso.
    assert (∀ i j, i < j → (ends <$> K) !! i = Some p →
              (ends <$> K) !! j = Some p → False) as Hdup.
    { clear i j Hi Hj Hne. intros i j Hij Hi Hj.
      pose proof (take_drop_middle _ _ _ Hi) as Hsplit.
      destruct p as [u v].
      apply (Hac (take i (ends <$> K)) u v (drop (S i) (ends <$> K)));
        [done|].
      apply connected_edge. apply elem_of_app. right.
      apply (list_elem_of_lookup_2 _ (j - S i)).
      rewrite lookup_drop. by replace (S i + (j - S i)) with j by lia. }
    destruct (decide (i < j)); [by eapply (Hdup i j)|].
    eapply (Hdup j i); [lia|done..].
Qed.

Lemma mst_edges_in_sorted_order_witness :
  ∃ K, mst insertion_sort 4 demo = Some K ∧
       K `sublist_of` insertion_sort (all_edges 4 demo) ∧
       sorted_by_cost K ∧ NoDup (ends <$> K).
Proof.
  apply (mst_edges_in_sorted_order insertion_sort 4 demo).
  - lia.
  - apply sorts_insertion_sort. vm_compute. reflexivity.
Defined.

(** X26. In the tree of [mst], any two vertices [i < j] are joined by
    tree edges none of which costs more than the edge between [i] and
    [j] itself: an edge is left out only when cheaper or equal edges
    already join its ends. *)
Theorem mst_cycle_property {F} `{FloatOps F}
    (sort : list (Edge F) → list (Edge F)) (n : nat) (c : nat → nat → F)
    (val : F → Z) :
  0 < n → sorts sort (all_edges n c) → ordered_by val n c →
  ∃ K, mst sort n c = Some K ∧
    ∀ i j, i < j → j < n →
      connected
        (ends <$> filter (λ e, (val (cost e) ≤ val (c i j))%Z) K) i j.
Proof.
  intros Hn Hsorts Hval. pose proof Hsorts as [Hperm _].
  pose (Hdec := le_val_dec val).
  destruct (mst_scan_post sort n c Hperm (le_val val)
              (sorted_le_val sort n c val Hsorts Hval))
    as (K & HK & Hlen & HKL & Hcount & Hbelow).
  exists K. split; [done|]. intros i j Hij Hj.
  assert (mkEdge i j (c i j) ∈ sort (all_edges n c)) as He.
  { rewrite Hperm. apply elem_of_all_edges. eauto. }
  exact (Hbelow _ He).
Qed.

Lemma mst_cycle_property_witness :
  ∃ K, mst insertion_sort 4 demo = Some K ∧
    ∀ i j, i < j → j < 4 →
      connected
        (ends <$> filter (λ e, (binary32.scaled (cost e)
                                ≤ binary32.scaled (demo i j))%Z) K) i j.
Proof.
  apply (mst_cycle_property insertion_sort 4 demo binary32.scaled).
  - lia.
  - apply sorts_insertion_sort. vm_compute. reflexivity.
  - apply ordered_by_enum. by_compute.
Defined.


(** * More on the tour of [metric_tsp] and on its cost *)

(** ** The tour as a preorder walk of the tree *)


Section Preorder.
Variables (n : nat) (E : list (nat * nat)) (adj : list (list nat)).
Hypothesis Hadj : ∀ u vs, adj !! u = Some vs → ∀ v, v ∈ vs → adjacent E u v.




End Preorder.

(** ** The cost that [main] adds up *)

Lemma foldl_fmap_acc {A B} (f : A → A → A) (g : B → A) (z : A) (l : list B) :
  foldl (λ acc i, f acc (g i)) z l = foldl f z (g <$> l).
Proof. revert z. induction l as [|x l IH]; intros z; simpl; [done|apply IH]. Qed.

(** The costs of the steps of a walk, in its order. *)
Definition step_costs {F} (c : nat → nat → F) (t : list nat) : list F :=
  (λ p, c p.1 p.2) <$> path_pairs t.

Lemma path_pairs_lookup (t : list nat) k u v :
  t !! k = Some u → t !! S k = Some v → path_pairs t !! k = Some (u, v).
Proof.
  intros Hu Hv. unfold path_pairs. apply lookup_zip_with_Some.
  exists u, v. split_and!; [done..|]. by rewrite lookup_drop.
Qed.

(** ** Properties *)



(** X17. For [n >= 2], on a symmetric matrix whose exact costs obey the
    triangle inequality, the tour of [metric_tsp] costs at most twice the
    tree of [mst] it walks, whatever order [std::sort] left the edges
    in. *)
Theorem metric_tsp_within_twice_tree {F} `{FloatOps F}
    (sort : list (Edge F) → list (Edge F)) (n : nat) (c : nat → nat → F)
    (val : F → Z) :
  1 < n → sort (all_edges n c) ≡ₚ all_edges n c →
  symmetric n c → triangle val n c →
  ∃ K t, mst sort n c = Some K ∧ metric_tsp sort n c = Some t ∧
    (walk_weight val c t ≤ 2 * tree_weight val K)%Z.
Proof.
  intros Hn Hperm Hsym Htri.
  destruct (metric_tsp_unfold sort n c ltac:(lia) Hperm)
    as (K & adj & t & HK & Hlen & HKall & (Hw & Hac & Hsp) & Hadj & Ht & Hp
        & H0 & Hm).
  exists K, (t ++ [0]). split_and!; [done..|].
  rewrite (tree_weight_pairs n c val K HKall).
  apply (traverse_cost n (ends <$> K) adj (λ u v, val (c u v))
           ltac:(lia) Hw Hsp Hadj) with (fuel := 2 * n); try done.
  - intros u v Hu Hv. by rewrite (Hsym u v).
  - intros u v (e & [= -> ->] & He%HKall)%list_elem_of_fmap.
    apply elem_of_all_edges in He as (a & b & ? & ? & ->). done.
Qed.

Lemma metric_tsp_within_twice_tree_witness :
  ∃ K t, mst insertion_sort 4 trap = Some K ∧
    metric_tsp insertion_sort 4 trap = Some t ∧
    (walk_weight binary32.scaled trap t
     ≤ 2 * tree_weight binary32.scaled K)%Z.
Proof.
  apply (metric_tsp_within_twice_tree insertion_sort 4 trap binary32.scaled).
  - lia.
  - apply insertion_sort_perm.
  - apply symmetric_enum. by_compute.
  - apply triangle_enum. by_compute.
Defined.

(** X18. For a sequence of [n + 1] vertices that ends where it starts,
    as the tours of [tsp] and [metric_tsp] do, the loop of [main] adds
    up, in float arithmetic and in the order of the tour, the costs of
    its [n] steps, the step back to the start included: reading
    [tour[i % n]] differs from [tour[i]] only at [i = n]. *)
Theorem main_total_cost_of_closed_tour {F} `{FloatOps F} (n : nat)
    (c : nat → nat → F) (t : list nat) :
  0 < n → length t = n + 1 → t !! n = t !! 0 →
  total_cost n c t = foldl fadd fzero (step_costs c t).
Proof.
  intros Hn Hlen Hclosed. unfold total_cost, step_costs.
  rewrite (foldl_fmap_acc fadd
             (λ i, c (t !!! (i - 1)) (t !!! (i mod n))) fzero (seq 1 n)).
  f_equal. apply list_eq. intros k.
  rewrite !list_lookup_fmap.
  destruct (decide (k < n)) as [Hk|Hk]; last first.
  { rewrite lookup_seq_ge by lia. simpl.
    rewrite lookup_ge_None_2; [done|]. rewrite path_pairs_length. lia. }
  rewrite lookup_seq_lt by done. simpl.
  destruct (lookup_lt_is_Some_2 t k ltac:(lia)) as [u Hu].
  destruct (lookup_lt_is_Some_2 t (S k) ltac:(lia)) as [v Hv].
  rewrite (path_pairs_lookup t k u v Hu Hv). simpl. f_equal.
  rewrite Nat.sub_0_r.
  rewrite (list_lookup_total_correct _ _ _ Hu). f_equal.
  apply list_lookup_total_correct.
  destruct (decide (S k = n)) as [Heq|Hne].
  - rewrite Heq, Nat.Div0.mod_same. rewrite <-Hclosed, <-Heq. done.
  - rewrite Nat.mod_small by lia. done.
Qed.

Lemma main_total_cost_of_closed_tour_witness :
  total_cost 4 demo [0; 3; 1; 2; 0]
  = foldl fadd fzero (step_costs demo [0; 3; 1; 2; 0]).
Proof.
  apply (main_total_cost_of_closed_tour 4 demo [0; 3; 1; 2; 0]).
  - lia.
  - reflexivity.
  - reflexivity.
Defined.

(** [main]'s loop [for (i = 0; i <= n; i++) cout << tour[i % n]]: the
    vertices it prints, in order. *)
Definition printed_path (n : nat) (tour : list nat) : list nat :=
  (λ i, tour !!! (i mod n)) <$> seq 0 (n + 1).

(** X25. For a sequence of [n + 1] vertices that ends where it starts,
    as the tours of [tsp] and [metric_tsp] do, the path that [main]
    prints is the tour itself: the last vertex printed is [tour[0]],
    which is [tour[n]]. *)
Theorem main_prints_the_tour (n : nat) (t : list nat) :
  0 < n → length t = n + 1 → t !! n = t !! 0 → printed_path n t = t.
Proof.
  intros Hn Hlen Hclosed. unfold printed_path. apply list_eq. intros k.
  rewrite list_lookup_fmap.
  destruct (decide (k < n + 1)) as [Hk|Hk]; last first.
  { rewrite lookup_seq_ge by lia. simpl.
    rewrite lookup_ge_None_2; [done|lia]. }
  rewrite lookup_seq_lt by done. simpl.
  destruct (lookup_lt_is_Some_2 t k ltac:(lia)) as [u Hu]. rewrite Hu.
  f_equal. apply list_lookup_total_correct.
  destruct (decide (k = n)) as [->|Hne].
  - rewrite Nat.Div0.mod_same. by rewrite <-Hclosed.
  - rewrite Nat.mod_small by lia. done.
Qed.

Lemma main_prints_the_tour_witness :
  printed_path 4 [0; 3; 1; 2; 0] = [0; 3; 1; 2; 0].
Proof.
  apply (main_prints_the_tour 4 [0; 3; 1; 2; 0]); [lia|reflexivity..].
Defined.


(** * The table of [tsp] *)

(** ** Masks *)

Section Masks.
Local Open Scope Z_scope.

Lemma bit_pow2 (u : nat) : bit u = 2 ^ Z.of_nat u.
Proof. unfold bit. apply Z.shiftl_1_l. Qed.

Lemma bit_pos (u : nat) : 0 < bit u.
Proof. rewrite bit_pow2. apply Z.pow_pos_nonneg; lia. Qed.

Lemma land_bit_testbit (s : Z) (u : nat) :
  Z.land s (bit u) ≠ 0 ↔ Z.testbit s (Z.of_nat u) = true.
Proof.
  rewrite bit_pow2. split.
  - intros Hne. destruct (Z.testbit s (Z.of_nat u)) eqn:Hb; [done|].
    exfalso. apply Hne. apply Z.bits_inj'. intros k Hk.
    rewrite Z.land_spec, Z.bits_0, Z.pow2_bits_eqb by lia.
    destruct (Z.eqb_spec (Z.of_nat u) k) as [<-|]; [|by rewrite andb_false_r].
    by rewrite Hb.
  - intros Hb Heq.
    assert (Z.testbit (Z.land s (2 ^ Z.of_nat u)) (Z.of_nat u) = true) as Ht.
    { rewrite Z.land_spec, Hb, Z.pow2_bits_true by lia. done. }
    rewrite Heq, Z.bits_0 in Ht. done.
Qed.

(** [s & ~(1 << i)] is [s - (1 << i)] when [i] is in [s]. *)
Lemma clear_bit_sub (s : Z) (i : nat) :
  Z.land s (bit i) ≠ 0 → Z.land s (Z.lnot (bit i)) = s - bit i.
Proof.
  intros Hb%land_bit_testbit. rewrite <-Z.ldiff_land.
  symmetry. apply Z.sub_nocarry_ldiff.
  apply Z.bits_inj'. intros k Hk.
  rewrite Z.ldiff_spec, Z.bits_0, bit_pow2, Z.pow2_bits_eqb by lia.
  destruct (Z.eqb_spec (Z.of_nat i) k) as [<-|]; [|done].
  by rewrite Hb.
Qed.

Lemma elem_of_subset_of n s u :
  u ∈ subset_of n s ↔ (u < n)%nat ∧ Z.testbit s (Z.of_nat u) = true.
Proof.
  unfold subset_of. rewrite list_elem_of_filter, elem_of_seq, land_bit_testbit.
  split; intros [? ?]; split; (done || lia).
Qed.

Lemma elem_of_odd_masks n s :
  (0 < n)%nat →
  s ∈ odd_masks n ↔ 0 < s < 2 ^ Z.of_nat n ∧ Z.odd s = true.
Proof.
  intros Hn. unfold odd_masks. rewrite list_elem_of_fmap.
  assert (2 ^ Z.of_nat n = 2 * 2 ^ (Z.of_nat n - 1)) as Hpow.
  { rewrite <-Z.pow_succ_r by lia. f_equal. lia. }
  assert (2 ^ Z.of_nat n / 2 = 2 ^ (Z.of_nat n - 1)) as Hhalf.
  { rewrite Hpow, Z.mul_comm, Z.div_mul; lia. }
  pose proof (Z.pow_pos_nonneg 2 (Z.of_nat n - 1) ltac:(lia) ltac:(lia)).
  split.
  - intros (k & -> & [_ Hk]%elem_of_seq). rewrite Hhalf in Hk.
    split; [lia|]. rewrite Z.add_comm, Z.odd_add_mul_2. done.
  - intros [Hs Hodd]. apply Z.odd_spec in Hodd as [m ->].
    exists (Z.to_nat m). split; [lia|]. apply elem_of_seq. rewrite Hhalf. lia.
Qed.

End Masks.

(** ** Which entries a pass writes *)

Section Table.
Context {F : Type} `{FloatOps F}.
Variables (n : nat) (c : nat → nat → F).

Lemma set_opt_eq (opt : table F) s i x : set_opt opt s i x s i = x.
Proof. unfold set_opt. by rewrite decide_True. Qed.

Lemma set_opt_ne (opt : table F) s i x s' i' :
  s' ≠ s ∨ i' ≠ i → set_opt opt s i x s' i' = opt s' i'.
Proof. intros Hne. unfold set_opt. rewrite decide_False; [done|]. tauto. Qed.

Lemma fill_entry_ne s (opt : table F) i s' i' :
  s' ≠ s ∨ i' ≠ i → fill_entry n c s opt i s' i' = opt s' i'.
Proof.
  intros Hne. unfold fill_entry.
  repeat case_decide; by rewrite ?set_opt_ne.
Qed.

Lemma fill_row_ne s (cols : list nat) : ∀ (opt : table F) s' i',
  s' ≠ s ∨ i' ∉ cols →
  foldl (fill_entry n c s) opt cols s' i' = opt s' i'.
Proof.
  induction cols as [|x cols IH]; intros opt s' i' Hne; [done|].
  simpl. rewrite IH by set_solver. apply fill_entry_ne. set_solver.
Qed.

Lemma fill_rows_ne (rows : list Z) : ∀ (opt : table F) s' i',
  s' ∉ rows ∨ i' ∉ seq 1 (n - 1) →
  foldl (λ opt s, foldl (fill_entry n c s) opt (seq 1 (n - 1))) opt rows s' i'
  = opt s' i'.
Proof.
  induction rows as [|s rows IH]; intros opt s' i' Hne; [done|].
  simpl. rewrite IH by set_solver. apply fill_row_ne. set_solver.
Qed.

(** The value of an entry is the one its own iteration wrote. *)
Lemma fill_row_at s (cols : list nat) : ∀ (opt : table F) i,
  NoDup cols → i ∈ cols →
  ∃ opt0 : table F,
    (∀ s' i', s' ≠ s → opt0 s' i' = opt s' i') ∧
    foldl (fill_entry n c s) opt cols s i = fill_entry n c s opt0 i s i.
Proof.
  induction cols as [|x cols IH]; intros opt i Hnd Hi;
    [by apply not_elem_of_nil in Hi|].
  apply NoDup_cons in Hnd as [Hx Hnd]. simpl.
  destruct (decide (i = x)) as [->|Hne].
  - exists opt. split; [done|]. by rewrite fill_row_ne by auto.
  - destruct (IH (fill_entry n c s opt x) i Hnd ltac:(set_solver))
      as (opt0 & Hrows & Hval).
    exists opt0. split; [|done]. intros s' i' Hs'.
    rewrite Hrows by done. apply fill_entry_ne. auto.
Qed.

Lemma min_over_ext (opt1 opt2 : table F) t i (l : list nat) :
  (∀ j, j ∈ l → opt1 t j = opt2 t j) →
  min_over opt1 c t i l = min_over opt2 c t i l.
Proof.
  unfold min_over. generalize FLT_MAX.
  induction l as [|j l IH]; intros acc Heq; [done|].
  simpl. rewrite (Heq j) by set_solver. apply IH. intros; apply Heq; set_solver.
Qed.

(** An entry [opt[s][i]] with [s] odd, [0 < s < 2^n] and [0 < i < n] is
    written once, from a table whose rows below [s] are final. *)
Lemma fill_table_at s i :
  (0 < s < 2 ^ Z.of_nat n)%Z → Z.odd s = true → 0 < i → i < n →
  ∃ opt0 : table F,
    (∀ s' i', (s' < s)%Z → opt0 s' i' = fill_table n c s' i') ∧
    fill_table n c s i = fill_entry n c s opt0 i s i.
Proof.
  intros Hs Hodd Hi Hin.
  assert (s ∈ odd_masks n) as Hmem by (apply elem_of_odd_masks; [lia|done]).
  unfold fill_table.
  unfold odd_masks in Hmem |- *.
  apply list_elem_of_fmap in Hmem as (k & -> & [_ Hk]%elem_of_seq).
  set (m := Z.to_nat (2 ^ Z.of_nat n / 2)) in *.
  replace m with (k + S (m - S k)) by lia.
  rewrite seq_app, fmap_app, foldl_app. simpl.
  set (f := λ k : nat, (2 * Z.of_nat k + 1)%Z).
  set (A := foldl _ _ (f <$> seq 0 k)).
  set (rest := f <$> seq (S k) (m - S k)).
  assert (∀ s', (s' ≤ f k)%Z → s' ∉ rest) as Hrest.
  { intros s' Hle (j & -> & [Hj _]%elem_of_seq)%list_elem_of_fmap.
    unfold f in Hle. lia. }
  destruct (fill_row_at (f k) (seq 1 (n - 1)) A i) as (opt0 & Hrows & Hval).
  { apply NoDup_seq. }
  { apply elem_of_seq. lia. }
  exists opt0. split.
  - intros s' i' Hlt.
    rewrite (fill_rows_ne rest) by (left; apply Hrest; unfold f; lia).
    rewrite fill_row_ne by (left; lia). apply Hrows. unfold f. lia.
  - rewrite (fill_rows_ne rest) by (left; apply Hrest; unfold f; lia). done.
Qed.

End Table.

(** ** Properties of the table *)

Lemma fill_table_untouched {F} `{FloatOps F} (n : nat) (c : nat → nat → F)
    (s : Z) (i : nat) :
  i = 0 ∨ n ≤ i ∨ Z.odd s = false ∨ (s ≤ 0)%Z ∨ (2 ^ Z.of_nat n ≤ s)%Z →
  fill_table n c s i = fzero.
Proof.
  intros Hcase. unfold fill_table. apply (fill_rows_ne n c).
  destruct (decide (i = 0 ∨ n ≤ i)) as [Hi|Hi].
  { right. rewrite elem_of_seq. lia. }
  left. destruct (decide (n = 0)) as [->|Hn]; [apply not_elem_of_nil|].
  rewrite elem_of_odd_masks by lia. intros [Hs Hodd].
  destruct Hcase as [?|[?|[?|[?|?]]]]; (congruence || lia).
Qed.

(** X19. The loops of [tsp] never write [opt[s][0]], nor any entry of a
    row [s] that is even: these entries keep the zero the table was
    filled with when it was constructed. *)
Theorem dp_untouched_entries {F} `{FloatOps F} (n : nat) (c : nat → nat → F)
    (s : Z) (i : nat) :
  i = 0 ∨ Z.odd s = false → fill_table n c s i = fzero.
Proof. intros [?|?]; apply fill_table_untouched; auto. Qed.

Lemma dp_untouched_entries_witness : fill_table 4 trap 7%Z 0 = fzero.
Proof. apply (dp_untouched_entries 4 trap 7%Z 0). by left. Defined.

Lemma fill_table_base {F} `{FloatOps F} (n : nat) (c : nat → nat → F)
    (s : Z) (i : nat) :
  (0 < s < 2 ^ Z.of_nat n)%Z → Z.odd s = true → 0 < i → i < n →
  length (subset_of n s) = 2 →
  fill_table n c s i = c 0 i.
Proof.
  intros Hs Hodd Hi Hin Hlen.
  destruct (fill_table_at n c s i Hs Hodd Hi Hin) as (opt0 & _ & ->).
  unfold fill_entry. rewrite decide_True by done. apply set_opt_eq.
Qed.

(** X20. For a row [s] of exactly two vertices, vertex 0 and one other,
    every entry [opt[s][i]] with [0 < i < n] is [cost[0][i]], whether or
    not [i] is the other vertex of [s]. *)
Theorem dp_base_case {F} `{FloatOps F} (n : nat) (c : nat → nat → F)
    (s : Z) (i : nat) :
  (0 < s < 2 ^ Z.of_nat n)%Z → Z.odd s = true → 0 < i → i < n →
  length (subset_of n s) = 2 →
  fill_table n c s i = c 0 i.
Proof.
  intros Hs Hodd Hi Hin Hlen. by apply fill_table_base.
Qed.

Lemma dp_base_case_witness : fill_table 4 trap 5%Z 1 = trap 0 1.
Proof.
  apply (dp_base_case 4 trap 5%Z 1); [lia|reflexivity|lia|lia|reflexivity].
Defined.

(** X21. For a row [s] of more than two vertices and a vertex [i > 0] of
    [s], the entry [opt[s][i]] is the running minimum, started at
    [FLT_MAX], of [opt[s - 2^i][j] + cost[j][i]] over the vertices [j] of
    [s] other than [i], taken from the finished table.  Vertex 0 is one
    of these [j], and its entry [opt[s - 2^i][0]] is zero. *)
Theorem dp_recurrence_as_computed {F} `{FloatOps F} (n : nat)
    (c : nat → nat → F) (s : Z) (i : nat) :
  (0 < s < 2 ^ Z.of_nat n)%Z → Z.odd s = true → 0 < i →
  i ∈ subset_of n s → 2 < length (subset_of n s) →
  fill_table n c s i
  = min_over (fill_table n c) c (s - bit i)%Z i (subset_of n s) ∧
  0 ∈ subset_of n s ∧ 0 ≠ i ∧
  fill_table n c (s - bit i)%Z 0 = fzero.
Proof.
  intros Hs Hodd Hi Hmem Hlen.
  pose proof Hmem as [Hin Hbit]%elem_of_subset_of.
  split_and!.
  - destruct (fill_table_at n c s i Hs Hodd Hi Hin) as (opt0 & Hrows & ->).
    unfold fill_entry. rewrite decide_False by lia.
    rewrite decide_True by done. rewrite set_opt_eq.
    rewrite clear_bit_sub by by apply land_bit_testbit.
    apply min_over_ext. intros j _. apply Hrows.
    pose proof (bit_pos i). lia.
  - apply elem_of_subset_of. split; [lia|]. by rewrite Z.bit0_odd.
  - lia.
  - apply fill_table_untouched. by left.
Qed.

Lemma dp_recurrence_as_computed_witness :
  fill_table 4 trap 7%Z 2
  = min_over (fill_table 4 trap) trap (7 - bit 2)%Z 2 (subset_of 4 7%Z) ∧
  0 ∈ subset_of 4 7%Z ∧ 0 ≠ 2 ∧
  fill_table 4 trap (7 - bit 2)%Z 0 = fzero.
Proof.
  apply (dp_recurrence_as_computed 4 trap 7%Z 2).
  - lia.
  - reflexivity.
  - lia.
  - apply (bool_decide_unpack _). vm_compute. exact I.
  - vm_compute. lia.
Defined.

(** ** Two vertices *)

(** X22. With two vertices, [tsp] returns the tour [0 1 0] when
    [cost[0][1] + cost[1][0] < FLT_MAX] in float arithmetic, and reads
    [best_k] unassigned otherwise. *)
Theorem tsp_two_vertices {F} `{FloatOps F} (c : nat → nat → F) :
  tsp 2 c = if flt (fadd (c 0 1) (c 1 0)) FLT_MAX
            then Some [0; 1; 0] else None.
Proof.
  unfold tsp. cbn [reconstruct Nat.sub].
  change (last [0]) with (Some 0). cbn [mbind option_bind].
  assert (fill_table 2 c (2 ^ Z.of_nat 2 - 1)%Z 1 = c 0 1) as Hopt.
  { apply fill_table_base; [lia|reflexivity|lia|lia|reflexivity]. }
  unfold best_candidate. cbn [seq foldl].
  change (<[0:=true]> (replicate 2 false)) with [true; false].
  cbn [lookup list_lookup default from_option id negb andb].
  cbn [lookup list_lookup default from_option id negb andb]. rewrite Hopt.
  by destruct (flt (fadd (c 0 1) (c 1 0)) FLT_MAX).
Qed.

(** ** When the reconstruction finds its candidates *)






Section Candidates.
Context {F : Type} `{FloatOps F}.
Variables (n : nat) (opt : table F) (c : nat → nat → F).


Hypothesis Hbelow : ∀ s k j,
  (0 < s < 2 ^ Z.of_nat n)%Z → k < n → j < n →
  flt (fadd (opt s k) (c k j)) FLT_MAX = true.


End Candidates.



(** ** Up to three vertices *)

(** On a symmetric matrix over at most three vertices all Hamiltonian
    cycles cost the same. *)
Lemma small_cycles_equal {F} `{FloatOps F} (n : nat) (c : nat → nat → F)
    (val : F → Z) (h1 h2 : list nat) :
  n ≤ 3 → symmetric n c →
  hamiltonian_cycle n h1 → hamiltonian_cycle n h2 →
  walk_weight val c h1 = walk_weight val c h2.
Proof.
  intros Hn Hsym (p1 & Hp1 & ->) (p2 & Hp2 & ->).
  symmetry in Hp1, Hp2. apply permutations_Permutation in Hp1, Hp2.
  unfold walk_weight, pairs_weight.
  destruct n as [|[|[|[|n]]]]; [| | | |lia].
  - vm_compute in Hp1, Hp2.
    apply list_elem_of_singleton in Hp1 as ->.
    by apply list_elem_of_singleton in Hp2 as ->.
  - vm_compute in Hp1, Hp2.
    apply list_elem_of_singleton in Hp1 as ->.
    by apply list_elem_of_singleton in Hp2 as ->.
  - pose proof (Hsym 0 1 ltac:(lia) ltac:(lia)) as H01.
    vm_compute in Hp1, Hp2.
    repeat (apply elem_of_cons in Hp1 as [->|Hp1]);
      try (by apply not_elem_of_nil in Hp1);
      repeat (apply elem_of_cons in Hp2 as [->|Hp2]);
      try (by apply not_elem_of_nil in Hp2);
      simpl; rewrite ?H01; lia.
  - pose proof (Hsym 0 1 ltac:(lia) ltac:(lia)) as H01.
    pose proof (Hsym 0 2 ltac:(lia) ltac:(lia)) as H02.
    pose proof (Hsym 1 2 ltac:(lia) ltac:(lia)) as H12.
    vm_compute in Hp1, Hp2.
    repeat (apply elem_of_cons in Hp1 as [->|Hp1]);
      try (by apply not_elem_of_nil in Hp1);
      repeat (apply elem_of_cons in Hp2 as [->|Hp2]);
      try (by apply not_elem_of_nil in Hp2);
      simpl; rewrite ?H01, ?H02, ?H12; lia.
Qed.

(** X24. Up to three vertices the defect of the table does not show: on
    a symmetric matrix, whenever [tsp] returns, its tour costs exactly
    what every Hamiltonian cycle costs, and so does the tour of
    [metric_tsp]. *)
Theorem tsp_exact_up_to_three {F} `{FloatOps F}
    (sort : list (Edge F) → list (Edge F)) (n : nat) (c : nat → nat → F)
    (val : F → Z) (t : list nat) :
  0 < n → n ≤ 3 → symmetric n c →
  sort (all_edges n c) ≡ₚ all_edges n c →
  tsp n c = Some t →
  (∀ h, hamiltonian_cycle n h → walk_weight val c t = walk_weight val c h) ∧
  ∃ t', metric_tsp sort n c = Some t' ∧
        walk_weight val c t' = walk_weight val c t.
Proof.
  intros Hn Hn3 Hsym Hperm Ht.
  assert (hamiltonian_cycle n t) as Hh.
  { apply valid_tour_hamiltonian; [done|]. by eapply tsp_valid. }
  split.
  - intros h Hh'. by apply (small_cycles_equal n).
  - destruct (metric_tsp_valid sort n c Hn Hperm) as (t' & Ht' & Hv).
    exists t'. split; [done|]. apply (small_cycles_equal n); try done.
    by apply valid_tour_hamiltonian.
Qed.

Lemma tsp_exact_up_to_three_witness :
  (∀ h, hamiltonian_cycle 3 h →
        walk_weight binary32.scaled detour [0; 1; 2; 0]
        = walk_weight binary32.scaled detour h) ∧
  ∃ t', metric_tsp insertion_sort 3 detour = Some t' ∧
        walk_weight binary32.scaled detour t'
        = walk_weight binary32.scaled detour [0; 1; 2; 0].
Proof.
  apply (tsp_exact_up_to_three insertion_sort 3 detour binary32.scaled
           [0; 1; 2; 0]).
  - lia.
  - lia.
  - apply symmetric_enum. by_compute.
  - apply insertion_sort_perm.
  - vm_compute. reflexivity.
Defined.

